(** * Particle network: force layout, pulse simulation, network builder

    A shallow embedding of the JavaScript sources

      - [js/force-layout.js]   (layout pass, position integration)
      - [js/node.js]           (Node class, pulse pool, pulse simulation)
      - [js/network.js]        (network construction and pruning)
      - [js/input-manager.js]  (pointer handlers)
      - [js/main.js]           (the frame callback)

    Modelling conventions.

    - A JavaScript number is an exact rational ([Q]): the development reasons
      about the algorithms, not about binary64 rounding.  [Math.sqrt] is not a
      rational function, so the development is parametric in it.
    - A node object is a record carrying its object identity [oid]; the
      [nodes] array is the list of these records in array order, and every
      reference to a node ([connections], [pulse.target], [selectedNode]) is
      the identity of the referenced object.  Mutating a node through a
      reference is [modifyNode] on the array.
    - A pulse object carries its identity [pid]; an object literal allocates
      the next unused identity.
    - [Math.random()] is the next element of a sequence of draws handed to the
      program; the world counts the draws made so far. *)

From Stdlib Require Import List Bool Arith ZArith QArith Qminmax Qabs Qround Lqa Lia.
Import ListNotations.

Set Implicit Arguments.

(** ** JavaScript numbers and arrays *)

Module JS.

Definition leb (a b : Q) : bool := Qle_bool a b.
Definition ltb (a b : Q) : bool := negb (Qle_bool b a).
Definition gtb (a b : Q) : bool := ltb b a.
Definition geb (a b : Q) : bool := leb b a.
Definition eqb (a b : Q) : bool := Qeq_bool a b.

(** [Math.floor], as an integer. *)
Definition floor (a : Q) : Z := Qfloor a.

(** Rounding towards zero, which is what [%] divides with. *)
Definition trunc (a : Q) : Z := if Qle_bool 0 a then Qfloor a else Qceiling a.

(** [a % m]: the remainder takes the sign of the dividend. *)
Definition rem (a m : Q) : Q := a - m * inject_Z (trunc (a / m)).

(** [a || b] on numbers: [b] when [a] is zero. *)
Definition or_else (a b : Q) : Q := if Qeq_bool a 0 then b else a.

(** [arr.push(v)]. *)
Definition push {A} (arr : list A) (v : A) : list A := arr ++ [v].

(** [arr.splice(i, 1)]. *)
Definition splice1 {A} (i : nat) (arr : list A) : list A :=
  firstn i arr ++ skipn (S i) arr.

(** [arr.pop()]: the last element and the shortened array. *)
Definition pop {A} (arr : list A) : option (A * list A) :=
  match rev arr with
  | [] => None
  | v :: r => Some (v, rev r)
  end.

(** [arr[i]] for an integer [i]: [None] is [undefined]. *)
Definition at_index {A} (arr : list A) (i : Z) : option A :=
  if (i <? 0)%Z then None else nth_error arr (Z.to_nat i).

(** [arr[i] = v] for [i] inside the array. *)
Fixpoint set_at {A} (i : nat) (v : A) (arr : list A) : list A :=
  match arr, i with
  | [], _ => []
  | _ :: r, O => v :: r
  | a :: r, S j => a :: set_at j v r
  end.

(** [arr.includes(v)] on references. *)
Definition includes (arr : list nat) (v : nat) : bool :=
  existsb (Nat.eqb v) arr.

End JS.

(** ** Data model *)

(** The three strings a node's [type] takes ([createNodes] passes no other). *)
Inductive NodeType := Source | Process | Destination.

Definition NodeType_eqb (a b : NodeType) : bool :=
  match a, b with
  | Source, Source | Process, Process | Destination, Destination => true
  | _, _ => false
  end.

Lemma NodeType_eqb_eq a b : NodeType_eqb a b = true <-> a = b.
Proof. destruct a, b; simpl; split; congruence. Qed.

(** A pulse object: [{ source, target, progress, speed }]. *)
Record Pulse := mkPulse {
  pid : nat;
  source : nat;
  target : nat;
  progress : Q;
  speed : Q
}.

(** A [Node] object (the [color] string, used by drawing only, is left out). *)
Record Node := mkNode {
  oid : nat;
  x : Q;
  y : Q;
  radius : Q;
  type : NodeType;
  connections : list nat;
  pulses : list Pulse;
  processingPulses : Z;
  active : bool;
  opacity : Q;
  targetOpacity : Q;
  activationTime : Q;
  lastPulseTime : Q;
  pulseInterval : Q;
  isHovered : bool;
  isDragged : bool;
  vx : Q;
  vy : Q
}.

Definition set_x (v : Q) (n : Node) : Node :=
  mkNode (oid n) v (y n) (radius n) (type n) (connections n) (pulses n)
    (processingPulses n) (active n) (opacity n) (targetOpacity n)
    (activationTime n) (lastPulseTime n) (pulseInterval n) (isHovered n)
    (isDragged n) (vx n) (vy n).

Definition set_y (v : Q) (n : Node) : Node :=
  mkNode (oid n) (x n) v (radius n) (type n) (connections n) (pulses n)
    (processingPulses n) (active n) (opacity n) (targetOpacity n)
    (activationTime n) (lastPulseTime n) (pulseInterval n) (isHovered n)
    (isDragged n) (vx n) (vy n).

Definition set_vx (v : Q) (n : Node) : Node :=
  mkNode (oid n) (x n) (y n) (radius n) (type n) (connections n) (pulses n)
    (processingPulses n) (active n) (opacity n) (targetOpacity n)
    (activationTime n) (lastPulseTime n) (pulseInterval n) (isHovered n)
    (isDragged n) v (vy n).

Definition set_vy (v : Q) (n : Node) : Node :=
  mkNode (oid n) (x n) (y n) (radius n) (type n) (connections n) (pulses n)
    (processingPulses n) (active n) (opacity n) (targetOpacity n)
    (activationTime n) (lastPulseTime n) (pulseInterval n) (isHovered n)
    (isDragged n) (vx n) v.

Definition set_connections (v : list nat) (n : Node) : Node :=
  mkNode (oid n) (x n) (y n) (radius n) (type n) v (pulses n)
    (processingPulses n) (active n) (opacity n) (targetOpacity n)
    (activationTime n) (lastPulseTime n) (pulseInterval n) (isHovered n)
    (isDragged n) (vx n) (vy n).

Definition set_pulses (v : list Pulse) (n : Node) : Node :=
  mkNode (oid n) (x n) (y n) (radius n) (type n) (connections n) v
    (processingPulses n) (active n) (opacity n) (targetOpacity n)
    (activationTime n) (lastPulseTime n) (pulseInterval n) (isHovered n)
    (isDragged n) (vx n) (vy n).

Definition set_processingPulses (v : Z) (n : Node) : Node :=
  mkNode (oid n) (x n) (y n) (radius n) (type n) (connections n) (pulses n)
    v (active n) (opacity n) (targetOpacity n)
    (activationTime n) (lastPulseTime n) (pulseInterval n) (isHovered n)
    (isDragged n) (vx n) (vy n).

Definition set_active (v : bool) (n : Node) : Node :=
  mkNode (oid n) (x n) (y n) (radius n) (type n) (connections n) (pulses n)
    (processingPulses n) v (opacity n) (targetOpacity n)
    (activationTime n) (lastPulseTime n) (pulseInterval n) (isHovered n)
    (isDragged n) (vx n) (vy n).

Definition set_opacity (v : Q) (n : Node) : Node :=
  mkNode (oid n) (x n) (y n) (radius n) (type n) (connections n) (pulses n)
    (processingPulses n) (active n) v (targetOpacity n)
    (activationTime n) (lastPulseTime n) (pulseInterval n) (isHovered n)
    (isDragged n) (vx n) (vy n).

Definition set_targetOpacity (v : Q) (n : Node) : Node :=
  mkNode (oid n) (x n) (y n) (radius n) (type n) (connections n) (pulses n)
    (processingPulses n) (active n) (opacity n) v
    (activationTime n) (lastPulseTime n) (pulseInterval n) (isHovered n)
    (isDragged n) (vx n) (vy n).

Definition set_lastPulseTime (v : Q) (n : Node) : Node :=
  mkNode (oid n) (x n) (y n) (radius n) (type n) (connections n) (pulses n)
    (processingPulses n) (active n) (opacity n) (targetOpacity n)
    (activationTime n) v (pulseInterval n) (isHovered n)
    (isDragged n) (vx n) (vy n).

Definition set_isHovered (v : bool) (n : Node) : Node :=
  mkNode (oid n) (x n) (y n) (radius n) (type n) (connections n) (pulses n)
    (processingPulses n) (active n) (opacity n) (targetOpacity n)
    (activationTime n) (lastPulseTime n) (pulseInterval n) v
    (isDragged n) (vx n) (vy n).

Definition set_isDragged (v : bool) (n : Node) : Node :=
  mkNode (oid n) (x n) (y n) (radius n) (type n) (connections n) (pulses n)
    (processingPulses n) (active n) (opacity n) (targetOpacity n)
    (activationTime n) (lastPulseTime n) (pulseInterval n) (isHovered n)
    v (vx n) (vy n).

(** The module-level state of the program: [node.js]'s pool, [main.js]'s
    [appState], [input-manager.js]'s press offset and the canvas size, with
    the bookkeeping of the two sources of fresh things: pulse identities and
    random draws. *)
Record World := mkWorld {
  nodes : list Node;
  pulsePool : list Pulse;
  nextPulse : nat;
  drawn : nat;
  isDragging : bool;
  selectedNode : option nat;
  offsetX : Q;
  offsetY : Q;
  lastFrameTime : Q;
  lastForceLayoutTime : Q;
  canvasWidth : Q;
  canvasHeight : Q
}.

Definition set_nodes (v : list Node) (w : World) : World :=
  mkWorld v (pulsePool w) (nextPulse w) (drawn w) (isDragging w)
    (selectedNode w) (offsetX w) (offsetY w) (lastFrameTime w)
    (lastForceLayoutTime w) (canvasWidth w) (canvasHeight w).

Definition set_pulsePool (v : list Pulse) (w : World) : World :=
  mkWorld (nodes w) v (nextPulse w) (drawn w) (isDragging w)
    (selectedNode w) (offsetX w) (offsetY w) (lastFrameTime w)
    (lastForceLayoutTime w) (canvasWidth w) (canvasHeight w).

Definition set_nextPulse (v : nat) (w : World) : World :=
  mkWorld (nodes w) (pulsePool w) v (drawn w) (isDragging w)
    (selectedNode w) (offsetX w) (offsetY w) (lastFrameTime w)
    (lastForceLayoutTime w) (canvasWidth w) (canvasHeight w).

Definition set_drawn (v : nat) (w : World) : World :=
  mkWorld (nodes w) (pulsePool w) (nextPulse w) v (isDragging w)
    (selectedNode w) (offsetX w) (offsetY w) (lastFrameTime w)
    (lastForceLayoutTime w) (canvasWidth w) (canvasHeight w).

Definition set_drag (d : bool) (sel : option nat) (ox oy : Q) (w : World) : World :=
  mkWorld (nodes w) (pulsePool w) (nextPulse w) (drawn w) d sel ox oy
    (lastFrameTime w) (lastForceLayoutTime w) (canvasWidth w) (canvasHeight w).

Definition set_lastFrameTime (v : Q) (w : World) : World :=
  mkWorld (nodes w) (pulsePool w) (nextPulse w) (drawn w) (isDragging w)
    (selectedNode w) (offsetX w) (offsetY w) v
    (lastForceLayoutTime w) (canvasWidth w) (canvasHeight w).

Definition set_lastForceLayoutTime (v : Q) (w : World) : World :=
  mkWorld (nodes w) (pulsePool w) (nextPulse w) (drawn w) (isDragging w)
    (selectedNode w) (offsetX w) (offsetY w) (lastFrameTime w)
    v (canvasWidth w) (canvasHeight w).

Definition set_canvas (cw ch : Q) (w : World) : World :=
  mkWorld (nodes w) (pulsePool w) (nextPulse w) (drawn w) (isDragging w)
    (selectedNode w) (offsetX w) (offsetY w) (lastFrameTime w)
    (lastForceLayoutTime w) cw ch.

(** Reading and writing a node through a reference. *)
Definition getNode (i : nat) (ns : list Node) : option Node :=
  find (fun n => Nat.eqb (oid n) i) ns.

Definition modifyNode (i : nat) (f : Node -> Node) (ns : list Node) : list Node :=
  map (fun n => if Nat.eqb (oid n) i then f n else n) ns.

Definition withNode (i : nat) (f : Node -> Node) (w : World) : World :=
  set_nodes (modifyNode i f (nodes w)) w.

(** ** The pulse pool ([node.js]) *)

Definition MAX_PULSE_COUNT : nat := 100.
Definition PULSE_SPEED : Q := 23 # 1000.

(** [createPulse(source, target, speed)]: the pulse and the world after.
    A pooled object keeps its identity and has its four fields overwritten;
    the object literal allocates a new identity. *)
Definition createPulse (src tgt : nat) (spd : Q) (w : World) : Pulse * World :=
  match JS.pop (pulsePool w) with
  | Some (pulse, rest) =>
      (mkPulse (pid pulse) src tgt 0 spd, set_pulsePool rest w)
  | None =>
      (mkPulse (nextPulse w) src tgt 0 spd,
       set_nextPulse (S (nextPulse w)) w)
  end.

(** [recyclePulse(pulse)]. *)
Definition recyclePulse (pulse : Pulse) (w : World) : World :=
  if (length (pulsePool w) <? MAX_PULSE_COUNT)%nat then
    set_pulsePool (JS.push (pulsePool w) pulse) w
  else w.

Definition set_progress (v : Q) (p : Pulse) : Pulse :=
  mkPulse (pid p) (source p) (target p) v (speed p).

(** The [config] object of [applyForceLayout]. *)
Record Config := mkConfig {
  iterations : nat;
  repulsionForce : Q;
  attractionForce : Q;
  contentRepulsionForce : Q;
  contentPadding : Q;
  maxDisplacement : Q;
  coolingFactor : Q;
  minDistance : Q;
  edgePadding : Q;
  edgeForce : Q
}.

(** A content rectangle: [{ left, right, top, bottom, width, height }]. *)
Record Rect := mkRect {
  r_left : Q;
  r_right : Q;
  r_top : Q;
  r_bottom : Q;
  r_width : Q;
  r_height : Q
}.

Section Program.

(** The values [Math.random()] returns, in call order. *)
Variable draws : nat -> Q.

(** [Math.sqrt]. *)
Variable Math_sqrt : Q -> Q.

(** ** The Node class ([node.js]) *)

Definition Math_random (w : World) : Q * World :=
  (draws (drawn w), set_drawn (S (drawn w)) w).

(** [new Node(x, y, radius, type)]; [i] is the identity of the new object. *)
Definition newNode (i : nat) (x0 y0 r : Q) (t : NodeType) (w : World)
  : Node * World :=
  let '(r1, w) := Math_random w in
  let act := JS.gtb r1 (1 # 2) in
  let op := if act then 1 else 3 # 10 in
  let '(r2, w) := Math_random w in
  let '(r3, w) := Math_random w in
  (mkNode i x0 y0 r t [] [] 0%Z act op op
     (r2 * 5000) 0 (1000 + r3 * 2000) false false 0 0, w).

(** [this.connect(node)]. *)
Definition connect (node : nat) (this : Node) : Node :=
  if negb (JS.includes (connections this) node)
  then set_connections (JS.push (connections this) node) this
  else this.

(** The two writes that end [sendRandomImpulse]:
    [this.pulses.push(pulse)] and the guarded [this.processingPulses -= 1]. *)
Definition emit (pulse : Pulse) (this : Node) : Node :=
  let this := set_pulses (JS.push (pulses this) pulse) this in
  if (0 <? processingPulses this)%Z
  then set_processingPulses (processingPulses this - 1) this
  else this.

(** [this.sendRandomImpulse()] for the node [i].  An index outside the
    array (impossible for draws in [0,1)) would make the source throw on
    [undefined.opacity]; the model stops there. *)
Definition sendRandomImpulse (i : nat) (w : World) : World :=
  match getNode i (nodes w) with
  | None => w
  | Some this =>
    if (0 <? length (connections this))%nat then
      let '(r, w) := Math_random w in
      if JS.gtb r (3 # 10) then
        let '(r2, w) := Math_random w in
        let randomIndex :=
          JS.floor (r2 * inject_Z (Z.of_nat (length (connections this)))) in
        match JS.at_index (connections this) randomIndex with
        | None => w
        | Some tid =>
          match getNode tid (nodes w) with
          | None => w
          | Some randomConnection =>
            if JS.gtb (opacity randomConnection) (1 # 2) then
              let '(r3, w) := Math_random w in
              let '(pulse, w) :=
                createPulse i tid ((2 # 1000) + r3 * PULSE_SPEED) w in
              withNode i (emit pulse) w
            else w
          end
        end
      else w
    else w
  end.

(** [pulse.progress += pulse.speed * (deltaTime / 16.667)]. *)
Definition advance (deltaTime : Q) (pulse : Pulse) : Pulse :=
  set_progress (progress pulse + speed pulse * (deltaTime / (16667 # 1000)))
    pulse.

(** What [updatePulses] does to a pulse that reached its target. *)
Definition arrive (t : Node) : Node :=
  let t := set_processingPulses (processingPulses t + 1) t in
  let t := set_active true t in
  let t := set_opacity (if active t then 1 else 3 # 10) t in
  set_targetOpacity (opacity t) t.

(** [if (pulse.target.active) { if (pulse.target.type === "process" &&
    Math.random() > 0.7) pulse.target.sendRandomImpulse(); }] for the target
    [t]. *)
Definition forward (t : nat) (w : World) : World :=
  match getNode t (nodes w) with
  | None => w
  | Some tn =>
    if active tn then
      if NodeType_eqb (type tn) Process then
        let '(r, w) := Math_random w in
        if JS.gtb r (7 # 10) then sendRandomImpulse t w else w
      else w
    else w
  end.

(** The body of [updatePulses]'s loop at index [j] of [this.pulses]. *)
Definition pulseStep (i : nat) (deltaTime : Q) (j : nat) (w : World) : World :=
  match getNode i (nodes w) with
  | None => w
  | Some this =>
    match nth_error (pulses this) j with
    | None => w
    | Some pulse =>
      let pulse := advance deltaTime pulse in
      let w := withNode i (fun n => set_pulses (JS.set_at j pulse (pulses n)) n) w in
      if JS.geb (progress pulse) 1 then
        let w := withNode (target pulse) arrive w in
        let w := forward (target pulse) w in
        let w := recyclePulse pulse w in
        withNode i (fun n => set_pulses (JS.splice1 j (pulses n)) n) w
      else w
    end
  end.

(** [for (let i = k - 1; i >= 0; i--) body]. *)
Fixpoint updatePulses_loop (i : nat) (deltaTime : Q) (k : nat) (w : World)
  : World :=
  match k with
  | O => w
  | S j => updatePulses_loop i deltaTime j (pulseStep i deltaTime j w)
  end.

(** [this.updatePulses(deltaTime)]. *)
Definition updatePulses (i : nat) (deltaTime : Q) (w : World) : World :=
  match getNode i (nodes w) with
  | None => w
  | Some this => updatePulses_loop i deltaTime (length (pulses this)) w
  end.

(** The opacity and activity part of [update], on the node itself. *)
Definition relax (time : Q) (this : Node) : Node :=
  let cycleDuration := 15000 in
  let cyclePosition := JS.rem time cycleDuration / cycleDuration in
  let nodePhase := activationTime this / 5000 in
  let nodePosition := JS.rem (cyclePosition + nodePhase) 1 in
  let shouldBeActive := JS.ltb nodePosition (7 # 10) in
  let this := set_targetOpacity (if shouldBeActive then 1 else 3 # 10) this in
  let this :=
    if isHovered this || isDragged this then set_targetOpacity 1 this
    else this in
  let this :=
    if JS.gtb (Qabs (opacity this - targetOpacity this)) (1 # 100)
    then set_opacity
           (opacity this + (targetOpacity this - opacity this) * (5 # 100)) this
    else set_opacity (targetOpacity this) this in
  set_active (JS.gtb (opacity this) (7 # 10)) this.

(** [this.update(time, deltaTime)] for the node [i]. *)
Definition update (i : nat) (time deltaTime : Q) (w : World) : World :=
  let w := withNode i (relax time) w in
  let w :=
    match getNode i (nodes w) with
    | None => w
    | Some this =>
      if active this && NodeType_eqb (type this) Source
         && JS.gtb (time - lastPulseTime this) (pulseInterval this)
      then sendRandomImpulse i (withNode i (set_lastPulseTime time) w)
      else w
    end in
  let w :=
    match getNode i (nodes w) with
    | None => w
    | Some this =>
      if NodeType_eqb (type this) Process && (0 <? processingPulses this)%Z
      then
        let '(r, w) := Math_random w in
        if JS.gtb r (98 # 100) then sendRandomImpulse i w else w
      else w
    end in
  updatePulses i deltaTime w.


(** ** Network construction ([network.js]) *)

(** [calculateOptimalNodeCount(width, height)]. *)
Definition calculateOptimalNodeCount (width height : Q) : Z :=
  let area := width * height in
  let baseCount := 300 in
  Z.max 15 (Z.min 50 (JS.floor (baseCount * Math_sqrt area / 1500))).

(** The type [createNodes] gives to the node of index [i]. *)
Definition typeFor (numNodes : Z) (i : nat) : NodeType :=
  if JS.ltb (inject_Z (Z.of_nat i)) (inject_Z numNodes * (2 # 10))
  then Source
  else if JS.ltb (inject_Z (Z.of_nat i)) (inject_Z numNodes * (8 # 10))
  then Process
  else Destination.

(** [createNodes]: [k] iterations of the loop body, starting at index [i]. *)
Fixpoint createNodes_loop (numNodes : Z) (width height : Q) (k i : nat)
  (w : World) : World :=
  match k with
  | O => w
  | S k' =>
    let '(r1, w) := Math_random w in
    let x0 := r1 * width in
    let '(r2, w) := Math_random w in
    let y0 := r2 * height in
    let '(r3, w) := Math_random w in
    let r := 5 + r3 * 8 in
    let t := typeFor numNodes i in
    let '(node, w) := newNode i x0 y0 r t w in
    createNodes_loop numNodes width height k' (S i)
      (set_nodes (JS.push (nodes w) node) w)
  end.

Definition createNodes (numNodes : Z) (width height : Q) (w : World) : World :=
  createNodes_loop numNodes width height (Z.to_nat numNodes) 0 w.

(** The references an array filtered by type holds. *)
Definition ofType (t : NodeType) (ns : list Node) : list nat :=
  map oid (filter (fun n => NodeType_eqb (type n) t) ns).

(** The three wiring loops of [initializeConnections] have one shape:
    [for (i = 0; i < k; i++) this.connect(pool[floor(random() * pool.length)])].
    An index outside [pool] (impossible for draws in [0,1)) would connect
    to [undefined]; the model connects nothing then. *)
Fixpoint connectRandom (this : nat) (pool : list nat) (k : nat) (w : World)
  : World :=
  match k with
  | O => w
  | S k' =>
    let '(r, w) := Math_random w in
    let randomIndex := JS.floor (r * inject_Z (Z.of_nat (length pool))) in
    let w :=
      match JS.at_index pool randomIndex with
      | Some node => withNode this (connect node) w
      | None => w
      end in
    connectRandom this pool k' w
  end.

(** The number of iterations of [for (i = 0; i < n && i < len; i++)]. *)
Definition bounded (n : Z) (len : nat) : nat := Nat.min (Z.to_nat n) len.

Definition connectSource (processes : list nat) (w : World) (source : nat)
  : World :=
  let '(r, w) := Math_random w in
  let numConnections := (1 + JS.floor (r * 3))%Z in
  connectRandom source processes
    (bounded numConnections (length processes)) w.

Definition connectProcess (processes destinations : list nat) (w : World)
  (process : nat) : World :=
  let otherProcesses := filter (fun p => negb (Nat.eqb p process)) processes in
  let '(r, w) := Math_random w in
  let numProcessConnections := JS.floor (r * 2) in
  let w :=
    connectRandom process otherProcesses
      (bounded numProcessConnections (length otherProcesses)) w in
  let '(r, w) := Math_random w in
  let numDestConnections := (1 + JS.floor (r * 2))%Z in
  connectRandom process destinations
    (bounded numDestConnections (length destinations)) w.

(** [initializeConnections(nodes)]. *)
Definition initializeConnections (w : World) : World :=
  let sources := ofType Source (nodes w) in
  let processes := ofType Process (nodes w) in
  let destinations := ofType Destination (nodes w) in
  let w := fold_left (connectSource processes) sources w in
  fold_left (connectProcess processes destinations) processes w.

(** The keys of [removeUnconnectedNodes]'s [hasIncoming] map. *)
Definition hasIncoming (ns : list Node) : list nat := flat_map connections ns.

(** [otherNode.connections = otherNode.connections.filter(conn => conn !== node)]. *)
Definition strip (node : nat) (otherNode : Node) : Node :=
  set_connections
    (filter (fun conn => negb (Nat.eqb conn node)) (connections otherNode))
    otherNode.

(** [for (let i = k - 1; i >= 0; i--)] of [removeUnconnectedNodes]. *)
Fixpoint remove_loop (incoming : list nat) (k : nat) (ns : list Node)
  (hasRemovedNodes : bool) : list Node * bool :=
  match k with
  | O => (ns, hasRemovedNodes)
  | S i =>
    match nth_error ns i with
    | None => remove_loop incoming i ns hasRemovedNodes
    | Some node =>
      if negb (NodeType_eqb (type node) Source)
         && negb (JS.includes incoming (oid node))
      then remove_loop incoming i
             (JS.splice1 i (map (strip (oid node)) ns)) true
      else remove_loop incoming i ns hasRemovedNodes
    end
  end.

(** [removeUnconnectedNodes(nodes)]: the array after, and the result. *)
Definition removeUnconnectedNodes (ns : list Node) : list Node * bool :=
  remove_loop (hasIncoming ns) (length ns) ns false.

Definition MAX_ITERATIONS : nat := 5.

(** [optimizeNetwork]'s [while (iterations < MAX_ITERATIONS)], with
    [fuel = MAX_ITERATIONS - iterations]: the array and the value of
    [iterations] when the loop is left. *)
Fixpoint optimize_loop (fuel iterations : nat) (ns : list Node)
  : list Node * nat :=
  match fuel with
  | O => (ns, iterations)
  | S fuel' =>
    let '(ns', hasRemovedNodes) := removeUnconnectedNodes ns in
    if negb hasRemovedNodes then (ns', iterations)
    else optimize_loop fuel' (S iterations) ns'
  end.

Definition optimizeNetwork (ns : list Node) : list Node :=
  fst (optimize_loop MAX_ITERATIONS 0 ns).

(** The network [createNetwork] has built when it calls [optimizeNetwork]. *)
Definition wired (width height : Q) (w : World) : World :=
  let w := set_nodes [] w in
  let numNodes := calculateOptimalNodeCount width height in
  let w := createNodes numNodes width height w in
  initializeConnections w.

(** [createNetwork(width, height)]; the new array becomes [appState.nodes]. *)
Definition createNetwork (width height : Q) (w : World) : World :=
  let w := wired width height w in
  set_nodes (optimizeNetwork (nodes w)) w.

(** The value of [iterations] when [optimizeNetwork]'s loop is left, in
    [createNetwork(width, height)]. *)
Definition pruningPasses (width height : Q) (w : World) : nat :=
  snd (optimize_loop MAX_ITERATIONS 0 (nodes (wired width height w))).

(** ** The layout pass ([force-layout.js]) *)

(** [arr[i] = f(arr[i])]: a write through the array position. *)
Fixpoint modifyAt (i : nat) (f : Node -> Node) (ns : list Node) : list Node :=
  match ns, i with
  | [], _ => []
  | n :: r, O => f n :: r
  | n :: r, S j => n :: modifyAt j f r
  end.

Definition add_v (dvx dvy : Q) (n : Node) : Node :=
  set_vy (vy n + dvy) (set_vx (vx n + dvx) n).

Definition sub_v (dvx dvy : Q) (n : Node) : Node :=
  set_vy (vy n - dvy) (set_vx (vx n - dvx) n).

(** [enforceBoundaries(node, width, height)]. *)
Definition enforceBoundaries (width height : Q) (node : Node) : Node :=
  let margin := radius node * 2 in
  let node :=
    if JS.ltb (x node) margin
    then set_vx (Qabs (vx node) * (5 # 10)) (set_x margin node) else node in
  let node :=
    if JS.gtb (x node) (width - margin)
    then set_vx (- Qabs (vx node) * (5 # 10)) (set_x (width - margin) node)
    else node in
  let node :=
    if JS.ltb (y node) margin
    then set_vy (Qabs (vy node) * (5 # 10)) (set_y margin node) else node in
  if JS.gtb (y node) (height - margin)
  then set_vy (- Qabs (vy node) * (5 # 10)) (set_y (height - margin) node)
  else node.

(** [limitVelocities]'s callback. *)
Definition limitVelocity (config : Config) (node : Node) : Node :=
  let displacement := Math_sqrt (vx node * vx node + vy node * vy node) in
  let node :=
    if JS.gtb displacement (maxDisplacement config) then
      let scale := maxDisplacement config / displacement in
      set_vy (vy node * scale) (set_vx (vx node * scale) node)
    else node in
  set_vy (vy node * coolingFactor config)
    (set_vx (vx node * coolingFactor config) node).

Definition limitVelocities (config : Config) (ns : list Node) : list Node :=
  map (limitVelocity config) ns.

(** [applyContentRepulsion(node, contentRect, config)]. *)
Definition applyContentRepulsion (contentRect : Rect) (config : Config)
  (node : Node) : Node :=
  let e_left := r_left contentRect - contentPadding config in
  let e_right := r_right contentRect + contentPadding config in
  let e_top := r_top contentRect - contentPadding config in
  let e_bottom := r_bottom contentRect + contentPadding config in
  let isInXRange := JS.geb (x node) e_left && JS.leb (x node) e_right in
  let isInYRange := JS.geb (y node) e_top && JS.leb (y node) e_bottom in
  if isInXRange && isInYRange then
    let distToLeft := x node - e_left in
    let distToRight := e_right - x node in
    let distToTop := y node - e_top in
    let distToBottom := e_bottom - y node in
    let minDist :=
      Qmin distToLeft (Qmin distToRight (Qmin distToTop distToBottom)) in
    let force := contentRepulsionForce config * 3 in
    if JS.eqb minDist distToLeft then set_vx (vx node - force) node
    else if JS.eqb minDist distToRight then set_vx (vx node + force) node
    else if JS.eqb minDist distToTop then set_vy (vy node - force) node
    else if JS.eqb minDist distToBottom then set_vy (vy node + force) node
    else node
  else
    let closestX := Qmax e_left (Qmin (x node) e_right) in
    let closestY := Qmax e_top (Qmin (y node) e_bottom) in
    let dx := x node - closestX in
    let dy := y node - closestY in
    let distance := Math_sqrt (dx * dx + dy * dy) in
    let repulsionRadius :=
      Qmin 100 (Qmax 50 ((r_width contentRect + r_height contentRect) / 8)) in
    if JS.ltb distance repulsionRadius && JS.gtb distance 0 then
      let force :=
        contentRepulsionForce config * (1 - distance / repulsionRadius) in
      add_v (dx / distance * force) (dy / distance * force) node
    else node.

(** [applyEdgeForces(node, width, height, config)]. *)
Definition applyEdgeForces (width height : Q) (config : Config) (node : Node)
  : Node :=
  let scaledEdgeForce := edgeForce config * (1 + 1000 / Qmin width height) in
  let node :=
    if JS.ltb (x node) (edgePadding config) then
      let factor := (1 - x node / edgePadding config) ^ 2 in
      set_vx (vx node + scaledEdgeForce * factor) node
    else node in
  let node :=
    if JS.gtb (x node) (width - edgePadding config) then
      let factor := (1 - (width - x node) / edgePadding config) ^ 2 in
      set_vx (vx node - scaledEdgeForce * factor) node
    else node in
  let node :=
    if JS.ltb (y node) (edgePadding config) then
      let factor := (1 - y node / edgePadding config) ^ 2 in
      set_vy (vy node + scaledEdgeForce * factor) node
    else node in
  if JS.gtb (y node) (height - edgePadding config) then
    let factor := (1 - (height - y node) / edgePadding config) ^ 2 in
    set_vy (vy node - scaledEdgeForce * factor) node
  else node.

(** The body of [applyNodeRepulsion]'s loop for [nodes[a]] and [nodes[b]]. *)
Definition repel (config : Config) (a b : nat) (ns : list Node) : list Node :=
  match nth_error ns a, nth_error ns b with
  | Some nodeA, Some nodeB =>
    if isDragged nodeB then ns
    else
      let dx := x nodeB - x nodeA in
      let dy := y nodeB - y nodeA in
      let distance := JS.or_else (Math_sqrt (dx * dx + dy * dy)) 1 in
      if JS.ltb distance (minDistance config * 2) then
        let force := repulsionForce config / (distance * distance) in
        let forceX := dx / distance * force in
        let forceY := dy / distance * force in
        modifyAt b (add_v forceX forceY) (modifyAt a (sub_v forceX forceY) ns)
      else ns
  | _, _ => ns
  end.

(** [applyNodeRepulsion(nodes[a], nodes, a, config)]: [k] iterations from
    index [b]. *)
Fixpoint applyNodeRepulsion_loop (config : Config) (a : nat) (k b : nat)
  (ns : list Node) : list Node :=
  match k with
  | O => ns
  | S k' => applyNodeRepulsion_loop config a k' (S b) (repel config a b ns)
  end.

Definition applyNodeRepulsion (config : Config) (a : nat) (ns : list Node)
  : list Node :=
  applyNodeRepulsion_loop config a (length ns - S a) (S a) ns.

(** The inner callback of [applyConnectionAttractions] for [nodes[a]] and
    its connection [connected].  The array is the store: a connection to a
    node that is not in it has no object to read [x], [y] and [isDragged]
    from, and the model then applies no force, where the source writes
    through the reference.  The arrays of a session hold the targets of
    all their connections. *)
Definition attract (config : Config) (a : nat) (ns : list Node)
  (connected : nat) : list Node :=
  match nth_error ns a, getNode connected ns with
  | Some node, Some c =>
    if isDragged c then ns
    else
      let dx := x c - x node in
      let dy := y c - y node in
      let distance := JS.or_else (Math_sqrt (dx * dx + dy * dy)) 1 in
      let force := distance * attractionForce config in
      let forceX := dx / distance * force in
      let forceY := dy / distance * force in
      modifyNode connected (sub_v forceX forceY)
        (modifyAt a (add_v forceX forceY) ns)
  | _, _ => ns
  end.

Definition attractAll (config : Config) (ns : list Node) (a : nat)
  : list Node :=
  match nth_error ns a with
  | None => ns
  | Some node =>
    if isDragged node then ns
    else fold_left (attract config a) (connections node) ns
  end.

(** [applyConnectionAttractions(nodes, config)]. *)
Definition applyConnectionAttractions (config : Config) (ns : list Node)
  : list Node :=
  fold_left (attractAll config) (seq 0 (length ns)) ns.

Definition forcesOn (width height : Q) (contentRect : Rect) (config : Config)
  (ns : list Node) (a : nat) : list Node :=
  match nth_error ns a with
  | None => ns
  | Some nodeA =>
    if isDragged nodeA then ns
    else
      let ns := modifyAt a (applyContentRepulsion contentRect config) ns in
      let ns := modifyAt a (applyEdgeForces width height config) ns in
      applyNodeRepulsion config a ns
  end.

(** [applyForces(nodes, centerX, centerY, width, height, contentRect, config)]
    (the two centre arguments are not used by it). *)
Definition applyForces (width height : Q) (contentRect : Rect)
  (config : Config) (ns : list Node) : list Node :=
  let ns :=
    fold_left (forcesOn width height contentRect config)
      (seq 0 (length ns)) ns in
  applyConnectionAttractions config ns.

Definition layoutConfig (width height strength : Q) : Config :=
  mkConfig
    (if JS.gtb strength (5 # 10) then 2 else 1)
    (5000 * strength)
    ((4 # 1000) * strength)
    (3 * strength)
    20
    (15 * strength)
    (9 # 10)
    (Qmin width height * (15 # 100))
    (Qmin width height * (1 # 100))
    (1 * strength).

(** The rectangle used when [contentRect] is falsy. *)
Definition defaultRect (width height : Q) : Rect :=
  let contentWidth := Qmin 600 (width * (8 # 10)) in
  let contentHeight := Qmin 400 (height * (6 # 10)) in
  mkRect (width / 2 - contentWidth / 2) (width / 2 + contentWidth / 2)
    (height / 2 - contentHeight / 2) (height / 2 + contentHeight / 2)
    contentWidth contentHeight.

(** [for (iteration = 0; iteration < config.iterations; iteration++)]. *)
Fixpoint simulate (width height : Q) (contentRect : Rect) (config : Config)
  (k : nat) (ns : list Node) : list Node :=
  match k with
  | O => ns
  | S k' =>
    simulate width height contentRect config k'
      (limitVelocities config
         (applyForces width height contentRect config ns))
  end.

(** The last callback of [applyForceLayout]: blending with the velocity
    [originalVelocities] holds for the node, then [enforceBoundaries]. *)
Definition blend (originalVelocities : list (nat * (Q * Q))) (width height : Q)
  (node : Node) : Node :=
  let node :=
    match find (fun e => Nat.eqb (fst e) (oid node)) originalVelocities with
    | Some (_, (ovx, ovy)) =>
      let blendFactor := 7 # 10 in
      set_vy (vy node * blendFactor + ovy * (1 - blendFactor))
        (set_vx (vx node * blendFactor + ovx * (1 - blendFactor)) node)
    | None => node
    end in
  enforceBoundaries width height node.

(** [applyForceLayout(nodes, width, height, contentRect, strength)]. *)
Definition applyForceLayout (ns : list Node) (width height : Q)
  (contentRect : option Rect) (strength : Q) : list Node :=
  if JS.leb strength 0 then ns
  else
    let config := layoutConfig width height strength in
    let originalVelocities := map (fun n => (oid n, (vx n, vy n))) ns in
    let ns := map (fun n => set_vy 0 (set_vx 0 n)) ns in
    let contentRect :=
      match contentRect with
      | Some r => r
      | None => defaultRect width height
      end in
    let ns := simulate width height contentRect config (iterations config) ns in
    map (blend originalVelocities width height) ns.

(** [updatePositions]'s callback. *)
Definition updatePosition (width height animationSpeed : Q) (node : Node)
  : Node :=
  if isDragged node then node
  else
    let node := set_x (x node + vx node * animationSpeed) node in
    let node := set_y (y node + vy node * animationSpeed) node in
    let padding := radius node * 2 in
    if JS.ltb (x node) padding || JS.gtb (x node) (width - padding)
       || JS.ltb (y node) padding || JS.gtb (y node) (height - padding)
    then
      let node :=
        if JS.ltb (x node) padding
        then set_vx (Qabs (vx node) * (5 # 10)) (set_x padding node)
        else node in
      let node :=
        if JS.gtb (x node) (width - padding)
        then set_vx (- Qabs (vx node) * (5 # 10))
               (set_x (width - padding) node)
        else node in
      let node :=
        if JS.ltb (y node) padding
        then set_vy (Qabs (vy node) * (5 # 10)) (set_y padding node)
        else node in
      if JS.gtb (y node) (height - padding)
      then set_vy (- Qabs (vy node) * (5 # 10))
             (set_y (height - padding) node)
      else node
    else node.

(** [updatePositions(nodes, width, height, animationSpeed)]. *)
Definition updatePositions (ns : list Node) (width height animationSpeed : Q)
  : list Node :=
  map (updatePosition width height animationSpeed) ns.

(** ** Pointer handlers ([input-manager.js]) *)

(** The hit test shared by [checkNodeSelection] and the hover loop. *)
Definition hit (px py : Q) (node : Node) : bool :=
  let dx := px - x node in
  let dy := py - y node in
  let distance := Math_sqrt (dx * dx + dy * dy) in
  JS.leb distance (radius node * (15 # 10)).

(** [checkNodeSelection(x, y, appState)]: the loop stops at the first hit. *)
Definition checkNodeSelection (px py : Q) (w : World) : World :=
  match find (hit px py) (nodes w) with
  | Some node =>
    set_drag true (Some (oid node)) (px - x node) (py - y node)
      (withNode (oid node) (set_isDragged true) w)
  | None => w
  end.

(** The move of the selected node to the pointer, kept inside the canvas. *)
Definition dragTo (mouseX mouseY : Q) (w : World) (node : Node) : Node :=
  let node := set_x (mouseX - offsetX w) node in
  let node := set_y (mouseY - offsetY w) node in
  let node :=
    set_x (Qmax (radius node) (Qmin (canvasWidth w - radius node) (x node)))
      node in
  set_y (Qmax (radius node) (Qmin (canvasHeight w - radius node) (y node)))
    node.

Definition dragSelected (mouseX mouseY : Q) (w : World) : World :=
  match selectedNode w with
  | Some sel => withNode sel (dragTo mouseX mouseY w) w
  | None => w
  end.

Definition handleMouseDown (mouseX mouseY : Q) (w : World) : World :=
  checkNodeSelection mouseX mouseY w.

Definition handleMouseMove (mouseX mouseY : Q) (w : World) : World :=
  let w := set_nodes (map (set_isHovered false) (nodes w)) w in
  let w :=
    if negb (isDragging w) then
      match find (hit mouseX mouseY) (nodes w) with
      | Some node => withNode (oid node) (set_isHovered true) w
      | None => w
      end
    else w in
  if isDragging w then dragSelected mouseX mouseY w else w.

(** [handleMouseUp] and [handleTouchEnd] have the same body. *)
Definition handleMouseUp (w : World) : World :=
  let w :=
    match selectedNode w with
    | Some sel => withNode sel (set_isDragged false) w
    | None => w
    end in
  set_drag false None (offsetX w) (offsetY w) w.

Definition handleTouchStart (touches : list (Q * Q)) (w : World) : World :=
  match touches with
  | [(mouseX, mouseY)] => checkNodeSelection mouseX mouseY w
  | _ => w
  end.

Definition handleTouchMove (touches : list (Q * Q)) (w : World) : World :=
  match touches with
  | [(mouseX, mouseY)] =>
    if isDragging w then dragSelected mouseX mouseY w else w
  | _ => w
  end.

Definition handleTouchEnd (w : World) : World := handleMouseUp w.

(** ** The frame callback ([main.js], [canvas.js]) *)

Definition frameInterval : Q := 1000 / 60.
Definition forceLayoutInterval : Q := 5000.
Definition animationSpeed : Q := 5 # 100.

(** The world before [initApp]. *)
Definition boot : World := mkWorld [] [] 0 0 false None 0 0 0 0 0 0.

Definition layout (contentRect : option Rect) (strength : Q) (w : World)
  : World :=
  set_nodes
    (applyForceLayout (nodes w) (canvasWidth w) (canvasHeight w) contentRect
       strength) w.

(** [initApp]: [cw] and [ch] are the canvas size [initCanvas] sets, and
    [contentRect] is what [updateContentRect] leaves in [appState]. *)
Definition initApp (cw ch : Q) (contentRect : option Rect) : World :=
  let w := set_canvas cw ch boot in
  let w := createNetwork cw ch w in
  layout contentRect (15 # 10) w.

(** The resize listener. *)
Definition resize (cw ch : Q) (contentRect : option Rect) (w : World) : World :=
  layout contentRect (15 # 10) (set_canvas cw ch w).

(** The velocity dampening of [renderNodes]. *)
Definition dampen (node : Node) : Node :=
  if negb (isDragged node)
  then set_vy (vy node * (999 # 1000)) (set_vx (vx node * (999 # 1000)) node)
  else node.

(** [renderNodes(ctx, time, deltaTime)], without the drawing. *)
Definition renderNodes (time deltaTime : Q) (contentRect : option Rect)
  (w : World) : World :=
  let w :=
    if JS.gtb (time - lastForceLayoutTime w) forceLayoutInterval
    then layout contentRect (5 # 10) (set_lastForceLayoutTime time w)
    else w in
  let frameAdjustedSpeed := animationSpeed * (deltaTime / (16667 # 1000)) in
  let w :=
    set_nodes
      (updatePositions (nodes w) (canvasWidth w) (canvasHeight w)
         frameAdjustedSpeed) w in
  let w := set_nodes (map dampen (nodes w)) w in
  fold_left (fun w i => update i time deltaTime w) (map oid (nodes w)) w.

(** [animate(timestamp)] of [startAnimation]. *)
Definition animate (timestamp : Q) (contentRect : option Rect) (w : World)
  : World :=
  let deltaTime := timestamp - JS.or_else (lastFrameTime w) timestamp in
  let w := set_lastFrameTime timestamp w in
  if JS.geb deltaTime frameInterval
  then renderNodes timestamp deltaTime contentRect w
  else w.

(** What the page can do to the running program. *)
Inductive Event :=
| Frame (timestamp : Q) (contentRect : option Rect)
| Resize (cw ch : Q) (contentRect : option Rect)
| MouseDown (mouseX mouseY : Q)
| MouseMove (mouseX mouseY : Q)
| MouseUp
| TouchStart (touches : list (Q * Q))
| TouchMove (touches : list (Q * Q))
| TouchEnd.

Definition handle (e : Event) (w : World) : World :=
  match e with
  | Frame timestamp contentRect => animate timestamp contentRect w
  | Resize cw ch contentRect => resize cw ch contentRect w
  | MouseDown mouseX mouseY => handleMouseDown mouseX mouseY w
  | MouseMove mouseX mouseY => handleMouseMove mouseX mouseY w
  | MouseUp => handleMouseUp w
  | TouchStart touches => handleTouchStart touches w
  | TouchMove touches => handleTouchMove touches w
  | TouchEnd => handleTouchEnd w
  end.

(** The states of a session: [initApp], then any sequence of events. *)
Inductive reachable : World -> Prop :=
| reach_init cw ch contentRect : reachable (initApp cw ch contentRect)
| reach_step e w : reachable w -> reachable (handle e w).

Definition run (es : list Event) (w : World) : World :=
  fold_left (fun w e => handle e w) es w.

End Program.

(** ** The older copy of the layout pass

    The repository holds a second, older [force-layout.js] (no mobile fixes,
    no [enforceBoundaries]); [main.js] imports the one modelled above.  The
    older [limitVelocities] and [applyConnectionAttractions] are the same
    functions and are shared here. *)

Module Legacy.

Section Layout.

Variable Math_sqrt : Q -> Q.

Definition applyContentRepulsion (contentRect : Rect) (config : Config)
  (node : Node) : Node :=
  let e_left := r_left contentRect - contentPadding config in
  let e_right := r_right contentRect + contentPadding config in
  let e_top := r_top contentRect - contentPadding config in
  let e_bottom := r_bottom contentRect + contentPadding config in
  let isInXRange := JS.geb (x node) e_left && JS.leb (x node) e_right in
  let isInYRange := JS.geb (y node) e_top && JS.leb (y node) e_bottom in
  if isInXRange && isInYRange then
    let distToLeft := x node - e_left in
    let distToRight := e_right - x node in
    let distToTop := y node - e_top in
    let distToBottom := e_bottom - y node in
    let minDist :=
      Qmin distToLeft (Qmin distToRight (Qmin distToTop distToBottom)) in
    let force := contentRepulsionForce config * 2 in
    if JS.eqb minDist distToLeft then set_vx (vx node - force) node
    else if JS.eqb minDist distToRight then set_vx (vx node + force) node
    else if JS.eqb minDist distToTop then set_vy (vy node - force) node
    else if JS.eqb minDist distToBottom then set_vy (vy node + force) node
    else node
  else
    let closestX := Qmax e_left (Qmin (x node) e_right) in
    let closestY := Qmax e_top (Qmin (y node) e_bottom) in
    let dx := x node - closestX in
    let dy := y node - closestY in
    let distance := Math_sqrt (dx * dx + dy * dy) in
    let repulsionRadius := 100 in
    if JS.ltb distance repulsionRadius && JS.gtb distance 0 then
      let force :=
        contentRepulsionForce config * (1 - distance / repulsionRadius) in
      add_v (dx / distance * force) (dy / distance * force) node
    else node.

Definition applyEdgeForces (width height : Q) (config : Config) (node : Node)
  : Node :=
  let node :=
    if JS.ltb (x node) (edgePadding config)
    then set_vx (vx node + edgeForce config * (1 - x node / edgePadding config))
           node
    else node in
  let node :=
    if JS.gtb (x node) (width - edgePadding config)
    then set_vx
           (vx node
            - edgeForce config * (1 - (width - x node) / edgePadding config))
           node
    else node in
  let node :=
    if JS.ltb (y node) (edgePadding config)
    then set_vy (vy node + edgeForce config * (1 - y node / edgePadding config))
           node
    else node in
  if JS.gtb (y node) (height - edgePadding config)
  then set_vy
         (vy node
          - edgeForce config * (1 - (height - y node) / edgePadding config))
         node
  else node.

Definition repel (config : Config) (a b : nat) (ns : list Node) : list Node :=
  match nth_error ns a, nth_error ns b with
  | Some nodeA, Some nodeB =>
    if isDragged nodeB then ns
    else
      let dx := x nodeB - x nodeA in
      let dy := y nodeB - y nodeA in
      let distance := JS.or_else (Math_sqrt (dx * dx + dy * dy)) 1 in
      if JS.ltb distance (minDistance config * 3) then
        let force := repulsionForce config / (distance * distance) in
        let forceX := dx / distance * force in
        let forceY := dy / distance * force in
        modifyAt b (add_v forceX forceY) (modifyAt a (sub_v forceX forceY) ns)
      else ns
  | _, _ => ns
  end.

Fixpoint applyNodeRepulsion_loop (config : Config) (a : nat) (k b : nat)
  (ns : list Node) : list Node :=
  match k with
  | O => ns
  | S k' => applyNodeRepulsion_loop config a k' (S b) (repel config a b ns)
  end.

Definition applyNodeRepulsion (config : Config) (a : nat) (ns : list Node)
  : list Node :=
  applyNodeRepulsion_loop config a (length ns - S a) (S a) ns.

Definition forcesOn (width height : Q) (contentRect : Rect) (config : Config)
  (ns : list Node) (a : nat) : list Node :=
  match nth_error ns a with
  | None => ns
  | Some nodeA =>
    if isDragged nodeA then ns
    else
      let ns := modifyAt a (applyContentRepulsion contentRect config) ns in
      let ns := modifyAt a (applyEdgeForces width height config) ns in
      applyNodeRepulsion config a ns
  end.

Definition applyForces (width height : Q) (contentRect : Rect)
  (config : Config) (ns : list Node) : list Node :=
  let ns :=
    fold_left (forcesOn width height contentRect config)
      (seq 0 (length ns)) ns in
  applyConnectionAttractions Math_sqrt config ns.

Definition layoutConfig (strength : Q) : Config :=
  mkConfig
    (if JS.gtb strength (5 # 10) then 1 else 1)
    (5000 * strength)
    ((4 # 1000) * strength)
    (3 * strength)
    20
    (15 * strength)
    (9 # 10)
    300
    100
    (20 * strength).

(** The default rectangle has no [width] and [height]; nothing reads them. *)
Definition defaultRect (width height : Q) : Rect :=
  mkRect (width / 2 - 300) (width / 2 + 300)
    (height / 2 - 200) (height / 2 + 200) 0 0.

Fixpoint simulate (width height : Q) (contentRect : Rect) (config : Config)
  (k : nat) (ns : list Node) : list Node :=
  match k with
  | O => ns
  | S k' =>
    simulate width height contentRect config k'
      (limitVelocities Math_sqrt config
         (applyForces width height contentRect config ns))
  end.

Definition blend (originalVelocities : list (nat * (Q * Q))) (node : Node)
  : Node :=
  match find (fun e => Nat.eqb (fst e) (oid node)) originalVelocities with
  | Some (_, (ovx, ovy)) =>
    let blendFactor := 7 # 10 in
    set_vy (vy node * blendFactor + ovy * (1 - blendFactor))
      (set_vx (vx node * blendFactor + ovx * (1 - blendFactor)) node)
  | None => node
  end.

(** The older [applyForceLayout]: no test of [strength] comes first. *)
Definition applyForceLayout (ns : list Node) (width height : Q)
  (contentRect : option Rect) (strength : Q) : list Node :=
  let config := layoutConfig strength in
  let originalVelocities := map (fun n => (oid n, (vx n, vy n))) ns in
  let ns := map (fun n => set_vy 0 (set_vx 0 n)) ns in
  let contentRect :=
    match contentRect with
    | Some r => r
    | None => defaultRect width height
    end in
  let ns := simulate width height contentRect config (iterations config) ns in
  map (blend originalVelocities) ns.

(** The older [updatePositions]: a plain clamp, no bounce. *)
Definition updatePosition (width height animationSpeed : Q) (node : Node)
  : Node :=
  if isDragged node then node
  else
    let node := set_x (x node + vx node * animationSpeed) node in
    let node := set_y (y node + vy node * animationSpeed) node in
    let padding := radius node * 2 in
    let node := set_x (Qmax padding (Qmin (width - padding) (x node))) node in
    set_y (Qmax padding (Qmin (height - padding) (y node))) node.

Definition updatePositions (ns : list Node) (width height animationSpeed : Q)
  : list Node :=
  map (updatePosition width height animationSpeed) ns.

End Layout.

End Legacy.

(** ** Concrete instances, for running the program *)

(** [Math.sqrt] to [k] binary digits after the point, rounded down; exact on
    the squares of such numbers. *)
Definition sqrt_bits (k : Z) (q : Q) : Q :=
  inject_Z (Z.sqrt (Qfloor (q * inject_Z (2 ^ (2 * k))))) / inject_Z (2 ^ k).

(** A sequence of draws given by its first elements, [0] afterwards. *)
Definition draws_of (l : list Q) (n : nat) : Q := nth n l 0.

(** ** Properties stated by the specification *)

(** Boundary containment of one node, as a proposition and as a test. *)
Definition within_bounds (width height : Q) (n : Node) : Prop :=
  (radius n * 2 <= x n <= width - radius n * 2) /\
  (radius n * 2 <= y n <= height - radius n * 2).

Definition within_boundsb (width height : Q) (n : Node) : bool :=
  JS.leb (radius n * 2) (x n) && JS.leb (x n) (width - radius n * 2)
  && JS.leb (radius n * 2) (y n) && JS.leb (y n) (height - radius n * 2).

(** A pulse in flight has not reached its target. *)
Definition fresh (p : Pulse) : Prop := 0 <= progress p < 1.

(** What holds of every node of a session.  [kindOf] is the type given to
    the node created with a given identity.  [ex i k] exempts the pulse at
    index [k] of node [i] from [fresh]: inside [updatePulses]'s loop the
    pulse that just arrived is still in the array. *)
Record NodeOK (kindOf : nat -> NodeType) (ex : nat -> nat -> Prop) (n : Node)
  : Prop := mkNodeOK {
  ok_type : type n = kindOf (oid n);
  ok_nodup : NoDup (connections n);
  ok_noself : ~ In (oid n) (connections n);
  ok_targets : forall c, In c (connections n) -> kindOf c <> Source;
  ok_pulses :
    forall p, In p (pulses n) -> 0 < speed p /\ In (target p) (connections n);
  ok_fresh :
    forall k p, nth_error (pulses n) k = Some p -> ex (oid n) k \/ fresh p;
  ok_idle : kindOf (oid n) = Source -> processingPulses n = 0%Z;
  ok_counter : (0 <= processingPulses n)%Z;
  ok_opacity : 3 # 10 <= opacity n <= 1;
  ok_targetOpacity : targetOpacity n = 3 # 10 \/ targetOpacity n = 1
}.

Definition no_exemption (i k : nat) : Prop := False.

(** Only the pulse at index [j] of node [i] is exempted. *)
Definition exempt (i j : nat) (i' k : nat) : Prop := i' = i /\ k = j.

Definition WorldOK (kindOf : nat -> NodeType) (ex : nat -> nat -> Prop)
  (w : World) : Prop :=
  NoDup (map oid (nodes w))
  /\ Forall (NodeOK kindOf ex) (nodes w)
  /\ (length (pulsePool w) <= MAX_PULSE_COUNT)%nat.

(** A pulse that stays in flight after being advanced. *)
Definition alive (p : Pulse) : bool := JS.ltb (progress p) 1.

(** A node of a network under construction: no pulse exists yet. *)
Definition Built (kindOf : nat -> NodeType) (n : Node) : Prop :=
  NodeOK kindOf no_exemption n /\ pulses n = [].

(** A node that is not a source and that no node of [ns] connects to. *)
Definition orphan (ns : list Node) (n : Node) : bool :=
  negb (NodeType_eqb (type n) Source)
  && negb (JS.includes (hasIncoming ns) (oid n)).

(** Two nodes that differ in position, velocity, flags and timing only. *)
Definition sameSim (a b : Node) : Prop :=
  oid a = oid b /\ type a = type b /\ connections a = connections b
  /\ pulses a = pulses b /\ processingPulses a = processingPulses b
  /\ opacity a = opacity b /\ targetOpacity a = targetOpacity b.

(** The fields the layout pass reads and never writes. *)
Definition sameBody (a b : Node) : Prop :=
  oid b = oid a /\ x b = x a /\ y b = y a /\ radius b = radius a
  /\ isDragged b = isDragged a /\ connections b = connections a.

(** A node that, if dragged, has no velocity. *)
Definition resting (n : Node) : Prop :=
  isDragged n = true -> vx n == 0 /\ vy n == 0.

(** The node at index [a], if any, is not dragged. *)
Definition free_at (ns : list Node) (a : nat) : Prop :=
  forall n, nth_error ns a = Some n -> isDragged n = false.

(** A step of the layout pass gives no velocity to a resting dragged node. *)
Definition quiet (a b : Node) : Prop := sameBody a b /\ (resting a -> resting b).

(** Functions on nodes, arrays and worlds that keep the simulation fields. *)
Definition simNode (f : Node -> Node) : Prop := forall n, sameSim n (f n).

Definition simList (F : list Node -> list Node) : Prop :=
  forall ns, Forall2 sameSim ns (F ns).

Definition simWorld (F : World -> World) : Prop :=
  forall w,
    Forall2 sameSim (nodes w) (nodes (F w)) /\ pulsePool (F w) = pulsePool w.

(** A network under construction: distinct objects, all of them [Built]. *)
Definition BuiltNet (kindOf : nat -> NodeType) (ns : list Node) : Prop :=
  NoDup (map oid ns) /\ Forall (Built kindOf) ns.

(** ** Further properties of the program *)

(** The sums of the velocities of an array, by component. *)
Definition total_vx (ns : list Node) : Q :=
  fold_right (fun n acc => vx n + acc) 0 ns.

Definition total_vy (ns : list Node) : Q :=
  fold_right (fun n acc => vy n + acc) 0 ns.

(** Every connection of the array is to a node of the array. *)
Definition closed (ns : list Node) : Prop :=
  forall n c, In n ns -> In c (connections n) -> In c (map oid ns).

(** The node of identity [c] in the array has type [t]. *)
Definition targetOf (ns : list Node) (c : nat) (t : NodeType) : Prop :=
  exists m, In m ns /\ oid m = c /\ type m = t.

(** The wiring of a node of the array [ns]. *)
Definition wellWired (ns : list Node) (n : Node) : Prop :=
  (length (connections n) <= 3)%nat
  /\ match type n with
     | Source =>
         connections n <> []
         /\ forall c, In c (connections n) -> targetOf ns c Process
     | Process =>
         (exists d, In d (connections n) /\ targetOf ns d Destination)
         /\ forall c, In c (connections n) ->
              targetOf ns c Process \/ targetOf ns c Destination
     | Destination => connections n = []
     end.

(** What [createNodes] gives a node. *)
Definition created (width height : Q) (n : Node) : Prop :=
  0 <= x n <= width /\ 0 <= y n <= height /\ 5 <= radius n < 13
  /\ pulses n = [] /\ processingPulses n = 0%Z
  /\ vx n = 0 /\ vy n = 0 /\ isDragged n = false /\ isHovered n = false
  /\ lastPulseTime n = 0
  /\ 0 <= activationTime n < 5000 /\ 1000 <= pulseInterval n < 3000.

(** What a wiring loop does to the node [this] (and to no other). *)
Definition grown (this : nat) (pool : list nat) (k : nat) (a b : Node) : Prop :=
  oid b = oid a /\ type b = type a
  /\ (oid a <> this -> b = a)
  /\ (exists l, connections b = connections a ++ l
                /\ incl l pool /\ (length l <= k)%nat)
  /\ (oid a = this -> (0 < k)%nat -> pool <> [] ->
      exists t, In t pool /\ In t (connections b)).

(** A step that touches only the node [i]. *)
Definition stepped (i : nat) (P : Node -> Node -> Prop) (a b : Node) : Prop :=
  oid b = oid a /\ (oid a <> i -> b = a) /\ (oid a = i -> P a b).

(** What [initializeConnections] does to a source and to a process. *)
Definition sourceWired (processes : list nat) (a b : Node) : Prop :=
  type b = type a
  /\ exists l,
       connections b = connections a ++ l /\ incl l processes
       /\ (length l <= 3)%nat
       /\ (processes <> [] -> exists t, In t processes /\ In t (connections b)).

Definition processWired (processes destinations : list nat) (a b : Node)
  : Prop :=
  type b = type a
  /\ exists l1 l2,
       connections b = connections a ++ l1 ++ l2
       /\ incl l1 (filter (fun p => negb (Nat.eqb p (oid a))) processes)
       /\ (length l1 <= 1)%nat
       /\ incl l2 destinations /\ (length l2 <= 2)%nat
       /\ (destinations <> [] ->
           exists t, In t destinations /\ In t (connections b)).

(** What [initializeConnections] does to a node, by its type. *)
Definition wiredFrom (processes destinations : list nat) (a c : Node) : Prop :=
  oid c = oid a /\ type c = type a
  /\ match type a with
     | Source => sourceWired processes a c
     | Process => processWired processes destinations a c
     | Destination => c = a
     end.

(** The wiring of a node, with [kindOf] the type of the node of a given
    identity. *)
Definition wellWiredK (kindOf : nat -> NodeType) (n : Node) : Prop :=
  (length (connections n) <= 3)%nat
  /\ match type n with
     | Source =>
         connections n <> []
         /\ forall c, In c (connections n) -> kindOf c = Process
     | Process =>
         (exists d, In d (connections n) /\ kindOf d = Destination)
         /\ forall c, In c (connections n) ->
              kindOf c = Process \/ kindOf c = Destination
     | Destination => connections n = []
     end.

(** The fields no code writes once the network is built. *)
Definition frame (n : Node)
  : nat * NodeType * list nat * Q * Q * Q :=
  (oid n, type n, connections n, radius n, activationTime n, pulseInterval n).

(** Where a node is and how it moves: the fields [Node.update] never writes. *)
Definition place (n : Node) : nat * (Q * Q) * Q * (Q * Q) * bool * bool :=
  (oid n, (x n, y n), radius n, (vx n, vy n), isDragged n, isHovered n).

(** A node without its connections. *)
Definition unwired (n : Node) : Node := set_connections [] n.

(** Frames that [animate] does not render: each comes less than
    [frameInterval] after the one before. *)
Fixpoint skipped (last : Q) (ts : list Q) : Prop :=
  match ts with
  | [] => True
  | t :: ts' => t - JS.or_else last t < frameInterval /\ skipped t ts'
  end.

(** A node after the opacity part of [update] at each of [times]. *)
Definition relaxed (times : list Q) (n : Node) : Node :=
  fold_left (fun n time => relax time n) times n.

(** A node and the pulse objects in its [pulses] array. *)
Definition holding (n : Node) : nat * list Pulse := (oid n, pulses n).

(** How many of the pulses [ps] are the object [k]. *)
Definition held (k : nat) (ps : list Pulse) : nat :=
  count_occ Nat.eq_dec (map pid ps) k.

(** The pulse objects the [pulses] arrays of [ns] refer to. *)
Definition in_flight (ns : list Node) : list nat :=
  flat_map (fun n => map pid (pulses n)) ns.

(** The pulse objects the program refers to: those in the pool, then those
    in the [pulses] array of each node. *)
Definition pulse_objects (w : World) : list nat :=
  map pid (pulsePool w) ++ in_flight (nodes w).

(** How many times the program refers to the pulse object [k]. *)
Definition references (k : nat) (w : World) : nat :=
  count_occ Nat.eq_dec (pulse_objects w) k.

(** No pulse object is referred to twice, and none that the object literal
    of [createPulse] has not allocated yet. *)
Definition ledger (w : World) : Prop :=
  NoDup (map oid (nodes w))
  /\ forall k,
       (references k w <= if (k <? nextPulse w)%nat then 1 else 0)%nat.

(** The node [i] holds the pulse object [q] at index [j] of its [pulses]. *)
Definition slot (i j q : nat) (ns : list Node) : Prop :=
  exists n p,
    getNode i ns = Some n /\ nth_error (pulses n) j = Some p /\ pid p = q.

(** A step of the force accumulation that leaves a dragged node as it is. *)
Definition spared (a b : Node) : Prop :=
  sameBody a b /\ (isDragged a = true -> b = a).

(** ** Example states *)

(** A free node drifting in the middle of an 800x600 canvas. *)
Definition drifting : Node :=
  mkNode 0 400 300 10 Process [] [] 0 true 1 1 0 0 1000 false false 10 (-5).

(** A node being dragged in the middle of an 800x600 canvas, still carrying
    the velocity it had when it was pressed. *)
Definition dragged_mid : Node :=
  mkNode 0 400 300 10 Process [] [] 0 true 1 1 0 0 1000 false true 10 (-5).

(** The same node dragged against the left edge: [handleMouseMove] keeps it
    at [x = radius]. *)
Definition dragged_left : Node :=
  mkNode 0 10 300 10 Process [] [] 0 true 1 1 0 0 1000 false true 10 (-5).

(** Position and velocity of the nodes of an array, in lowest terms. *)
Definition kinematics (ns : list Node) : list (bool * (Q * Q) * (Q * Q)) :=
  map (fun n => (isDragged n, (Qred (x n), Qred (y n)),
                 (Qred (vx n), Qred (vy n)))) ns.

(** Every draw is 3/4. *)
Definition steady_draws : nat -> Q := fun _ => 3 # 4.

(** A session on an 800x600 canvas with [steady_draws]: the network keeps
    sources 0-9, processes 31 and 32 and destination 47; the first frame
    only records its time stamp, the second renders 100 s later. *)
Definition session : World :=
  run steady_draws (sqrt_bits 20) [Frame 1 None; Frame 100001 None]
    (initApp steady_draws (sqrt_bits 20) 800 600 None).

(** A source whose pulse is about to reach a process that has a visible
    destination to forward to. *)
Definition arriving_world : World :=
  mkWorld
    [mkNode 0 100 100 10 Source [1%nat] [mkPulse 0 0 1 (99 # 100) (2 # 100)]
       0 true 1 1 0 0 1000 false false 0 0;
     mkNode 1 200 100 10 Process [2%nat] [] 0 true 1 1 0 0 1000 false false 0 0;
     mkNode 2 300 100 10 Destination [] [] 0 true 1 1 0 0 1000 false false 0 0]
    [] 1 0 false None 0 0 0 0 800 600.

(** Draws for an 800x600 canvas (50 nodes: sources 0-9, processes 10-39,
    destinations 40-49): six draws per node; every source connects once, to
    process 10; processes 11 to 15 each connect to the next process (the
    next process is at index [k] of the 29 other processes, and
    [floor(((2k+1)/58) * 29) = k]), the other processes to no process;
    every process connects once, to destination 40.  So 11 -> 12 -> 13 ->
    14 -> 15 -> 16 is a chain that nothing feeds. *)
Definition chain_draws : list Q :=
  let link (k : Z) := [1 # 2; (2 * k + 1) # 58; 0; 0] in
  let plain := [0; 0; 0] in
  repeat (3 # 4) 300
  ++ concat (repeat [0; 0] 10)
  ++ plain ++ link 1%Z ++ link 2%Z ++ link 3%Z ++ link 4%Z ++ link 5%Z
  ++ concat (repeat plain 24).

(** A process node with one unit of pending work, connected to a visible
    destination. *)
Definition sender_world : World :=
  mkWorld
    [mkNode 0 100 100 10 Process [1%nat] [] 1 true 1 1 0 0 1000 false false 0 0;
     mkNode 1 200 100 10 Destination [] [] 0 true 1 1 0 0 1000 false false 0 0]
    [] 0 0 false None 0 0 0 0 800 600.

(** Whether [sendRandomImpulse] on node [0] of [sender_world] emits, as a
    function of its first draw (the index and speed draws are [1/2]). *)
Definition emits (r1 : Q) : bool :=
  match
    getNode 0
      (nodes (sendRandomImpulse (draws_of [r1; 1 # 2; 1 # 2]) 0 sender_world))
  with
  | Some n => negb (Nat.eqb (length (pulses n)) 0)
  | None => false
  end.

(** Ten equally likely values of a draw: the midpoints of the tenths of [0,1). *)
Definition midpoints : list Q :=
  map (fun k => (Z.of_nat (2 * k + 1) # 20)) (seq 0 10).

(** A world in which node [0] was pressed at its centre, on an 800x600 canvas. *)
Definition pressed_world : World :=
  mkWorld
    [mkNode 0 400 300 10 Process [] [] 0 true 1 1 0 0 1000 false true 0 0]
    [] 0 0 true (Some 0%nat) 0 0 0 0 800 600.

(** A node with a large leftward velocity on a canvas 30 wide. *)
Definition narrow_canvas_node : Node :=
  mkNode 0 15 300 10 Process [] [] 0 true 1 1 0 0 1000 false false (-1000) 0.

(** A world with one free node moving left near the left edge. *)
Definition drifting_world : World :=
  mkWorld
    [mkNode 0 25 300 10 Process [] [] 0 true 1 1 0 0 1000 false false (-1000) 0]
    [] 0 0 false None 0 0 0 0 800 600.

(** A dragged node close to [drifting]. *)
Definition dragged_near : Node :=
  mkNode 1 405 300 10 Process [] [] 0 true 1 1 0 0 1000 false true 10 (-5).

(** * Proofs *)

(** ** Facts about the JavaScript helpers *)

Module JSFacts.

Lemma leb_le a b : JS.leb a b = true <-> a <= b.
Proof. apply Qle_bool_iff. Qed.

Lemma ltb_lt a b : JS.ltb a b = true <-> a < b.
Proof.
  unfold JS.ltb. rewrite negb_true_iff.
  destruct (Qle_bool b a) eqn:E.
  - apply Qle_bool_iff in E. split; [discriminate | intro H; lra].
  - split; [intros _ | reflexivity].
    destruct (Qlt_le_dec a b) as [H | H]; [exact H |].
    apply Qle_bool_iff in H. congruence.
Qed.

Lemma ltb_ge a b : JS.ltb a b = false <-> b <= a.
Proof.
  unfold JS.ltb. rewrite negb_false_iff. apply Qle_bool_iff.
Qed.

Lemma leb_gt a b : JS.leb a b = false <-> b < a.
Proof.
  rewrite <- ltb_lt. unfold JS.ltb, JS.leb.
  destruct (Qle_bool a b); simpl; split; congruence.
Qed.

Lemma gtb_gt a b : JS.gtb a b = true <-> b < a.
Proof. apply ltb_lt. Qed.

Lemma gtb_le a b : JS.gtb a b = false <-> a <= b.
Proof. apply ltb_ge. Qed.

Lemma geb_ge a b : JS.geb a b = true <-> b <= a.
Proof. apply leb_le. Qed.

Lemma geb_lt a b : JS.geb a b = false <-> a < b.
Proof. apply leb_gt. Qed.

Lemma includes_In arr v : JS.includes arr v = true <-> In v arr.
Proof.
  unfold JS.includes. rewrite existsb_exists. split.
  - intros [u [Hu E]]. apply Nat.eqb_eq in E. now subst.
  - intro H. exists v. split; [exact H | apply Nat.eqb_refl].
Qed.

Lemma includes_not_In arr v : JS.includes arr v = false <-> ~ In v arr.
Proof.
  rewrite <- includes_In. destruct (JS.includes arr v); split; congruence.
Qed.

Lemma pop_push {A} (arr : list A) v : JS.pop (JS.push arr v) = Some (v, arr).
Proof.
  unfold JS.pop, JS.push. rewrite rev_app_distr. simpl. now rewrite rev_involutive.
Qed.

Lemma pop_nil {A} (arr : list A) : JS.pop arr = None <-> arr = [].
Proof.
  unfold JS.pop. split.
  - destruct (rev arr) eqn:E; [| discriminate].
    intros _. rewrite <- (rev_involutive arr), E. reflexivity.
  - intros ->. reflexivity.
Qed.

Lemma pop_some {A} (arr : list A) v r :
  JS.pop arr = Some (v, r) <-> arr = r ++ [v].
Proof.
  unfold JS.pop. split.
  - destruct (rev arr) eqn:E; [discriminate |].
    intro H. injection H as -> <-.
    rewrite <- (rev_involutive arr), E. reflexivity.
  - intros ->. rewrite rev_app_distr. simpl. now rewrite rev_involutive.
Qed.

Lemma splice1_length {A} i (arr : list A) :
  (i < length arr)%nat -> length (JS.splice1 i arr) = (length arr - 1)%nat.
Proof.
  intro H. unfold JS.splice1.
  rewrite length_app, length_firstn, length_skipn. lia.
Qed.

Lemma In_splice1 {A} i (arr : list A) v : In v (JS.splice1 i arr) -> In v arr.
Proof.
  unfold JS.splice1. rewrite in_app_iff. intros [H | H].
  - rewrite <- (firstn_skipn i arr). apply in_or_app. now left.
  - rewrite <- (firstn_skipn (S i) arr). apply in_or_app. now right.
Qed.

End JSFacts.

Lemma within_boundsb_spec width height n :
  within_boundsb width height n = true <-> within_bounds width height n.
Proof.
  unfold within_boundsb, within_bounds.
  rewrite !andb_true_iff, !JSFacts.leb_le. tauto.
Qed.

(** Turns the outcome of a comparison of the program into an inequality. *)
Ltac js_prop :=
  repeat match goal with
  | H : JS.ltb _ _ = true |- _ => apply JSFacts.ltb_lt in H
  | H : JS.ltb _ _ = false |- _ => apply JSFacts.ltb_ge in H
  | H : JS.gtb _ _ = true |- _ => apply JSFacts.gtb_gt in H
  | H : JS.gtb _ _ = false |- _ => apply JSFacts.gtb_le in H
  | H : JS.leb _ _ = true |- _ => apply JSFacts.leb_le in H
  | H : JS.leb _ _ = false |- _ => apply JSFacts.leb_gt in H
  | H : JS.geb _ _ = true |- _ => apply JSFacts.geb_ge in H
  | H : JS.geb _ _ = false |- _ => apply JSFacts.geb_lt in H
  end.

(** Reduces the reads and writes of the world's fields, and nothing else. *)
Ltac wsimpl :=
  cbn [nodes pulsePool nextPulse drawn isDragging selectedNode offsetX offsetY
       lastFrameTime lastForceLayoutTime canvasWidth canvasHeight
       set_nodes set_pulsePool set_nextPulse set_drawn set_drag
       set_lastFrameTime set_lastForceLayoutTime set_canvas withNode
       Math_random fst snd].

Ltac wsimpl_in H :=
  cbn [nodes pulsePool nextPulse drawn isDragging selectedNode offsetX offsetY
       lastFrameTime lastForceLayoutTime canvasWidth canvasHeight
       set_nodes set_pulsePool set_nextPulse set_drawn set_drag
       set_lastFrameTime set_lastForceLayoutTime set_canvas withNode
       Math_random fst snd] in H.

(** *** The layout pass at strength zero *)

(** C7. Invoking the layout pass with [strength = 0] returns before the
    snapshot: the node array, hence every velocity and position, is the one
    passed in. *)
Theorem applyForceLayout_zero_strength :
  forall (Math_sqrt : Q -> Q) (ns : list Node) (width height : Q)
         (contentRect : option Rect),
    applyForceLayout Math_sqrt ns width height contentRect 0 = ns.
Proof.
  intros. unfold applyForceLayout. reflexivity.
Qed.

(** *** Position integration *)

Lemma updatePosition_radius width height s n :
  radius (updatePosition width height s n) = radius n.
Proof.
  unfold updatePosition.
  repeat match goal with
  | |- context [if ?c then _ else _] => destruct c
  end; reflexivity.
Qed.

Lemma updatePosition_isDragged width height s n :
  isDragged (updatePosition width height s n) = isDragged n.
Proof.
  unfold updatePosition.
  repeat match goal with
  | |- context [if ?c then _ else _] => destruct c eqn:?
  end; simpl; congruence.
Qed.

Lemma updatePosition_within_bounds width height s n :
  isDragged n = false ->
  radius n * 4 <= width -> radius n * 4 <= height ->
  within_bounds width height (updatePosition width height s n).
Proof.
  intros Hd Hw Hh. unfold within_bounds, updatePosition. rewrite Hd.
  cbv zeta. simpl.
  destruct (JS.ltb (x n + vx n * s) (radius n * 2)) eqn:E1;
    destruct (JS.gtb (x n + vx n * s) (width - radius n * 2)) eqn:E2;
    destruct (JS.ltb (y n + vy n * s) (radius n * 2)) eqn:E3;
    destruct (JS.gtb (y n + vy n * s) (height - radius n * 2)) eqn:E4;
    simpl;
    repeat match goal with
    | |- context [if ?c then _ else _] => destruct c eqn:?; simpl
    end;
    js_prop; simpl in *; lra.
Qed.

(** C3, as amended.  After [updatePositions], every node that is not being
    dragged lies within [[2r, width - 2r] x [2r, height - 2r]], whatever its
    velocity was, provided the canvas leaves room for that interval
    ([4r <= width] and [4r <= height]). *)
Theorem updatePositions_within_bounds :
  forall (ns : list Node) (width height animationSpeed : Q) (n : Node),
    In n (updatePositions ns width height animationSpeed) ->
    isDragged n = false ->
    radius n * 4 <= width -> radius n * 4 <= height ->
    within_bounds width height n.
Proof.
  intros ns width height s n Hin Hd Hw Hh.
  unfold updatePositions in Hin. apply in_map_iff in Hin.
  destruct Hin as [m [<- _]].
  rewrite updatePosition_isDragged in Hd.
  rewrite updatePosition_radius in Hw, Hh.
  now apply updatePosition_within_bounds.
Qed.

Lemma updatePositions_within_bounds_witness :
  within_bounds 800 600
    (updatePosition 800 600 (5 # 100)
       (mkNode 0 15 300 10 Process [] [] 0 true 1 1 0 0 1000 false false
          (-1000) 0)).
Proof.
  apply (@updatePositions_within_bounds
           [mkNode 0 15 300 10 Process [] [] 0 true 1 1 0 0 1000 false false
              (-1000) 0] 800 600 (5 # 100)).
  - simpl. left. reflexivity.
  - reflexivity.
  - vm_compute. discriminate.
  - vm_compute. discriminate.
Defined.

(** C3, counterexample.  Dragging node [0] to the left edge puts it at
    [x = radius], and [updatePositions] leaves a dragged node where it is;
    and on a canvas narrower than [4r] the two clamps cannot both hold. *)
Lemma updatePositions_bounds_counterexample :
  forallb (within_boundsb 800 600)
    (updatePositions
       (nodes (handleMouseMove (sqrt_bits 20) 0 300 pressed_world))
       800 600 (5 # 100)) = false
  /\ forallb (within_boundsb 30 600)
       (updatePositions [narrow_canvas_node] 30 600 (5 # 100)) = false.
Proof. split; vm_compute; reflexivity. Qed.

(** ** Reading and writing nodes through references *)

Section Store.

Variable i : nat.
Variable f : Node -> Node.
Hypothesis f_oid : forall n, oid (f n) = oid n.

Lemma getNode_Some j ns n : getNode j ns = Some n -> In n ns /\ oid n = j.
Proof.
  unfold getNode. intro H. apply find_some in H.
  destruct H as [H E]. apply Nat.eqb_eq in E. now split.
Qed.

Lemma getNode_modifyNode_same ns :
  getNode i (modifyNode i f ns) = option_map f (getNode i ns).
Proof.
  unfold getNode, modifyNode. induction ns as [| n ns IH]; simpl.
  - reflexivity.
  - destruct (Nat.eqb (oid n) i) eqn:E.
    + rewrite f_oid, E. reflexivity.
    + rewrite E. exact IH.
Qed.

Lemma getNode_modifyNode_other j ns :
  j <> i -> getNode j (modifyNode i f ns) = getNode j ns.
Proof.
  intro Hj. unfold getNode, modifyNode. induction ns as [| n ns IH]; simpl.
  - reflexivity.
  - destruct (Nat.eqb (oid n) i) eqn:E.
    + apply Nat.eqb_eq in E. rewrite f_oid.
      destruct (Nat.eqb (oid n) j) eqn:E'.
      * apply Nat.eqb_eq in E'. congruence.
      * exact IH.
    + destruct (Nat.eqb (oid n) j); [reflexivity | exact IH].
Qed.

Lemma map_oid_modifyNode ns : map oid (modifyNode i f ns) = map oid ns.
Proof.
  unfold modifyNode. rewrite map_map. apply map_ext.
  intro n. destruct (Nat.eqb (oid n) i); [apply f_oid | reflexivity].
Qed.

End Store.

Lemma Forall_modifyNode (P : Node -> Prop) i f ns :
  Forall P ns ->
  (forall n, In n ns -> oid n = i -> P n -> P (f n)) ->
  Forall P (modifyNode i f ns).
Proof.
  intros H Hf. unfold modifyNode. rewrite Forall_forall in *.
  intros m Hm. apply in_map_iff in Hm. destruct Hm as [n [<- Hn]].
  destruct (Nat.eqb (oid n) i) eqn:E.
  - apply Nat.eqb_eq in E. now apply Hf; [| | apply H].
  - now apply H.
Qed.

Lemma modifyNode_modifyNode i f g ns :
  (forall n, oid (f n) = oid n) ->
  modifyNode i g (modifyNode i f ns) = modifyNode i (fun n => g (f n)) ns.
Proof.
  intro Hf. unfold modifyNode. rewrite map_map. apply map_ext.
  intro n. destruct (Nat.eqb (oid n) i) eqn:E.
  - now rewrite Hf, E.
  - now rewrite E.
Qed.

(** ** The pulse pool *)

Lemma createPulse_nodes s t v w : nodes (snd (createPulse s t v w)) = nodes w.
Proof.
  unfold createPulse. destruct (JS.pop (pulsePool w)) as [[p r] |]; reflexivity.
Qed.

Lemma createPulse_pool s t v w :
  (length (pulsePool (snd (createPulse s t v w))) <= length (pulsePool w))%nat.
Proof.
  unfold createPulse. destruct (JS.pop (pulsePool w)) as [[p r] |] eqn:E; simpl.
  - apply JSFacts.pop_some in E. rewrite E, length_app. lia.
  - lia.
Qed.

Lemma createPulse_fields s t v w :
  let p := fst (createPulse s t v w) in
  source p = s /\ target p = t /\ progress p = 0 /\ speed p = v.
Proof.
  unfold createPulse. destruct (JS.pop (pulsePool w)) as [[p r] |]; simpl; auto.
Qed.

Lemma recyclePulse_nodes p w : nodes (recyclePulse p w) = nodes w.
Proof.
  unfold recyclePulse.
  destruct (length (pulsePool w) <? MAX_PULSE_COUNT)%nat; reflexivity.
Qed.

Lemma recyclePulse_pool p w :
  (length (pulsePool w) <= MAX_PULSE_COUNT)%nat ->
  (length (pulsePool (recyclePulse p w)) <= MAX_PULSE_COUNT)%nat.
Proof.
  intro H. unfold recyclePulse.
  destruct (length (pulsePool w) <? MAX_PULSE_COUNT)%nat eqn:E; simpl.
  - apply Nat.ltb_lt in E. unfold JS.push. rewrite length_app. simpl. lia.
  - exact H.
Qed.

Lemma recyclePulse_full p w :
  (MAX_PULSE_COUNT <= length (pulsePool w))%nat -> recyclePulse p w = w.
Proof.
  intro H. unfold recyclePulse.
  destruct (length (pulsePool w) <? MAX_PULSE_COUNT)%nat eqn:E.
  - apply Nat.ltb_lt in E. lia.
  - reflexivity.
Qed.

Lemma createPulse_reuses s t v w :
  pulsePool w <> [] ->
  exists p rest,
    pulsePool w = rest ++ [p]
    /\ createPulse s t v w = (mkPulse (pid p) s t 0 v, set_pulsePool rest w).
Proof.
  intro H. unfold createPulse.
  destruct (JS.pop (pulsePool w)) as [[p r] |] eqn:E.
  - exists p, r. split; [now apply JSFacts.pop_some | reflexivity].
  - apply JSFacts.pop_nil in E. contradiction.
Qed.

(** ** Random indices *)

Lemma random_index (r : Q) (len : nat) :
  0 <= r < 1 -> (0 < len)%nat ->
  let k := JS.floor (r * inject_Z (Z.of_nat len)) in
  (0 <= k < Z.of_nat len)%Z
  /\ inject_Z k <= r * inject_Z (Z.of_nat len) < inject_Z k + 1.
Proof.
  intros [Hr0 Hr1] Hlen k.
  assert (Hl : 0 < inject_Z (Z.of_nat len)).
  { change 0 with (inject_Z 0). rewrite <- Zlt_Qlt. lia. }
  pose proof (Qfloor_le (r * inject_Z (Z.of_nat len))) as Hlo.
  pose proof (Qlt_floor (r * inject_Z (Z.of_nat len))) as Hhi.
  fold (JS.floor (r * inject_Z (Z.of_nat len))) in Hlo, Hhi. fold k in Hlo, Hhi.
  rewrite inject_Z_plus in Hhi.
  assert (H0 : 0 <= r * inject_Z (Z.of_nat len)) by nra.
  assert (H1 : r * inject_Z (Z.of_nat len) < inject_Z (Z.of_nat len)) by nra.
  repeat split; try assumption.
  - apply Qfloor_resp_le in H0. exact H0.
  - rewrite Zlt_Qlt. lra.
Qed.

Lemma at_index_random {A} (pool : list A) (r : Q) :
  0 <= r < 1 -> (0 < length pool)%nat ->
  exists k v,
    (k < length pool)%nat
    /\ JS.floor (r * inject_Z (Z.of_nat (length pool))) = Z.of_nat k
    /\ nth_error pool k = Some v
    /\ JS.at_index pool (JS.floor (r * inject_Z (Z.of_nat (length pool))))
       = Some v.
Proof.
  intros Hr Hlen.
  destruct (random_index Hr Hlen) as [[Hk0 Hk1] _].
  set (z := JS.floor (r * inject_Z (Z.of_nat (length pool)))) in *.
  assert (Hk : (Z.to_nat z < length pool)%nat) by lia.
  destruct (nth_error pool (Z.to_nat z)) as [v |] eqn:E.
  - exists (Z.to_nat z), v. repeat split; try assumption; try lia.
    unfold JS.at_index.
    destruct (z <? 0)%Z eqn:Ez; [apply Z.ltb_lt in Ez; lia | exact E].
  - apply nth_error_None in E. lia.
Qed.

Lemma at_index_In {A} (pool : list A) z v :
  JS.at_index pool z = Some v -> In v pool.
Proof.
  unfold JS.at_index. destruct (z <? 0)%Z; [discriminate |].
  apply nth_error_In.
Qed.

(** The draws of a finite list of numbers of [0,1) are all in [0,1). *)
Lemma draws_of_unit (l : list Q) :
  forallb (fun q => JS.leb 0 q && JS.ltb q 1) l = true ->
  forall n, 0 <= draws_of l n < 1.
Proof.
  intros H n. unfold draws_of.
  destruct (nth_in_or_default n l 0) as [Hin | ->]; [| lra].
  rewrite forallb_forall in H. apply H in Hin.
  apply andb_true_iff in Hin. destruct Hin as [H0 H1].
  js_prop. lra.
Qed.

(** ** Emission *)

Lemma emit_pulses p n : pulses (emit p n) = pulses n ++ [p].
Proof.
  unfold emit. simpl. destruct (0 <? processingPulses n)%Z; reflexivity.
Qed.

Lemma emit_processingPulses p n :
  processingPulses (emit p n) =
  if (0 <? processingPulses n)%Z then (processingPulses n - 1)%Z
  else processingPulses n.
Proof.
  unfold emit. simpl. destruct (0 <? processingPulses n)%Z; reflexivity.
Qed.

Lemma emit_oid p n : oid (emit p n) = oid n.
Proof.
  unfold emit. simpl. destruct (0 <? processingPulses n)%Z; reflexivity.
Qed.

(** C5, as amended.  With the random draws [r1], [r2], [r3] as inputs,
    [sendRandomImpulse] on a node with at least one connection skips the
    emission exactly when [r1 <= 0.3] (probability 0.3 for a uniform draw;
    with no connection it does nothing and draws nothing); otherwise it
    takes the connection at index [k] where [k/len <= r2 < (k+1)/len], emits
    only if that target's opacity exceeds 0.5, and then appends to the
    node's pulses a pulse of progress 0 and speed [0.002 + r3 * 0.023], in
    [0.002, 0.025), decrementing [processingPulses] when it is positive
    (this is [emit]): the node then holds its pulses followed by the new
    one, its counter is one less if it was positive and the same if not,
    its other fields and the other nodes are what they were. *)
Theorem sendRandomImpulse_spec :
  forall (draws : nat -> Q) (i : nat) (w : World) (this : Node),
    (forall n, 0 <= draws n < 1) ->
    getNode i (nodes w) = Some this ->
    let len := length (connections this) in
    let r1 := draws (drawn w) in
    let r2 := draws (S (drawn w)) in
    let r3 := draws (S (S (drawn w))) in
    (len = 0%nat -> sendRandomImpulse draws i w = w)
    /\ ((0 < len)%nat -> r1 <= 3 # 10 ->
        sendRandomImpulse draws i w = set_drawn (S (drawn w)) w)
    /\ ((0 < len)%nat -> 3 # 10 < r1 ->
        exists (k : nat) (tid : nat),
          (k < len)%nat
          /\ nth_error (connections this) k = Some tid
          /\ inject_Z (Z.of_nat k) <= r2 * inject_Z (Z.of_nat len)
             < inject_Z (Z.of_nat k) + 1
          /\ forall t, getNode tid (nodes w) = Some t ->
             (opacity t <= 1 # 2 ->
              sendRandomImpulse draws i w = set_drawn (S (S (drawn w))) w)
             /\ (1 # 2 < opacity t ->
                 let v := (2 # 1000) + r3 * PULSE_SPEED in
                 let made :=
                   createPulse i tid v (set_drawn (S (S (S (drawn w)))) w) in
                 2 # 1000 <= v < 25 # 1000
                 /\ progress (fst made) = 0
                 /\ speed (fst made) = v
                 /\ target (fst made) = tid
                 /\ sendRandomImpulse draws i w
                    = withNode i (emit (fst made)) (snd made)
                 /\ (exists this',
                       getNode i (nodes (sendRandomImpulse draws i w))
                       = Some this'
                       /\ pulses this' = pulses this ++ [fst made]
                       /\ processingPulses this'
                          = (if (0 <? processingPulses this)%Z
                             then processingPulses this - 1
                             else processingPulses this)%Z
                       /\ set_processingPulses 0 (set_pulses [] this')
                          = set_processingPulses 0 (set_pulses [] this))
                 /\ (forall j, j <> i ->
                       getNode j (nodes (sendRandomImpulse draws i w))
                       = getNode j (nodes w)))).
Proof.
  intros draws i w this Hd Hget len r1 r2 r3.
  unfold sendRandomImpulse. rewrite Hget. fold len.
  repeat split.
  - intros ->. reflexivity.
  - intros Hlen Hr. apply Nat.ltb_lt in Hlen. rewrite Hlen. wsimpl.
    fold r1. apply JSFacts.gtb_le in Hr. rewrite Hr. reflexivity.
  - intros Hlen Hr.
    destruct (at_index_random (connections this) (Hd (S (drawn w))) Hlen)
      as [k [tid [Hk [Hfl [Hnth Hat]]]]].
    destruct (random_index (Hd (S (drawn w))) Hlen) as [_ Hiv].
    fold len r2 in Hfl, Hat, Hiv. rewrite Hfl in Hiv.
    pose proof (Hd (S (S (drawn w)))) as Hr3. fold r3 in Hr3.
    apply Nat.ltb_lt in Hlen. apply JSFacts.gtb_gt in Hr.
    exists k, tid. repeat split; try assumption; try apply Hiv.
    + intro Hop. rewrite Hlen. wsimpl. fold r1. rewrite Hr.
      fold r2. rewrite Hat, H.
      apply JSFacts.gtb_le in Hop. rewrite Hop. reflexivity.
    + unfold PULSE_SPEED. lra.
    + unfold PULSE_SPEED. lra.
    + apply (createPulse_fields i tid _ _).
    + apply (createPulse_fields i tid _ _).
    + apply (createPulse_fields i tid _ _).
    + rewrite Hlen. wsimpl. fold r1. rewrite Hr.
      fold r2. rewrite Hat, H.
      apply JSFacts.gtb_gt in H0. rewrite H0. fold r3.
      match goal with
      | |- context [createPulse ?a ?b ?c ?d] =>
          change d with (set_drawn (S (S (S (drawn w)))) w);
          destruct (createPulse a b c (set_drawn (S (S (S (drawn w)))) w))
            as [pulse w1]
      end.
      reflexivity.
    + rewrite Hlen. wsimpl. fold r1. rewrite Hr.
      fold r2. rewrite Hat, H.
      apply JSFacts.gtb_gt in H0. rewrite H0. fold r3.
      match goal with
      | |- context [createPulse ?a ?b ?c ?d] =>
          change d with (set_drawn (S (S (S (drawn w)))) w);
          pose proof (createPulse_nodes a b c
                        (set_drawn (S (S (S (drawn w)))) w)) as Hn;
          destruct (createPulse a b c (set_drawn (S (S (S (drawn w)))) w))
            as [pulse w1]
      end.
      cbn [fst snd] in *. wsimpl_in Hn.
      exists (emit pulse this). split.
      * wsimpl. rewrite Hn.
        rewrite getNode_modifyNode_same by (intro; apply emit_oid).
        now rewrite Hget.
      * split; [apply emit_pulses |]. split; [apply emit_processingPulses |].
        unfold emit. cbv zeta. cbn [processingPulses set_pulses].
        destruct (0 <? processingPulses this)%Z; reflexivity.
    + intros j Hj. rewrite Hlen. wsimpl. fold r1. rewrite Hr.
      fold r2. rewrite Hat, H.
      apply JSFacts.gtb_gt in H0. rewrite H0. fold r3.
      match goal with
      | |- context [createPulse ?a ?b ?c ?d] =>
          change d with (set_drawn (S (S (S (drawn w)))) w);
          pose proof (createPulse_nodes a b c
                        (set_drawn (S (S (S (drawn w)))) w)) as Hn;
          destruct (createPulse a b c (set_drawn (S (S (S (drawn w)))) w))
            as [pulse w1]
      end.
      cbn [fst snd] in *. wsimpl_in Hn. wsimpl. rewrite Hn.
      apply getNode_modifyNode_other; [intro; apply emit_oid | exact Hj].
Qed.

Lemma sendRandomImpulse_spec_witness :
  sendRandomImpulse (fun _ => 1 # 4) 0 sender_world = set_drawn 1 sender_world
  /\ exists this',
       getNode 0 (nodes (sendRandomImpulse (fun _ => 1 # 2) 0 sender_world))
       = Some this'
       /\ pulses this' = [mkPulse 0 0 1 0 ((2 # 1000) + (1 # 2) * PULSE_SPEED)]
       /\ processingPulses this' = 0%Z.
Proof.
  split.
  - assert (Hd : forall n : nat, 0 <= (fun _ : nat => 1 # 4) n < 1)
      by (intro n; simpl; lra).
    destruct (@sendRandomImpulse_spec (fun _ => 1 # 4) 0%nat sender_world _ Hd
                eq_refl) as [_ [Hskip _]].
    apply Hskip.
    + simpl. lia.
    + lra.
  - assert (Hd : forall n : nat, 0 <= (fun _ : nat => 1 # 2) n < 1)
      by (intro n; simpl; lra).
    destruct (@sendRandomImpulse_spec (fun _ => 1 # 2) 0%nat sender_world _ Hd
                eq_refl) as [_ [_ Hemit]].
    destruct Hemit as (k & tid & Hk & Hnth & _ & Ht); [simpl; lia | lra |].
    destruct k as [| k]; [| simpl in Hk; lia].
    injection Hnth as <-.
    destruct (Ht _ eq_refl) as [_ Hvis].
    destruct Hvis as (_ & _ & _ & _ & _ & (this' & Hget & Hp & Hc & _) & _);
      [simpl; lra |].
    exists this'. split; [exact Hget |]. split; [exact Hp | exact Hc].
Defined.

(** C5, counterexample.  Of ten equally likely first draws only three skip
    the emission, not seven; the draw [1/2] emits. *)
Lemma sendRandomImpulse_skip_counterexample :
  length midpoints = 10%nat
  /\ length (filter (fun r => negb (emits r)) midpoints) = 3%nat
  /\ emits (1 # 2) = true.
Proof. repeat split; vm_compute; reflexivity. Qed.

(** ** The node invariant under the writes of the simulation *)

Section NodeInvariant.

Variable kindOf : nat -> NodeType.
Variable ex : nat -> nat -> Prop.

Lemma NodeOK_sameSim a b : sameSim a b -> NodeOK kindOf ex a -> NodeOK kindOf ex b.
Proof.
  intros (Ho & Ht & Hc & Hp & Hn & Hop & Hto) [].
  constructor; rewrite <- ?Ho, <- ?Ht, <- ?Hc, <- ?Hp, <- ?Hn, <- ?Hop, <- ?Hto;
    assumption.
Qed.

Lemma NodeOK_weaken (ex' : nat -> nat -> Prop) n :
  (forall k, ex (oid n) k -> ex' (oid n) k) ->
  NodeOK kindOf ex n -> NodeOK kindOf ex' n.
Proof.
  intros Hex []. constructor; try assumption.
  intros k p Hk. destruct (ok_fresh0 k p Hk); [left; now apply Hex | now right].
Qed.

Lemma NodeOK_emit p n :
  NodeOK kindOf ex n ->
  0 < speed p -> In (target p) (connections n) -> fresh p ->
  NodeOK kindOf ex (emit p n).
Proof.
  intros [] Hs Ht Hf. unfold emit. cbn [processingPulses set_pulses].
  destruct (0 <? processingPulses n)%Z eqn:E; constructor; simpl;
    try assumption.
  all: try (intros q Hq; unfold JS.push in Hq; apply in_app_iff in Hq;
            destruct Hq as [Hq | [<- | []]]; [now apply ok_pulses0 | now split]).
  all: try (intros k q Hk; unfold JS.push in Hk;
            destruct (Nat.lt_ge_cases k (length (pulses n))) as [Hlt | Hge];
            [ rewrite nth_error_app1 in Hk by exact Hlt; now apply ok_fresh0
            | rewrite nth_error_app2 in Hk by exact Hge;
              destruct (k - length (pulses n))%nat as [| m];
              [ injection Hk as <-; now right
              | destruct m; discriminate ] ]).
  - intro Hk. apply ok_idle0 in Hk. apply Z.ltb_lt in E. lia.
  - apply Z.ltb_lt in E. lia.
Qed.

Lemma NodeOK_arrive n :
  NodeOK kindOf ex n -> kindOf (oid n) <> Source -> NodeOK kindOf ex (arrive n).
Proof.
  intros [] Hk. unfold arrive. constructor; simpl; try assumption.
  - intro H. contradiction.
  - lia.
  - lra.
  - now right.
Qed.

Lemma NodeOK_relax time n : NodeOK kindOf ex n -> NodeOK kindOf ex (relax time n).
Proof.
  intros []. unfold relax.
  set (a := JS.ltb _ (7 # 10)). clearbody a.
  assert (Ht : exists t, (t = 3 # 10 \/ t = 1)
     /\ (if isHovered (set_targetOpacity (if a then 1 else 3 # 10) n)
            || isDragged (set_targetOpacity (if a then 1 else 3 # 10) n)
         then set_targetOpacity 1 (set_targetOpacity (if a then 1 else 3 # 10) n)
         else set_targetOpacity (if a then 1 else 3 # 10) n)
        = set_targetOpacity t n).
  { simpl. destruct (isHovered n || isDragged n).
    - exists 1. split; [now right | reflexivity].
    - destruct a; [exists 1 | exists (3 # 10)]; split; auto. }
  destruct Ht as [t [Ht ->]]. cbv zeta. cbn [opacity targetOpacity set_targetOpacity].
  destruct (JS.gtb (Qabs (opacity n - t)) (1 # 100)); constructor; simpl;
    try assumption;
    destruct Ht as [-> | ->]; auto; lra.
Qed.

Lemma NodeOK_set_lastPulseTime v n :
  NodeOK kindOf ex n -> NodeOK kindOf ex (set_lastPulseTime v n).
Proof.
  apply NodeOK_sameSim. repeat split.
Qed.

End NodeInvariant.

Lemma NoDup_oid_eq ns n m :
  NoDup (map oid ns) -> In n ns -> In m ns -> oid n = oid m -> n = m.
Proof.
  induction ns as [| a ns IH]; simpl; intros Hnd Hn Hm E.
  - contradiction.
  - inversion Hnd as [| ? ? Hnot Hnd']; subst.
    destruct Hn as [-> | Hn], Hm as [-> | Hm]; auto.
    + exfalso. apply Hnot. rewrite E. now apply in_map.
    + exfalso. apply Hnot. rewrite <- E. now apply in_map.
Qed.

Lemma getNode_unique ns n i :
  NoDup (map oid ns) -> In n ns -> oid n = i -> getNode i ns = Some n.
Proof.
  intros Hnd Hn Hi. destruct (getNode i ns) as [m |] eqn:E.
  - apply getNode_Some in E. destruct E as [Hm Ho].
    f_equal. apply (NoDup_oid_eq ns); auto. congruence.
  - unfold getNode in E. apply (find_none _ _ E) in Hn.
    apply Nat.eqb_neq in Hn. contradiction.
Qed.

Lemma Forall_modifyNode2 (P R : Node -> Prop) i f ns :
  Forall P ns ->
  (forall n, In n ns -> oid n = i -> P n -> R (f n)) ->
  (forall n, In n ns -> oid n <> i -> P n -> R n) ->
  Forall R (modifyNode i f ns).
Proof.
  intros H Hf Hg. unfold modifyNode. rewrite Forall_forall in *.
  intros m Hm. apply in_map_iff in Hm. destruct Hm as [n [<- Hn]].
  destruct (Nat.eqb (oid n) i) eqn:E.
  - apply Nat.eqb_eq in E. now apply Hf; [| | apply H].
  - apply Nat.eqb_neq in E. now apply Hg; [| | apply H].
Qed.

Lemma nth_error_set_at {A} (l : list A) j v k q :
  nth_error (JS.set_at j v l) k = Some q ->
  (k = j /\ q = v) \/ (k <> j /\ nth_error l k = Some q).
Proof.
  revert j k. induction l as [| a l IH]; intros j k H.
  - destruct j, k; discriminate.
  - destruct j as [| j], k as [| k]; simpl in H.
    + injection H as <-. now left.
    + right. split; [discriminate | exact H].
    + right. split; [discriminate | exact H].
    + destruct (IH j k H) as [[-> ->] | [Hk Hq]]; [now left | right].
      split; [congruence | exact Hq].
Qed.

Lemma In_set_at {A} (l : list A) j v q :
  In q (JS.set_at j v l) -> q = v \/ In q l.
Proof.
  intro H. apply In_nth_error in H. destruct H as [k Hk].
  destruct (nth_error_set_at _ _ _ _ Hk) as [[_ ->] | [_ Hq]];
    [now left | right; now apply nth_error_In in Hq].
Qed.

Lemma nth_error_splice1 {A} (l : list A) j k q :
  nth_error (JS.splice1 j l) k = Some q ->
  exists k', k' <> j /\ nth_error l k' = Some q.
Proof.
  unfold JS.splice1. intro H.
  destruct (Nat.lt_ge_cases k (length (firstn j l))) as [Hlt | Hge].
  - rewrite nth_error_app1 in H by exact Hlt.
    rewrite length_firstn in Hlt.
    exists k. split; [lia |].
    rewrite nth_error_firstn in H.
    destruct (k <? j)%nat eqn:E; [exact H | discriminate].
  - rewrite nth_error_app2 in H by exact Hge.
    rewrite nth_error_skipn in H. rewrite length_firstn in *.
    exists (S j + (k - Nat.min j (length l)))%nat. split; [lia | exact H].
Qed.

(** ** The world invariant under the steps of the simulation *)

Section SimulationInvariant.

Variable draws : nat -> Q.
Hypothesis draws_unit : forall n, 0 <= draws n < 1.
Variable kindOf : nat -> NodeType.

Lemma WorldOK_withNode ex ex' i f w :
  WorldOK kindOf ex w ->
  (forall n, oid (f n) = oid n) ->
  (forall n, In n (nodes w) -> oid n = i ->
             NodeOK kindOf ex n -> NodeOK kindOf ex' (f n)) ->
  (forall n, oid n <> i -> NodeOK kindOf ex n -> NodeOK kindOf ex' n) ->
  WorldOK kindOf ex' (withNode i f w).
Proof.
  intros (Hnd & Hall & Hpool) Hoid Hf Hg. repeat split; wsimpl.
  - now rewrite map_oid_modifyNode.
  - apply (Forall_modifyNode2 (P := NodeOK kindOf ex)); auto.
  - exact Hpool.
Qed.

Lemma WorldOK_same ex w w' :
  nodes w' = nodes w ->
  (length (pulsePool w') <= length (pulsePool w))%nat ->
  WorldOK kindOf ex w -> WorldOK kindOf ex w'.
Proof.
  intros Hn Hp (Hnd & Hall & Hpool). unfold WorldOK. rewrite Hn.
  repeat split; auto. lia.
Qed.

Lemma WorldOK_recycle ex p w :
  WorldOK kindOf ex w -> WorldOK kindOf ex (recyclePulse p w).
Proof.
  intros (Hnd & Hall & Hpool). unfold WorldOK.
  rewrite recyclePulse_nodes. repeat split; auto.
  now apply recyclePulse_pool.
Qed.

Lemma send_effect i w :
  (length (pulsePool (sendRandomImpulse draws i w)) <= length (pulsePool w))%nat
  /\ (nodes (sendRandomImpulse draws i w) = nodes w
      \/ exists this pulse,
           getNode i (nodes w) = Some this
           /\ In (target pulse) (connections this)
           /\ progress pulse = 0 /\ 0 < speed pulse
           /\ nodes (sendRandomImpulse draws i w)
              = modifyNode i (emit pulse) (nodes w)).
Proof.
  unfold sendRandomImpulse.
  destruct (getNode i (nodes w)) as [this |] eqn:Hget; [| auto].
  destruct (0 <? length (connections this))%nat; [| auto]. wsimpl.
  destruct (JS.gtb (draws (drawn w)) (3 # 10)); [| auto].
  destruct (JS.at_index _ _) as [tid |] eqn:Hat; [| auto].
  destruct (getNode tid (nodes w)) as [t |]; [| auto].
  destruct (JS.gtb (opacity t) (1 # 2)); [| auto].
  match goal with
  | |- context [createPulse ?a ?b ?c ?d] =>
      pose proof (createPulse_nodes a b c d) as Hn;
      pose proof (createPulse_pool a b c d) as Hp;
      pose proof (createPulse_fields a b c d) as Hf;
      destruct (createPulse a b c d) as [pulse w1]
  end.
  cbn [fst snd] in *. wsimpl_in Hn. wsimpl_in Hp. wsimpl.
  destruct Hf as (_ & Ht & Hpr & Hsp).
  split; [exact Hp | right]. exists this, pulse.
  repeat split; auto.
  - rewrite Ht. now apply at_index_In in Hat.
  - rewrite Hsp. pose proof (draws_unit (S (S (drawn w)))).
    unfold PULSE_SPEED. lra.
  - now rewrite Hn.
Qed.

Lemma send_ok ex i w :
  WorldOK kindOf ex w -> WorldOK kindOf ex (sendRandomImpulse draws i w).
Proof.
  intro H. destruct (send_effect i w) as [Hp [Hn | Hn]].
  - revert H. now apply WorldOK_same.
  - destruct Hn as (this & pulse & Hget & Ht & Hpr & Hsp & Hn).
    destruct H as (Hnd & Hall & Hpool). unfold WorldOK. rewrite Hn.
    repeat split.
    + rewrite map_oid_modifyNode; [exact Hnd | intro; apply emit_oid].
    + apply Forall_modifyNode; [exact Hall |].
      intros n Hin Ho Hok.
      assert (n = this) as ->.
      { apply getNode_Some in Hget. destruct Hget as [Hthis Ho'].
        apply (NoDup_oid_eq (nodes w)); auto. congruence. }
      apply NodeOK_emit; auto. unfold fresh. rewrite Hpr. lra.
    + lia.
Qed.

Lemma advance_progress p dt :
  0 <= dt -> 0 < speed p ->
  progress p <= progress p + speed p * (dt / (16667 # 1000)).
Proof.
  intros Hdt Hs.
  assert (0 <= dt / (16667 # 1000)) by (apply Qle_shift_div_l; lra).
  nra.
Qed.

Lemma WorldOK_drawn ex k w :
  WorldOK kindOf ex w -> WorldOK kindOf ex (set_drawn k w).
Proof. apply WorldOK_same; wsimpl; auto. Qed.

Lemma pulseStep_ok i dt j w :
  0 <= dt ->
  WorldOK kindOf no_exemption w ->
  WorldOK kindOf no_exemption (pulseStep draws i dt j w).
Proof.
  intros Hdt Hw. unfold pulseStep.
  destruct (getNode i (nodes w)) as [this |] eqn:Hget; [| exact Hw].
  destruct (nth_error (pulses this) j) as [pulse |] eqn:Hnth; [| exact Hw].
  pose proof (getNode_Some _ _ Hget) as [Hthis Hoid].
  assert (Hok : NodeOK kindOf no_exemption this).
  { destruct Hw as (_ & Hall & _). rewrite Forall_forall in Hall. now apply Hall. }
  assert (Hp : 0 < speed pulse /\ In (target pulse) (connections this)).
  { apply (ok_pulses Hok). now apply nth_error_In in Hnth. }
  assert (Hf : fresh pulse).
  { destruct (ok_fresh Hok _ Hnth) as [[] | Hf]. exact Hf. }
  destruct Hp as [Hsp Htg].
  pose proof (advance_progress pulse Hdt Hsp) as Hadv.
  change (progress pulse + speed pulse * (dt / (16667 # 1000)))
    with (progress (advance dt pulse)) in Hadv.
  set (pulse' := advance dt pulse) in *.
  assert (Hunique : forall n, In n (nodes w) -> oid n = i -> n = this).
  { intros n Hn Ho. destruct Hw as (Hnd & _).
    apply (NoDup_oid_eq (nodes w)); auto. congruence. }
  cbv zeta.
  destruct (JS.geb (progress pulse') 1) eqn:Hge.
  - assert (H1 : WorldOK kindOf (exempt i j)
                   (withNode i
                      (fun n => set_pulses (JS.set_at j pulse' (pulses n)) n) w)).
    { apply WorldOK_withNode with (ex := no_exemption); auto.
      - intros n Hn Ho _. apply Hunique in Hn; auto. subst n.
        destruct Hok. constructor; simpl; auto.
        + intros q Hq. apply In_set_at in Hq. destruct Hq as [-> | Hq]; auto.
        + intros k q Hk. apply nth_error_set_at in Hk.
          destruct Hk as [[-> ->] | [_ Hk]].
          * left. now split.
          * destruct (ok_fresh0 k q Hk) as [[] | Hq]. now right.
      - intros n Hn. apply NodeOK_weaken. intros ? []. }
    set (w1 := withNode i _ w) in *.
    assert (H2 : WorldOK kindOf (exempt i j) (withNode (target pulse') arrive w1)).
    { apply WorldOK_withNode with (ex := exempt i j); auto.
      intros n Hn Ho Hokn. apply NodeOK_arrive; auto.
      rewrite Ho. simpl. now apply (ok_targets Hok). }
    set (w2 := withNode (target pulse') arrive w1) in *.
    assert (H3 : WorldOK kindOf (exempt i j) (forward draws (target pulse') w2)).
    { unfold forward.
      destruct (getNode (target pulse') (nodes w2)) as [t |]; auto.
      destruct (active t); auto.
      destruct (NodeType_eqb (type t) Process); auto.
      cbn [Math_random].
      destruct (JS.gtb (draws (drawn w2)) (7 # 10)).
      - apply send_ok. now apply WorldOK_drawn.
      - now apply WorldOK_drawn. }
    set (w3 := forward draws (target pulse') w2) in *.
    apply WorldOK_withNode with (ex := exempt i j); auto.
    + now apply WorldOK_recycle.
    + intros n Hn Ho Hokn. destruct Hokn. constructor; simpl; auto.
      * intros q Hq. apply JSFacts.In_splice1 in Hq. auto.
      * intros k q Hk. apply nth_error_splice1 in Hk.
        destruct Hk as [k' [Hne Hk']].
        destruct (ok_fresh0 k' q Hk') as [[_ E] | Hq]; [congruence | now right].
    + intros n Hn. apply NodeOK_weaken. intros ? [E _]. contradiction.
  - apply WorldOK_withNode with (ex := no_exemption); auto.
    intros n Hn Ho _. apply Hunique in Hn; auto. subst n.
    apply JSFacts.geb_lt in Hge.
    destruct Hok. constructor; simpl; auto.
    + intros q Hq. apply In_set_at in Hq. destruct Hq as [-> | Hq]; auto.
    + intros k q Hk. apply nth_error_set_at in Hk.
      destruct Hk as [[-> ->] | [_ Hk]]; auto.
      right. unfold fresh in *. simpl in *. lra.
Qed.

Lemma updatePulses_loop_ok i dt k w :
  0 <= dt ->
  WorldOK kindOf no_exemption w ->
  WorldOK kindOf no_exemption (updatePulses_loop draws i dt k w).
Proof.
  intro Hdt. revert w. induction k as [| k IH]; intros w Hw; simpl.
  - exact Hw.
  - apply IH. now apply pulseStep_ok.
Qed.

Lemma updatePulses_ok i dt w :
  0 <= dt ->
  WorldOK kindOf no_exemption w ->
  WorldOK kindOf no_exemption (updatePulses draws i dt w).
Proof.
  intros Hdt Hw. unfold updatePulses.
  destruct (getNode i (nodes w)); [now apply updatePulses_loop_ok | exact Hw].
Qed.

Lemma relax_oid time n : oid (relax time n) = oid n.
Proof.
  unfold relax. cbv zeta.
  repeat match goal with
  | |- context [if ?c then _ else _] => destruct c
  end; reflexivity.
Qed.

Lemma update_ok i time dt w :
  0 <= dt ->
  WorldOK kindOf no_exemption w ->
  WorldOK kindOf no_exemption (update draws i time dt w).
Proof.
  intros Hdt Hw. unfold update. cbv zeta.
  apply updatePulses_ok; [exact Hdt |].
  assert (H1 : WorldOK kindOf no_exemption (withNode i (relax time) w)).
  { apply WorldOK_withNode with (ex := no_exemption); auto.
    - apply relax_oid.
    - intros n _ _. apply NodeOK_relax. }
  set (w1 := withNode i (relax time) w) in *.
  assert (H2 : WorldOK kindOf no_exemption
            match getNode i (nodes w1) with
            | Some this =>
                if active this && NodeType_eqb (type this) Source
                   && JS.gtb (time - lastPulseTime this) (pulseInterval this)
                then sendRandomImpulse draws i
                       (withNode i (set_lastPulseTime time) w1)
                else w1
            | None => w1
            end).
  { destruct (getNode i (nodes w1)) as [this |]; auto.
    destruct (_ && _); auto.
    apply send_ok; auto.
    apply WorldOK_withNode with (ex := no_exemption); auto.
    intros n _ _. apply NodeOK_set_lastPulseTime. }
  match goal with
  | H : WorldOK _ _ ?W |- _ =>
      lazymatch W with
      | match _ with Some _ => _ | None => _ end => set (w2 := W) in *
      end
  end.
  destruct (getNode i (nodes w2)) as [this |]; auto.
  destruct (_ && _); auto.
  cbn [Math_random].
  destruct (JS.gtb _ _).
  - apply send_ok. now apply WorldOK_drawn.
  - now apply WorldOK_drawn.
Qed.

End SimulationInvariant.

(** ** Layout, integration and pointer handlers leave the simulation fields alone *)

Lemma sameSim_refl n : sameSim n n.
Proof. repeat split. Qed.

Lemma sameSim_trans a b c : sameSim a b -> sameSim b c -> sameSim a c.
Proof.
  unfold sameSim. intros (?&?&?&?&?&?&?) (?&?&?&?&?&?&?).
  repeat split; congruence.
Qed.

Lemma sameSims_refl ns : Forall2 sameSim ns ns.
Proof. induction ns; constructor; auto using sameSim_refl. Qed.

Lemma sameSims_trans a b c :
  Forall2 sameSim a b -> Forall2 sameSim b c -> Forall2 sameSim a c.
Proof.
  intro H. revert c. induction H; intros c Hc; inversion Hc; subst;
    constructor; eauto using sameSim_trans.
Qed.

Lemma simList_id : simList (fun ns => ns).
Proof. intro ns. apply sameSims_refl. Qed.

Lemma simList_comp F G : simList F -> simList G -> simList (fun ns => G (F ns)).
Proof. intros HF HG ns. eapply sameSims_trans; [apply HF | apply HG]. Qed.

Lemma simList_map f : simNode f -> simList (map f).
Proof. intros Hf ns. induction ns; simpl; constructor; auto. Qed.

Lemma simList_modifyAt a f : simNode f -> simList (modifyAt a f).
Proof.
  intros Hf ns. revert a. induction ns as [| n ns IH]; intro a.
  - destruct a; constructor.
  - destruct a; simpl; constructor; auto using sameSim_refl, sameSims_refl.
Qed.

Lemma simList_modifyNode i f : simNode f -> simList (modifyNode i f).
Proof.
  intros Hf. apply simList_map. intro n.
  destruct (Nat.eqb (oid n) i); [apply Hf | apply sameSim_refl].
Qed.

Lemma simList_fold {A} (step : list Node -> A -> list Node) (l : list A) :
  (forall a, simList (fun ns => step ns a)) ->
  simList (fun ns => fold_left step l ns).
Proof.
  intros Hstep. induction l as [| a l IH]; intro ns; simpl.
  - apply sameSims_refl.
  - eapply sameSims_trans; [apply (Hstep a) | apply IH].
Qed.

Lemma sameSims_map_oid ns ns' :
  Forall2 sameSim ns ns' -> map oid ns' = map oid ns.
Proof.
  induction 1 as [| a b ns ns' Hab _ IH]; simpl; [reflexivity |].
  destruct Hab as (-> & _). now rewrite IH.
Qed.

Lemma sameSims_Forall (P : Node -> Prop) ns ns' :
  (forall a b, sameSim a b -> P a -> P b) ->
  Forall2 sameSim ns ns' -> Forall P ns -> Forall P ns'.
Proof.
  intros HP H. induction H; intro Hall; inversion Hall; subst; constructor;
    eauto.
Qed.

Lemma WorldOK_sameSims kindOf ex w w' :
  Forall2 sameSim (nodes w) (nodes w') ->
  pulsePool w' = pulsePool w ->
  WorldOK kindOf ex w -> WorldOK kindOf ex w'.
Proof.
  intros Hs Hp (Hnd & Hall & Hpool). unfold WorldOK. rewrite Hp.
  repeat split; auto.
  - now rewrite (sameSims_map_oid Hs).
  - revert Hall. apply sameSims_Forall; [| exact Hs].
    intros a b. apply NodeOK_sameSim.
Qed.

(** Decides [simNode] for a function built from field writes and tests. *)
Ltac sim_node :=
  intro; unfold sameSim; cbv zeta;
  repeat (match goal with
          | |- context [if ?c then _ else _] => destruct c
          | |- context [match ?c with Some _ => _ | None => _ end] => destruct c
          | |- context [let '(_, _) := ?c in _] => destruct c
          end; cbn [oid type connections pulses processingPulses opacity
                    targetOpacity set_x set_y set_vx set_vy set_isHovered
                    set_isDragged]);
  repeat split; reflexivity.

Lemma sim_add_v a b : simNode (add_v a b).
Proof. unfold add_v. sim_node. Qed.

Lemma sim_sub_v a b : simNode (sub_v a b).
Proof. unfold sub_v. sim_node. Qed.

Lemma sim_enforceBoundaries w h : simNode (enforceBoundaries w h).
Proof. unfold enforceBoundaries. sim_node. Qed.

Lemma sim_limitVelocity s c : simNode (limitVelocity s c).
Proof. unfold limitVelocity. sim_node. Qed.

Lemma sim_applyContentRepulsion s r c : simNode (applyContentRepulsion s r c).
Proof. unfold applyContentRepulsion, add_v. sim_node. Qed.

Lemma sim_applyEdgeForces w h c : simNode (applyEdgeForces w h c).
Proof. unfold applyEdgeForces. sim_node. Qed.

Lemma sim_updatePosition w h s : simNode (updatePosition w h s).
Proof. unfold updatePosition. sim_node. Qed.

Lemma sim_dampen : simNode dampen.
Proof. unfold dampen. sim_node. Qed.

Lemma sim_blend o w h : simNode (blend o w h).
Proof.
  intro n. unfold blend. cbv zeta.
  eapply sameSim_trans; [| apply sim_enforceBoundaries].
  destruct (find _ o) as [[? [? ?]] |]; repeat split.
Qed.

Lemma sim_repel s c a b : simList (repel s c a b).
Proof.
  intro ns. unfold repel.
  destruct (nth_error ns a), (nth_error ns b); try apply sameSims_refl.
  destruct (isDragged n0); [apply sameSims_refl |]. cbv zeta.
  destruct (JS.ltb _ _); [| apply sameSims_refl].
  eapply sameSims_trans; apply simList_modifyAt;
    [apply sim_sub_v | apply sim_add_v].
Qed.

Lemma sim_applyNodeRepulsion_loop s c a k b :
  simList (applyNodeRepulsion_loop s c a k b).
Proof.
  revert b. induction k as [| k IH]; intros b ns; simpl.
  - apply sameSims_refl.
  - eapply sameSims_trans; [apply sim_repel | apply IH].
Qed.

Lemma sim_attract s c a connected : simList (fun ns => attract s c a ns connected).
Proof.
  intro ns. unfold attract.
  destruct (nth_error ns a), (getNode connected ns); try apply sameSims_refl.
  destruct (isDragged n0); [apply sameSims_refl |]. cbv zeta.
  eapply sameSims_trans;
    [apply simList_modifyAt, sim_add_v | apply simList_modifyNode, sim_sub_v].
Qed.

Lemma sim_attractAll s c a : simList (fun ns => attractAll s c ns a).
Proof.
  intro ns. unfold attractAll.
  destruct (nth_error ns a); [| apply sameSims_refl].
  destruct (isDragged n); [apply sameSims_refl |].
  apply (simList_fold (attract s c a)). intro. apply sim_attract.
Qed.

Lemma sim_forcesOn s w h r c a : simList (fun ns => forcesOn s w h r c ns a).
Proof.
  intro ns. unfold forcesOn.
  destruct (nth_error ns a); [| apply sameSims_refl].
  destruct (isDragged n); [apply sameSims_refl |]. cbv zeta.
  eapply sameSims_trans;
    [apply simList_modifyAt, sim_applyContentRepulsion |].
  eapply sameSims_trans; [apply simList_modifyAt, sim_applyEdgeForces |].
  apply sim_applyNodeRepulsion_loop.
Qed.

Lemma sim_applyForces s w h r c : simList (applyForces s w h r c).
Proof.
  intro ns. unfold applyForces, applyConnectionAttractions. cbv zeta.
  eapply sameSims_trans.
  - apply (simList_fold (forcesOn s w h r c)). intro. apply sim_forcesOn.
  - apply (simList_fold (attractAll s c)). intro. apply sim_attractAll.
Qed.

Lemma sim_simulate s w h r c k : simList (simulate s w h r c k).
Proof.
  induction k as [| k IH]; intro ns; simpl.
  - apply sameSims_refl.
  - eapply sameSims_trans; [apply sim_applyForces |].
    eapply sameSims_trans; [| apply IH].
    apply simList_map, sim_limitVelocity.
Qed.

Lemma sim_applyForceLayout s w h r strength :
  simList (fun ns => applyForceLayout s ns w h r strength).
Proof.
  intro ns. unfold applyForceLayout.
  destruct (JS.leb strength 0); [apply sameSims_refl |]. cbv zeta.
  eapply sameSims_trans; [apply (simList_map (f := fun n => set_vy 0 (set_vx 0 n))) |].
  { intro n. repeat split. }
  eapply sameSims_trans; [apply sim_simulate |].
  apply simList_map, sim_blend.
Qed.

Lemma sim_updatePositions w h s : simList (fun ns => updatePositions ns w h s).
Proof. intro ns. apply simList_map, sim_updatePosition. Qed.

Lemma simWorld_comp F G : simWorld F -> simWorld G -> simWorld (fun w => G (F w)).
Proof.
  intros HF HG w. destruct (HF w) as [H1 H2], (HG (F w)) as [H3 H4]. split.
  - eapply sameSims_trans; eassumption.
  - congruence.
Qed.

Lemma simWorld_withNode i f : simNode f -> simWorld (withNode i f).
Proof.
  intros Hf w. split; [| reflexivity]. wsimpl. now apply simList_modifyNode.
Qed.

Lemma simWorld_set_nodes F :
  simList F -> simWorld (fun w => set_nodes (F (nodes w)) w).
Proof. intros HF w. split; [apply HF | reflexivity]. Qed.

Lemma simWorld_id : simWorld (fun w => w).
Proof. intro w. split; [apply sameSims_refl | reflexivity]. Qed.

Lemma sim_set_isDragged b : simNode (set_isDragged b).
Proof. sim_node. Qed.

Lemma sim_set_isHovered b : simNode (set_isHovered b).
Proof. sim_node. Qed.

Lemma sim_dragTo mx my w : simNode (dragTo mx my w).
Proof. unfold dragTo. sim_node. Qed.

Lemma sim_checkNodeSelection s px py : simWorld (checkNodeSelection s px py).
Proof.
  intro w. unfold checkNodeSelection.
  destruct (find _ (nodes w)); [| apply simWorld_id].
  split; [| reflexivity]. wsimpl. apply simList_modifyNode, sim_set_isDragged.
Qed.

Lemma sim_dragSelected mx my : simWorld (dragSelected mx my).
Proof.
  intro w. unfold dragSelected.
  destruct (selectedNode w); [| apply simWorld_id].
  apply simWorld_withNode, sim_dragTo.
Qed.

Lemma sim_handleMouseUp : simWorld handleMouseUp.
Proof.
  intro w. unfold handleMouseUp. cbv zeta. split; [| now destruct (selectedNode w)].
  wsimpl. destruct (selectedNode w); [| apply sameSims_refl].
  apply simList_modifyNode, sim_set_isDragged.
Qed.

Lemma sim_then (w0 w1 w2 : World) :
  Forall2 sameSim (nodes w0) (nodes w1) /\ pulsePool w1 = pulsePool w0 ->
  Forall2 sameSim (nodes w1) (nodes w2) /\ pulsePool w2 = pulsePool w1 ->
  Forall2 sameSim (nodes w0) (nodes w2) /\ pulsePool w2 = pulsePool w0.
Proof.
  intros [H1 H2] [H3 H4]. split; [eapply sameSims_trans; eassumption | congruence].
Qed.

Lemma sim_handleMouseMove s mx my : simWorld (handleMouseMove s mx my).
Proof.
  intro w. unfold handleMouseMove. cbv zeta.
  set (w1 := set_nodes (map (set_isHovered false) (nodes w)) w).
  assert (H1 : Forall2 sameSim (nodes w) (nodes w1)
               /\ pulsePool w1 = pulsePool w).
  { apply (simWorld_set_nodes (F := map (set_isHovered false))).
    apply simList_map, sim_set_isHovered. }
  eapply sim_then; [exact H1 |]. clearbody w1. clear H1.
  match goal with
  | |- context [isDragging ?W] =>
      lazymatch W with
      | if _ then _ else _ => set (w2 := W)
      end
  end.
  assert (H2 : Forall2 sameSim (nodes w1) (nodes w2)
               /\ pulsePool w2 = pulsePool w1).
  { subst w2. destruct (negb (isDragging w1)); [| apply simWorld_id].
    destruct (find _ (nodes w1)); [| apply simWorld_id].
    apply simWorld_withNode, sim_set_isHovered. }
  eapply sim_then; [exact H2 |]. clearbody w2. clear H2.
  destruct (isDragging w2); [apply sim_dragSelected | apply simWorld_id].
Qed.

Lemma sim_layout s r strength : simWorld (layout s r strength).
Proof.
  intro w. unfold layout. split; [| reflexivity]. wsimpl.
  apply sim_applyForceLayout.
Qed.

Lemma sim_set_canvas cw ch : simWorld (set_canvas cw ch).
Proof. intro w. split; [apply sameSims_refl | reflexivity]. Qed.

Lemma sim_resize s cw ch r : simWorld (resize s cw ch r).
Proof.
  unfold resize.
  apply (simWorld_comp (F := set_canvas cw ch) (G := layout s r (15 # 10))).
  - apply sim_set_canvas.
  - apply sim_layout.
Qed.

Lemma WorldOK_simWorld kindOf ex F w :
  simWorld F -> WorldOK kindOf ex w -> WorldOK kindOf ex (F w).
Proof.
  intros HF. destruct (HF w) as [H1 H2]. now apply WorldOK_sameSims.
Qed.

(** ** The invariant along a session *)

Section SessionInvariant.

Variable draws : nat -> Q.
Variable Math_sqrt : Q -> Q.
Hypothesis draws_unit : forall n, 0 <= draws n < 1.
Variable kindOf : nat -> NodeType.

Lemma updateAll_ok time dt ids w :
  0 <= dt ->
  WorldOK kindOf no_exemption w ->
  WorldOK kindOf no_exemption
    (fold_left (fun w i => update draws i time dt w) ids w).
Proof.
  intro Hdt. revert w. induction ids as [| i ids IH]; intros w Hw; simpl.
  - exact Hw.
  - apply IH. now apply update_ok.
Qed.

Lemma renderNodes_ok time dt r w :
  0 <= dt ->
  WorldOK kindOf no_exemption w ->
  WorldOK kindOf no_exemption (renderNodes draws Math_sqrt time dt r w).
Proof.
  intros Hdt Hw. unfold renderNodes. cbv zeta.
  apply updateAll_ok; [exact Hdt |].
  apply (WorldOK_simWorld (F := fun w => set_nodes (map dampen (nodes w)) w)).
  { apply simWorld_set_nodes, simList_map, sim_dampen. }
  match goal with
  | |- context [updatePositions _ ?cw ?ch ?s] =>
      apply (WorldOK_simWorld
               (F := fun w => set_nodes
                                (updatePositions (nodes w) (canvasWidth w)
                                   (canvasHeight w) s) w))
  end.
  { intro w0. split; [| reflexivity]. wsimpl. apply sim_updatePositions. }
  destruct (JS.gtb _ _); [| exact Hw].
  apply WorldOK_simWorld; [apply sim_layout |].
  revert Hw. apply WorldOK_sameSims; [apply sameSims_refl | reflexivity].
Qed.

Lemma animate_ok timestamp r w :
  WorldOK kindOf no_exemption w ->
  WorldOK kindOf no_exemption (animate draws Math_sqrt timestamp r w).
Proof.
  intro Hw. unfold animate. cbv zeta.
  assert (H1 : WorldOK kindOf no_exemption (set_lastFrameTime timestamp w)).
  { revert Hw. apply WorldOK_sameSims; [apply sameSims_refl | reflexivity]. }
  destruct (JS.geb _ _) eqn:E; [| exact H1].
  apply renderNodes_ok; [| exact H1].
  apply JSFacts.geb_ge in E. unfold frameInterval in E.
  assert (0 < 1000 / 60) by reflexivity. lra.
Qed.

Lemma handle_ok e w :
  WorldOK kindOf no_exemption w ->
  WorldOK kindOf no_exemption (handle draws Math_sqrt e w).
Proof.
  intro Hw. destruct e as [t r | cw ch r | mx my | mx my | | ts | ts |]; simpl.
  - now apply animate_ok.
  - apply WorldOK_simWorld; [apply sim_resize | exact Hw].
  - apply WorldOK_simWorld; [apply sim_checkNodeSelection | exact Hw].
  - apply WorldOK_simWorld; [apply sim_handleMouseMove | exact Hw].
  - apply WorldOK_simWorld; [apply sim_handleMouseUp | exact Hw].
  - unfold handleTouchStart. destruct ts as [| [mx my] [| ? ?]]; auto.
    apply WorldOK_simWorld; [apply sim_checkNodeSelection | exact Hw].
  - unfold handleTouchMove. destruct ts as [| [mx my] [| ? ?]]; auto.
    destruct (isDragging w); auto.
    apply WorldOK_simWorld; [apply sim_dragSelected | exact Hw].
  - apply WorldOK_simWorld; [apply sim_handleMouseUp | exact Hw].
Qed.

End SessionInvariant.

(** ** Network construction establishes the invariant *)

Section BuiltNodes.

Variable kindOf : nat -> NodeType.

Lemma Built_new n :
  type n = kindOf (oid n) -> connections n = [] -> pulses n = [] ->
  processingPulses n = 0%Z ->
  (opacity n = 1 \/ opacity n = 3 # 10) -> targetOpacity n = opacity n ->
  Built kindOf n.
Proof.
  intros Ht Hc Hp Hn Ho Hto. split; [| exact Hp].
  constructor; rewrite ?Hc, ?Hp, ?Hn, ?Hto; auto.
  all: try solve [ constructor | intros ? [] | lia
                 | intros k p Hk; destruct k; discriminate
                 | destruct Ho as [-> | ->]; lra
                 | destruct Ho as [-> | ->]; auto ].
Qed.

Lemma connect_oid t n : oid (connect t n) = oid n.
Proof. unfold connect. destruct (negb _); reflexivity. Qed.

Lemma Built_connect t n :
  Built kindOf n -> kindOf t <> Source -> t <> oid n ->
  Built kindOf (connect t n).
Proof.
  intros [[] Hp] Hk Ht. unfold connect.
  destruct (JS.includes (connections n) t) eqn:E; simpl.
  - split; [constructor; assumption | exact Hp].
  - apply JSFacts.includes_not_In in E.
    split; [| exact Hp]. unfold JS.push.
    constructor; simpl; auto.
    + apply NoDup_app; [assumption | repeat constructor; auto | ].
      intros c Hc [<- | []]. contradiction.
    + intro H. apply in_app_iff in H. destruct H as [H | [H | []]]; auto.
    + intros c H. apply in_app_iff in H. destruct H as [H | [<- | []]]; auto.
    + intros p H. rewrite Hp in H. destruct H.
Qed.

Lemma Built_strip d n : Built kindOf n -> Built kindOf (strip d n).
Proof.
  intros [[] Hp]. unfold strip. split; [| exact Hp].
  constructor; simpl; auto.
  - now apply NoDup_filter.
  - intro H. apply filter_In in H. tauto.
  - intros c H. apply filter_In in H. destruct H. auto.
  - intros p H. rewrite Hp in H. destruct H.
Qed.

Lemma BuiltNet_modifyNode i f ns :
  (forall n, oid (f n) = oid n) ->
  (forall n, oid n = i -> Built kindOf n -> Built kindOf (f n)) ->
  BuiltNet kindOf ns -> BuiltNet kindOf (modifyNode i f ns).
Proof.
  intros Ho Hf [Hnd Hall]. split.
  - now rewrite map_oid_modifyNode.
  - apply Forall_modifyNode; auto.
Qed.

End BuiltNodes.

Section Construction.

Variable draws : nat -> Q.
Variable kindOf : nat -> NodeType.

Lemma newNode_spec i x0 y0 r t w :
  let n := fst (newNode draws i x0 y0 r t w) in
  let w' := snd (newNode draws i x0 y0 r t w) in
  oid n = i /\ type n = t /\ connections n = [] /\ pulses n = []
  /\ processingPulses n = 0%Z
  /\ (opacity n = 1 \/ opacity n = 3 # 10) /\ targetOpacity n = opacity n
  /\ nodes w' = nodes w /\ pulsePool w' = pulsePool w.
Proof.
  unfold newNode. wsimpl. cbn [fst snd]. simpl.
  destruct (JS.gtb (draws (drawn w)) (1 # 2)); repeat split; auto.
Qed.

Lemma connectRandom_ok this pool k w :
  (forall t, In t pool -> kindOf t <> Source /\ t <> this) ->
  BuiltNet kindOf (nodes w) ->
  BuiltNet kindOf (nodes (connectRandom draws this pool k w))
  /\ pulsePool (connectRandom draws this pool k w) = pulsePool w.
Proof.
  intros Hpool. revert w. induction k as [| k IH]; intros w Hw; simpl.
  - now split.
  - wsimpl.
    destruct (JS.at_index pool _) as [t |] eqn:E.
    + apply at_index_In in E. destruct (Hpool t E) as [Hk Ht].
      match goal with
      | |- context [connectRandom _ _ _ _ ?W] => destruct (IH W) as [H1 H2]
      end.
      * wsimpl. apply BuiltNet_modifyNode; auto using connect_oid.
        intros n Hn Hb. apply Built_connect; [exact Hb | exact Hk | congruence].
      * split; [exact H1 | exact H2].
    + match goal with
      | |- context [connectRandom _ _ _ _ ?W] => destruct (IH W) as [H1 H2]
      end; [exact Hw |].
      split; [exact H1 | exact H2].
Qed.

Lemma ofType_kind t ns c :
  Forall (Built kindOf) ns -> In c (ofType t ns) -> kindOf c = t.
Proof.
  intros Hall Hc. unfold ofType in Hc. apply in_map_iff in Hc.
  destruct Hc as [n [<- Hn]]. apply filter_In in Hn. destruct Hn as [Hn Ht].
  apply NodeType_eqb_eq in Ht. rewrite Forall_forall in Hall.
  destruct (Hall n Hn) as [[] _]. congruence.
Qed.

Lemma connectSource_ok processes w s :
  (forall t, In t processes -> kindOf t = Process) ->
  kindOf s = Source ->
  BuiltNet kindOf (nodes w) ->
  BuiltNet kindOf (nodes (connectSource draws processes w s))
  /\ pulsePool (connectSource draws processes w s) = pulsePool w.
Proof.
  intros Hp Hs Hw. unfold connectSource. wsimpl.
  match goal with
  | |- context [connectRandom _ ?a ?b ?c ?W] =>
      destruct (@connectRandom_ok a b c W) as [H1 H2]
  end.
  - intros t Ht. apply Hp in Ht. split; congruence.
  - exact Hw.
  - split; [exact H1 | exact H2].
Qed.

Lemma connectProcess_ok processes destinations w p :
  (forall t, In t processes -> kindOf t = Process) ->
  (forall t, In t destinations -> kindOf t = Destination) ->
  kindOf p = Process ->
  BuiltNet kindOf (nodes w) ->
  BuiltNet kindOf (nodes (connectProcess draws processes destinations w p))
  /\ pulsePool (connectProcess draws processes destinations w p) = pulsePool w.
Proof.
  intros Hp Hd Hkp Hw. unfold connectProcess. wsimpl.
  match goal with
  | |- context [connectRandom _ p destinations ?c
                  (set_drawn ?d (connectRandom _ p ?b ?c' ?W))] =>
      destruct (@connectRandom_ok p b c' W) as [H1 H2];
      [ | exact Hw
        | destruct (@connectRandom_ok p destinations c
                      (set_drawn d (connectRandom draws p b c' W)))
            as [H3 H4] ]
  end.
  - intros t Hin. apply filter_In in Hin. destruct Hin as [Hin Hne].
    apply negb_true_iff, Nat.eqb_neq in Hne. apply Hp in Hin.
    split; congruence.
  - intros t Hin. apply Hd in Hin. split; congruence.
  - exact H1.
  - split; [exact H3 |]. rewrite H4. wsimpl. exact H2.
Qed.

Lemma fold_ok (step : World -> nat -> World) (good : nat -> Prop) l w :
  (forall w i, good i -> BuiltNet kindOf (nodes w) ->
     BuiltNet kindOf (nodes (step w i)) /\ pulsePool (step w i) = pulsePool w) ->
  (forall i, In i l -> good i) ->
  BuiltNet kindOf (nodes w) ->
  BuiltNet kindOf (nodes (fold_left step l w))
  /\ pulsePool (fold_left step l w) = pulsePool w.
Proof.
  intros Hstep. revert w. induction l as [| i l IH]; intros w Hl Hw; simpl.
  - now split.
  - destruct (Hstep w i (Hl i (or_introl eq_refl)) Hw) as [H1 H2].
    destruct (IH (step w i) (fun j H => Hl j (or_intror H)) H1) as [H3 H4].
    split; [exact H3 | congruence].
Qed.

Lemma initializeConnections_ok w :
  BuiltNet kindOf (nodes w) ->
  BuiltNet kindOf (nodes (initializeConnections draws w))
  /\ pulsePool (initializeConnections draws w) = pulsePool w.
Proof.
  intros Hw. unfold initializeConnections. cbv zeta.
  pose proof Hw as [Hnd Hall].
  destruct (@fold_ok (connectSource draws (ofType Process (nodes w)))
              (fun s => kindOf s = Source) (ofType Source (nodes w)) w)
    as [H1 H2]; eauto using ofType_kind.
  { intros w0 s Hs. apply connectSource_ok; eauto using ofType_kind. }
  destruct (@fold_ok
              (connectProcess draws (ofType Process (nodes w))
                 (ofType Destination (nodes w)))
              (fun p => kindOf p = Process) (ofType Process (nodes w))
              (fold_left (connectSource draws (ofType Process (nodes w)))
                 (ofType Source (nodes w)) w))
    as [H3 H4]; eauto using ofType_kind.
  { intros w0 p Hk. apply connectProcess_ok; eauto using ofType_kind. }
  split; [exact H3 | congruence].
Qed.

End Construction.

Lemma splice1_cons_0 {A} (a : A) l : JS.splice1 0 (a :: l) = l.
Proof. reflexivity. Qed.

Lemma splice1_cons_S {A} (a : A) l i :
  JS.splice1 (S i) (a :: l) = a :: JS.splice1 i l.
Proof. reflexivity. Qed.

Lemma NoDup_splice1 {A} (l : list A) i : NoDup l -> NoDup (JS.splice1 i l).
Proof.
  revert i. induction l as [| a l IH]; intros i H.
  - destruct i; exact H.
  - inversion H as [| ? ? Hnot Hl]; subst. destruct i.
    + exact Hl.
    + rewrite splice1_cons_S. constructor; [| now apply IH].
      intro Hin. apply Hnot. now apply JSFacts.In_splice1 in Hin.
Qed.

Lemma map_splice1 {A B} (f : A -> B) l i :
  map f (JS.splice1 i l) = JS.splice1 i (map f l).
Proof.
  unfold JS.splice1. now rewrite map_app, firstn_map, skipn_map.
Qed.

Lemma Forall_splice1 {A} (P : A -> Prop) l i :
  Forall P l -> Forall P (JS.splice1 i l).
Proof.
  rewrite !Forall_forall. intros H a Ha. apply H.
  now apply JSFacts.In_splice1 in Ha.
Qed.

Section Pruning.

Variable kindOf : nat -> NodeType.

Lemma BuiltNet_remove i d ns :
  BuiltNet kindOf ns -> BuiltNet kindOf (JS.splice1 i (map (strip d) ns)).
Proof.
  intros [Hnd Hall]. split.
  - rewrite map_splice1, map_map. apply NoDup_splice1. exact Hnd.
  - apply Forall_splice1. rewrite Forall_forall in *.
    intros n Hn. apply in_map_iff in Hn. destruct Hn as [m [<- Hm]].
    apply Built_strip. now apply Hall.
Qed.

Lemma remove_loop_ok incoming k ns flag :
  BuiltNet kindOf ns ->
  BuiltNet kindOf (fst (remove_loop incoming k ns flag)).
Proof.
  revert ns flag. induction k as [| k IH]; intros ns flag H; simpl.
  - exact H.
  - destruct (nth_error ns k) as [node |]; [| now apply IH].
    destruct (_ && _); apply IH; [now apply BuiltNet_remove | exact H].
Qed.

Lemma optimize_loop_ok fuel iterations ns :
  BuiltNet kindOf ns ->
  BuiltNet kindOf (fst (optimize_loop fuel iterations ns)).
Proof.
  revert iterations ns. induction fuel as [| fuel IH]; intros it ns H; simpl.
  - exact H.
  - pose proof (@remove_loop_ok (hasIncoming ns) (length ns) ns false H) as H1.
    unfold removeUnconnectedNodes.
    destruct (remove_loop _ _ ns false) as [ns' flag]. simpl in H1.
    destruct flag; simpl; [now apply IH | exact H1].
Qed.

End Pruning.

Lemma remove_loop_true incoming k ns :
  snd (remove_loop incoming k ns true) = true.
Proof.
  revert ns. induction k as [| k IH]; intro ns; simpl.
  - reflexivity.
  - destruct (nth_error ns k); [destruct (_ && _) |]; apply IH.
Qed.

Lemma remove_loop_false incoming k ns flag :
  snd (remove_loop incoming k ns flag) = false ->
  fst (remove_loop incoming k ns flag) = ns
  /\ forall j n, (j < k)%nat -> nth_error ns j = Some n ->
       negb (NodeType_eqb (type n) Source)
       && negb (JS.includes incoming (oid n)) = false.
Proof.
  revert ns flag. induction k as [| k IH]; intros ns flag H; simpl in *.
  - split; [reflexivity | intros; lia].
  - destruct (nth_error ns k) as [node |] eqn:E.
    + destruct (_ && _) eqn:T.
      * rewrite remove_loop_true in H. discriminate.
      * destruct (IH ns flag H) as [H1 H2]. split; [exact H1 |].
        intros j n Hj Hn. destruct (Nat.eq_dec j k) as [-> | Hne].
        -- rewrite E in Hn. now injection Hn as <-.
        -- apply (H2 j); [lia | exact Hn].
    + destruct (IH ns flag H) as [H1 H2]. split; [exact H1 |].
      intros j n Hj Hn. destruct (Nat.eq_dec j k) as [-> | Hne].
      * congruence.
      * apply (H2 j); [lia | exact Hn].
Qed.

Lemma optimize_loop_converged fuel iterations ns :
  (snd (optimize_loop fuel iterations ns) < iterations + fuel)%nat ->
  forall n, In n (fst (optimize_loop fuel iterations ns)) ->
            orphan (fst (optimize_loop fuel iterations ns)) n = false.
Proof.
  revert iterations ns. induction fuel as [| fuel IH]; intros it ns; simpl.
  - intro H. lia.
  - unfold removeUnconnectedNodes.
    pose proof (@remove_loop_false (hasIncoming ns) (length ns) ns false) as Hf.
    destruct (remove_loop _ _ ns false) as [ns' flag]. simpl in Hf.
    destruct flag; simpl.
    + intro H. apply IH. lia.
    + intros _ n Hn. destruct (Hf eq_refl) as [-> Hall].
      apply In_nth_error in Hn. destruct Hn as [j Hj].
      apply (Hall j); [| exact Hj].
      apply nth_error_Some. congruence.
Qed.

Section NetworkInvariant.

Variable draws : nat -> Q.
Variable Math_sqrt : Q -> Q.

Lemma createNodes_loop_ok N width height k i w :
  map oid (nodes w) = seq 0 i ->
  Forall (Built (typeFor N)) (nodes w) ->
  map oid (nodes (createNodes_loop draws N width height k i w)) = seq 0 (i + k)
  /\ Forall (Built (typeFor N))
       (nodes (createNodes_loop draws N width height k i w))
  /\ pulsePool (createNodes_loop draws N width height k i w) = pulsePool w.
Proof.
  revert i w. induction k as [| k IH]; intros i w Hids Hall;
    cbn [createNodes_loop].
  - rewrite Nat.add_0_r. auto.
  - wsimpl.
    match goal with
    | |- context [newNode ?d ?a ?b ?c ?e ?t ?W] =>
        pose proof (newNode_spec d a b c e t W) as Hnew;
        destruct (newNode d a b c e t W) as [node w1]
    end.
    cbn [fst snd] in Hnew. wsimpl_in Hnew.
    destruct Hnew as (Ho & Ht & Hc & Hp & Hn & Hop & Hto & Hns & Hpool).
    destruct (IH (S i) (set_nodes (JS.push (nodes w1) node) w1)) as (H1 & H2 & H3).
    + wsimpl. unfold JS.push. rewrite map_app, Hns, Hids. simpl.
      rewrite Ho. symmetry. apply seq_S.
    + wsimpl. unfold JS.push. apply Forall_app. rewrite Hns. split; [exact Hall |].
      constructor; [| constructor].
      apply Built_new; auto. congruence.
    + rewrite <- Nat.add_succ_comm. repeat split; auto.
      rewrite H3. wsimpl. exact Hpool.
Qed.

Lemma wired_ok width height w :
  BuiltNet (typeFor (calculateOptimalNodeCount Math_sqrt width height))
    (nodes (wired draws Math_sqrt width height w))
  /\ pulsePool (wired draws Math_sqrt width height w) = pulsePool w.
Proof.
  unfold wired, createNodes. cbv zeta.
  set (N := calculateOptimalNodeCount Math_sqrt width height).
  destruct (@createNodes_loop_ok N width height (Z.to_nat N) 0 (set_nodes [] w))
    as (H1 & H2 & H3); [reflexivity | constructor |].
  match goal with
  | |- context [initializeConnections _ ?W] =>
      destruct (@initializeConnections_ok draws (typeFor N) W) as [H4 H5]
  end.
  - split; [| exact H2]. rewrite H1. apply seq_NoDup.
  - split; [exact H4 |]. rewrite H5, H3. reflexivity.
Qed.

Lemma createNetwork_built width height w :
  BuiltNet (typeFor (calculateOptimalNodeCount Math_sqrt width height))
    (nodes (createNetwork draws Math_sqrt width height w))
  /\ pulsePool (createNetwork draws Math_sqrt width height w) = pulsePool w.
Proof.
  unfold createNetwork, optimizeNetwork. cbv zeta. wsimpl.
  destruct (wired_ok width height w) as [H1 H2].
  split; [now apply optimize_loop_ok | exact H2].
Qed.

Lemma BuiltNet_WorldOK kindOf w :
  BuiltNet kindOf (nodes w) ->
  (length (pulsePool w) <= MAX_PULSE_COUNT)%nat ->
  WorldOK kindOf no_exemption w.
Proof.
  intros [Hnd Hall] Hp. repeat split; auto.
  revert Hall. apply Forall_impl. intros n [H _]. exact H.
Qed.

Lemma initApp_ok cw ch r :
  WorldOK (typeFor (calculateOptimalNodeCount Math_sqrt cw ch)) no_exemption
    (initApp draws Math_sqrt cw ch r).
Proof.
  unfold initApp. cbv zeta.
  apply WorldOK_simWorld; [apply sim_layout |].
  destruct (createNetwork_built cw ch (set_canvas cw ch boot)) as [H1 H2].
  apply BuiltNet_WorldOK; [exact H1 |].
  rewrite H2. simpl. unfold MAX_PULSE_COUNT. lia.
Qed.

Hypothesis draws_unit : forall n, 0 <= draws n < 1.

Lemma reachable_ok w :
  reachable draws Math_sqrt w -> exists kindOf, WorldOK kindOf no_exemption w.
Proof.
  induction 1 as [cw ch r | e w Hw [kindOf IH]].
  - eexists. apply initApp_ok.
  - exists kindOf. now apply handle_ok.
Qed.

End NetworkInvariant.

Lemma run_reachable draws Math_sqrt es w :
  reachable draws Math_sqrt w -> reachable draws Math_sqrt (run draws Math_sqrt es w).
Proof.
  revert w. induction es as [| e es IH]; intros w H; simpl.
  - exact H.
  - apply IH. now constructor.
Qed.

Lemma steady_draws_unit : forall n, 0 <= steady_draws n < 1.
Proof. intro n. unfold steady_draws. lra. Qed.

Lemma session_reachable : reachable steady_draws (sqrt_bits 20) session.
Proof. apply run_reachable. constructor. Qed.

(** ** The claims about the network *)

(** C8. In every state of a session, whatever the draws were, no node's
    [connections] refers to the node itself or holds a reference twice (and
    the nodes of the array are distinct objects). *)
Theorem connections_no_self_no_duplicate :
  forall (draws : nat -> Q) (Math_sqrt : Q -> Q),
    (forall n, 0 <= draws n < 1) ->
    forall w, reachable draws Math_sqrt w ->
    NoDup (map oid (nodes w))
    /\ forall n, In n (nodes w) ->
         ~ In (oid n) (connections n) /\ NoDup (connections n).
Proof.
  intros draws Math_sqrt Hd w Hw.
  destruct (reachable_ok Hd Hw) as [kindOf (Hnd & Hall & _)].
  split; [exact Hnd |]. intros n Hn.
  rewrite Forall_forall in Hall. destruct (Hall n Hn). now split.
Qed.

Lemma connections_no_self_no_duplicate_witness :
  NoDup (map oid (nodes session))
  /\ forall n, In n (nodes session) ->
       ~ In (oid n) (connections n) /\ NoDup (connections n).
Proof.
  exact (@connections_no_self_no_duplicate steady_draws (sqrt_bits 20)
           steady_draws_unit session session_reachable).
Defined.

(** C2, as amended.  In the node list [createNetwork] returns, every node
    that is not a source appears in the [connections] of another node of the
    list, provided [optimizeNetwork]'s loop was left because a pass removed
    nothing, that is with [iterations < MAX_ITERATIONS]. *)
Theorem pruned_nodes_have_incoming :
  forall (draws : nat -> Q) (Math_sqrt : Q -> Q) (width height : Q) (w : World),
    (pruningPasses draws Math_sqrt width height w < MAX_ITERATIONS)%nat ->
    forall n,
      In n (nodes (createNetwork draws Math_sqrt width height w)) ->
      type n <> Source ->
      exists m,
        In m (nodes (createNetwork draws Math_sqrt width height w))
        /\ oid m <> oid n /\ In (oid n) (connections m).
Proof.
  intros draws Math_sqrt width height w Hpass n Hn Ht.
  destruct (createNetwork_built draws Math_sqrt width height w) as [[_ Hall] _].
  revert Hn Hall. unfold createNetwork, optimizeNetwork. cbv zeta. wsimpl.
  intros Hn Hall.
  pose proof (@optimize_loop_converged MAX_ITERATIONS 0
                (nodes (wired draws Math_sqrt width height w)) Hpass n Hn) as Ho.
  unfold orphan in Ho. apply andb_false_iff in Ho. destruct Ho as [Ho | Ho].
  - apply negb_false_iff, NodeType_eqb_eq in Ho. contradiction.
  - apply negb_false_iff, JSFacts.includes_In in Ho.
    unfold hasIncoming in Ho. apply in_flat_map in Ho.
    destruct Ho as [m [Hm Hin]]. exists m. repeat split; auto.
    rewrite Forall_forall in Hall. destruct (Hall m Hm) as [[] _].
    intro E. rewrite <- E in Hin. contradiction.
Qed.

Lemma pruned_nodes_have_incoming_witness :
  Forall
    (fun n =>
       type n <> Source ->
       exists m,
         In m (nodes (createNetwork steady_draws (sqrt_bits 20) 800 600 boot))
         /\ oid m <> oid n /\ In (oid n) (connections m))
    (nodes (createNetwork steady_draws (sqrt_bits 20) 800 600 boot)).
Proof.
  apply Forall_forall.
  apply (@pruned_nodes_have_incoming steady_draws (sqrt_bits 20) 800 600 boot).
  assert (E : pruningPasses steady_draws (sqrt_bits 20) 800 600 boot = 1%nat)
    by (vm_compute; reflexivity).
  rewrite E. unfold MAX_ITERATIONS. lia.
Defined.

(** C2, counterexample.  With [chain_draws] the wiring holds a chain of six
    processes that no source feeds; the five passes remove the first five,
    and the sixth (node 16) stays in the list with no incoming connection. *)
Lemma pruning_bound_counterexample :
  let ns := nodes (createNetwork (draws_of chain_draws) (sqrt_bits 20) 800 600 boot) in
  forallb (fun q => JS.leb 0 q && JS.ltb q 1) chain_draws = true
  /\ pruningPasses (draws_of chain_draws) (sqrt_bits 20) 800 600 boot
     = MAX_ITERATIONS
  /\ map (fun n => (oid n, connections n)) (filter (orphan ns) ns)
     = [(16%nat, [40%nat])].
Proof. repeat split; vm_compute; reflexivity. Qed.

(** ** The claims about the simulation state *)

(** C6, as amended.  In every state of a session every source has
    [processingPulses = 0], and no counter is negative; a destination's
    counter grows with every pulse that reaches it. *)
Theorem sources_hold_no_pending_work :
  forall (draws : nat -> Q) (Math_sqrt : Q -> Q),
    (forall n, 0 <= draws n < 1) ->
    forall w, reachable draws Math_sqrt w ->
    forall n, In n (nodes w) ->
      (type n = Source -> processingPulses n = 0%Z)
      /\ (0 <= processingPulses n)%Z.
Proof.
  intros draws Math_sqrt Hd w Hw n Hn.
  destruct (reachable_ok Hd Hw) as [kindOf (_ & Hall & _)].
  rewrite Forall_forall in Hall. destruct (Hall n Hn).
  split; [| assumption]. intro Ht. apply ok_idle0. congruence.
Qed.

Lemma sources_hold_no_pending_work_witness :
  Forall
    (fun n =>
       (type n = Source -> processingPulses n = 0%Z)
       /\ (0 <= processingPulses n)%Z)
    (nodes session).
Proof.
  apply Forall_forall.
  exact (@sources_hold_no_pending_work steady_draws (sqrt_bits 20)
           steady_draws_unit session session_reachable).
Defined.

(** C6, counterexample.  After the second frame of [session] the
    destination (node 47) holds ten units of pending work. *)
Lemma destination_pending_work_counterexample :
  reachable steady_draws (sqrt_bits 20) session
  /\ map (fun n => (oid n, processingPulses n))
       (filter (fun n => NodeType_eqb (type n) Destination) (nodes session))
     = [(47%nat, 10%Z)].
Proof.
  split; [exact session_reachable | vm_compute; reflexivity].
Qed.

(** C10. In every state of a session every node's opacity lies in
    [0.3, 1] and its target opacity is 0.3 or 1. *)
Theorem opacity_in_range :
  forall (draws : nat -> Q) (Math_sqrt : Q -> Q),
    (forall n, 0 <= draws n < 1) ->
    forall w, reachable draws Math_sqrt w ->
    forall n, In n (nodes w) ->
      3 # 10 <= opacity n <= 1
      /\ (targetOpacity n = 3 # 10 \/ targetOpacity n = 1).
Proof.
  intros draws Math_sqrt Hd w Hw n Hn.
  destruct (reachable_ok Hd Hw) as [kindOf (_ & Hall & _)].
  rewrite Forall_forall in Hall. destruct (Hall n Hn). now split.
Qed.

Lemma opacity_in_range_witness :
  Forall
    (fun n =>
       3 # 10 <= opacity n <= 1
       /\ (targetOpacity n = 3 # 10 \/ targetOpacity n = 1))
    (nodes session).
Proof.
  apply Forall_forall.
  exact (@opacity_in_range steady_draws (sqrt_bits 20)
           steady_draws_unit session session_reachable).
Defined.

(** C9. In every state of a session the pool holds at most
    [MAX_PULSE_COUNT] pulses; recycling into a full pool changes nothing;
    [createPulse] with a non-empty pool returns the pool's last object with
    its fields overwritten and allocates nothing, and with an empty pool it
    allocates a new object, so a pulse is always obtained. *)
Theorem pulse_pool_bounded :
  forall (draws : nat -> Q) (Math_sqrt : Q -> Q),
    (forall n, 0 <= draws n < 1) ->
    forall w, reachable draws Math_sqrt w ->
    (length (pulsePool w) <= MAX_PULSE_COUNT)%nat
    /\ (forall p, length (pulsePool w) = MAX_PULSE_COUNT ->
                  recyclePulse p w = w)
    /\ (forall s t v, pulsePool w <> [] ->
          exists p rest,
            pulsePool w = rest ++ [p]
            /\ createPulse s t v w
               = (mkPulse (pid p) s t 0 v, set_pulsePool rest w))
    /\ (forall s t v, pulsePool w = [] ->
          createPulse s t v w
          = (mkPulse (nextPulse w) s t 0 v,
             set_nextPulse (S (nextPulse w)) w)).
Proof.
  intros draws Math_sqrt Hd w Hw.
  destruct (reachable_ok Hd Hw) as [kindOf (_ & _ & Hpool)].
  repeat split.
  - exact Hpool.
  - intros p Hfull. apply recyclePulse_full. lia.
  - intros s t v. apply createPulse_reuses.
  - intros s t v He. unfold createPulse. rewrite He. reflexivity.
Qed.

Lemma pulse_pool_bounded_witness :
  (length (pulsePool session) <= MAX_PULSE_COUNT)%nat.
Proof.
  exact (proj1 (@pulse_pool_bounded steady_draws (sqrt_bits 20)
                  steady_draws_unit session session_reachable)).
Defined.

(** ** One update of a node's pulses *)

Lemma set_at_split {A} (l : list A) k v a :
  nth_error l k = Some a ->
  JS.set_at k v l = firstn k l ++ v :: skipn (S k) l.
Proof.
  revert k. induction l as [| b l IH]; intros k H.
  - destruct k; discriminate.
  - destruct k as [| k]; simpl.
    + reflexivity.
    + simpl in H. now rewrite (IH k H).
Qed.

Lemma splice1_set_at {A} (l : list A) k v :
  JS.splice1 k (JS.set_at k v l) = JS.splice1 k l.
Proof.
  revert k. induction l as [| b l IH]; intro k.
  - destruct k; reflexivity.
  - destruct k as [| k].
    + reflexivity.
    + simpl JS.set_at. rewrite !splice1_cons_S. now rewrite IH.
Qed.

Lemma alive_geb q : alive q = negb (JS.geb (progress q) 1).
Proof. reflexivity. Qed.

Lemma arrive_oid n : oid (arrive n) = oid n.
Proof. reflexivity. Qed.

Section PulseStep.

Variable draws : nat -> Q.

Lemma send_nodes t w :
  nodes (sendRandomImpulse draws t w) = nodes w
  \/ exists pulse,
       nodes (sendRandomImpulse draws t w) = modifyNode t (emit pulse) (nodes w).
Proof.
  unfold sendRandomImpulse.
  destruct (getNode t (nodes w)) as [this |]; [| auto].
  destruct (0 <? length (connections this))%nat; [| auto]. wsimpl.
  destruct (JS.gtb (draws (drawn w)) (3 # 10)); [| auto].
  destruct (JS.at_index _ _) as [tid |]; [| auto].
  destruct (getNode tid (nodes w)) as [tn |]; [| auto].
  destruct (JS.gtb (opacity tn) (1 # 2)); [| auto].
  match goal with
  | |- context [createPulse ?a ?b ?c ?d] =>
      pose proof (createPulse_nodes a b c d) as Hn;
      destruct (createPulse a b c d) as [pulse w1]
  end.
  cbn [snd] in Hn. wsimpl_in Hn. wsimpl. right. exists pulse. now rewrite Hn.
Qed.

Lemma getNode_send_other i t w :
  i <> t ->
  getNode i (nodes (sendRandomImpulse draws t w)) = getNode i (nodes w).
Proof.
  intro Hne. destruct (send_nodes t w) as [-> | [pulse ->]]; [reflexivity |].
  apply getNode_modifyNode_other; [intro; apply emit_oid | exact Hne].
Qed.

Lemma getNode_forward_other i t w :
  i <> t -> getNode i (nodes (forward draws t w)) = getNode i (nodes w).
Proof.
  intro Hne. unfold forward.
  destruct (getNode t (nodes w)) as [tn |]; [| reflexivity].
  destruct (active tn); [| reflexivity].
  destruct (NodeType_eqb (type tn) Process); [| reflexivity].
  cbn [Math_random]. destruct (JS.gtb _ _); [| reflexivity].
  now rewrite getNode_send_other.
Qed.

Lemma pulseStep_unfold i dt k w this p :
  getNode i (nodes w) = Some this ->
  nth_error (pulses this) k = Some p ->
  pulseStep draws i dt k w =
  let w1 :=
    withNode i (fun n => set_pulses (JS.set_at k (advance dt p) (pulses n)) n) w in
  if JS.geb (progress (advance dt p)) 1 then
    withNode i (fun n => set_pulses (JS.splice1 k (pulses n)) n)
      (recyclePulse (advance dt p)
         (forward draws (target (advance dt p))
            (withNode (target (advance dt p)) arrive w1)))
  else w1.
Proof.
  intros Hget Hnth. unfold pulseStep. rewrite Hget, Hnth. reflexivity.
Qed.

Lemma pulseStep_owner i dt k w this p :
  getNode i (nodes w) = Some this ->
  nth_error (pulses this) k = Some p ->
  target p <> i ->
  exists this',
    getNode i (nodes (pulseStep draws i dt k w)) = Some this'
    /\ pulses this'
       = firstn k (pulses this)
         ++ (if alive (advance dt p) then [advance dt p] else [])
         ++ skipn (S k) (pulses this).
Proof.
  intros Hget Hnth Ht.
  rewrite (pulseStep_unfold i dt k w Hget Hnth). cbv zeta.
  rewrite alive_geb.
  assert (H1 : getNode i
                 (nodes (withNode i
                    (fun n => set_pulses (JS.set_at k (advance dt p) (pulses n)) n)
                    w))
               = Some (set_pulses (JS.set_at k (advance dt p) (pulses this)) this)).
  { wsimpl. rewrite getNode_modifyNode_same by reflexivity. now rewrite Hget. }
  destruct (JS.geb (progress (advance dt p)) 1); simpl negb; cbv iota.
  - eexists. split.
    + wsimpl. rewrite getNode_modifyNode_same by reflexivity.
      rewrite recyclePulse_nodes.
      rewrite getNode_forward_other by (simpl; congruence).
      wsimpl. rewrite getNode_modifyNode_other;
        [| intro; apply arrive_oid | simpl; congruence].
      wsimpl_in H1. rewrite H1. reflexivity.
    + simpl. now rewrite splice1_set_at.
  - eexists. split; [exact H1 |]. simpl.
    now rewrite (set_at_split _ _ _ Hnth).
Qed.

Lemma pulseStep_target i dt k w this p tn :
  getNode i (nodes w) = Some this ->
  nth_error (pulses this) k = Some p ->
  target p <> i ->
  1 <= progress (advance dt p) ->
  getNode (target p) (nodes w) = Some tn ->
  (0 <= processingPulses tn)%Z ->
  exists tn',
    getNode (target p) (nodes (pulseStep draws i dt k w)) = Some tn'
    /\ (processingPulses tn' = (processingPulses tn + 1)%Z
        \/ (type tn = Process /\ 7 # 10 < draws (drawn w)
            /\ processingPulses tn' = processingPulses tn))
    /\ (type tn <> Process \/ draws (drawn w) <= 7 # 10 ->
        processingPulses tn' = (processingPulses tn + 1)%Z).
Proof.
  intros Hget Hnth Ht Hge Htn Hpp.
  rewrite (pulseStep_unfold i dt k w Hget Hnth). cbv zeta.
  apply JSFacts.geb_ge in Hge. rewrite Hge.
  change (target (advance dt p)) with (target p).
  set (w1 := withNode i _ w).
  assert (H1 : getNode (target p) (nodes w1) = Some tn).
  { subst w1. wsimpl. now rewrite getNode_modifyNode_other by auto. }
  set (w2 := withNode (target p) arrive w1).
  assert (H2 : getNode (target p) (nodes w2) = Some (arrive tn)).
  { subst w2. wsimpl. rewrite getNode_modifyNode_same by reflexivity.
    now rewrite H1. }
  assert (Hd : drawn w2 = drawn w) by reflexivity.
  assert (H3 : exists tn',
             getNode (target p) (nodes (forward draws (target p) w2)) = Some tn'
             /\ (processingPulses tn' = (processingPulses tn + 1)%Z
                 \/ (type tn = Process /\ 7 # 10 < draws (drawn w)
                     /\ processingPulses tn' = processingPulses tn))
             /\ (type tn <> Process \/ draws (drawn w) <= 7 # 10 ->
                 processingPulses tn' = (processingPulses tn + 1)%Z)).
  { unfold forward. rewrite H2.
    change (active (arrive tn)) with true. cbv iota.
    change (type (arrive tn)) with (type tn).
    destruct (NodeType_eqb (type tn) Process) eqn:Ety.
    - apply NodeType_eqb_eq in Ety. cbn [Math_random]. rewrite Hd.
      destruct (JS.gtb (draws (drawn w)) (7 # 10)) eqn:Er.
      + apply JSFacts.gtb_gt in Er.
        destruct (send_nodes (target p) (set_drawn (S (drawn w)) w2))
          as [E | [pulse E]]; rewrite E; wsimpl.
        * exists (arrive tn). split; [exact H2 |]. split; [now left |].
          intros _. reflexivity.
        * rewrite getNode_modifyNode_same by (intro; apply emit_oid).
          rewrite H2. exists (emit pulse (arrive tn)).
          split; [reflexivity |].
          assert (Hc : processingPulses (emit pulse (arrive tn))
                       = processingPulses tn).
          { rewrite emit_processingPulses. simpl.
            destruct (0 <? processingPulses tn + 1)%Z eqn:Ez; [lia |].
            apply Z.ltb_ge in Ez. lia. }
          split; [right; auto |].
          intros [Hn | Hr]; [contradiction | lra].
      + apply JSFacts.gtb_le in Er. wsimpl.
        exists (arrive tn). split; [exact H2 |]. split; [now left |].
        intros _. reflexivity.
    - exists (arrive tn). split; [exact H2 |]. split; [now left |].
      intros _. reflexivity. }
  destruct H3 as (tn' & H3 & Hc).
  exists tn'. split; [| exact Hc].
  wsimpl. rewrite getNode_modifyNode_other by auto.
  now rewrite recyclePulse_nodes.
Qed.

(** The arrival at the target, with what the forward does to it: either
    nothing is emitted and the counter is one more, or the target, a
    process, emits one pulse and the counter is what it was. *)
Lemma pulseStep_arrival i dt k w this p tn :
  getNode i (nodes w) = Some this ->
  nth_error (pulses this) k = Some p ->
  target p <> i ->
  1 <= progress (advance dt p) ->
  getNode (target p) (nodes w) = Some tn ->
  (0 <= processingPulses tn)%Z ->
  exists tn',
    getNode (target p) (nodes (pulseStep draws i dt k w)) = Some tn'
    /\ ((pulses tn' = pulses tn
         /\ processingPulses tn' = (processingPulses tn + 1)%Z)
        \/ (type tn = Process /\ 7 # 10 < draws (drawn w)
            /\ (exists q, pulses tn' = pulses tn ++ [q])
            /\ processingPulses tn' = processingPulses tn))
    /\ (type tn <> Process \/ draws (drawn w) <= 7 # 10 ->
        pulses tn' = pulses tn
        /\ processingPulses tn' = (processingPulses tn + 1)%Z).
Proof.
  intros Hget Hnth Ht Hge Htn Hpp.
  rewrite (pulseStep_unfold i dt k w Hget Hnth). cbv zeta.
  apply JSFacts.geb_ge in Hge. rewrite Hge.
  change (target (advance dt p)) with (target p).
  set (w1 := withNode i _ w).
  assert (H1 : getNode (target p) (nodes w1) = Some tn).
  { subst w1. wsimpl. now rewrite getNode_modifyNode_other by auto. }
  set (w2 := withNode (target p) arrive w1).
  assert (H2 : getNode (target p) (nodes w2) = Some (arrive tn)).
  { subst w2. wsimpl. rewrite getNode_modifyNode_same by reflexivity.
    now rewrite H1. }
  assert (Hd : drawn w2 = drawn w) by reflexivity.
  assert (Hquiet : pulses (arrive tn) = pulses tn
                   /\ processingPulses (arrive tn)
                      = (processingPulses tn + 1)%Z)
    by (split; reflexivity).
  assert (H3 : exists tn',
             getNode (target p) (nodes (forward draws (target p) w2)) = Some tn'
             /\ ((pulses tn' = pulses tn
                  /\ processingPulses tn' = (processingPulses tn + 1)%Z)
                 \/ (type tn = Process /\ 7 # 10 < draws (drawn w)
                     /\ (exists q, pulses tn' = pulses tn ++ [q])
                     /\ processingPulses tn' = processingPulses tn))
             /\ (type tn <> Process \/ draws (drawn w) <= 7 # 10 ->
                 pulses tn' = pulses tn
                 /\ processingPulses tn' = (processingPulses tn + 1)%Z)).
  { unfold forward. rewrite H2.
    change (active (arrive tn)) with true. cbv iota.
    change (type (arrive tn)) with (type tn).
    destruct (NodeType_eqb (type tn) Process) eqn:Ety.
    - apply NodeType_eqb_eq in Ety. cbn [Math_random]. rewrite Hd.
      destruct (JS.gtb (draws (drawn w)) (7 # 10)) eqn:Er.
      + apply JSFacts.gtb_gt in Er.
        destruct (send_nodes (target p) (set_drawn (S (drawn w)) w2))
          as [E | [pulse E]]; rewrite E; wsimpl.
        * exists (arrive tn). split; [exact H2 |]. split; [now left |].
          intros _. exact Hquiet.
        * rewrite getNode_modifyNode_same by (intro; apply emit_oid).
          rewrite H2. exists (emit pulse (arrive tn)).
          split; [reflexivity |].
          assert (Hc : processingPulses (emit pulse (arrive tn))
                       = processingPulses tn).
          { rewrite emit_processingPulses. simpl.
            destruct (0 <? processingPulses tn + 1)%Z eqn:Ez; [lia |].
            apply Z.ltb_ge in Ez. lia. }
          split.
          -- right. split; [exact Ety |]. split; [exact Er |].
             split; [| exact Hc]. exists pulse. now rewrite emit_pulses.
          -- intros [Hn | Hr]; [contradiction | lra].
      + apply JSFacts.gtb_le in Er. wsimpl.
        exists (arrive tn). split; [exact H2 |]. split; [now left |].
        intros _. exact Hquiet.
    - exists (arrive tn). split; [exact H2 |]. split; [now left |].
      intros _. exact Hquiet. }
  destruct H3 as (tn' & H3 & Hc).
  exists tn'. split; [| exact Hc].
  wsimpl. rewrite getNode_modifyNode_other by auto.
  now rewrite recyclePulse_nodes.
Qed.

Lemma firstn_S_nth {A} (l : list A) k a :
  nth_error l k = Some a -> firstn (S k) l = firstn k l ++ [a].
Proof.
  revert k. induction l as [| b l IH]; intros k H.
  - destruct k; discriminate.
  - destruct k as [| k]; simpl in *.
    + now injection H as ->.
    + now rewrite (IH k H).
Qed.

Lemma updatePulses_loop_owner i dt k w this :
  getNode i (nodes w) = Some this ->
  (k <= length (pulses this))%nat ->
  (forall p, In p (pulses this) -> target p <> i) ->
  exists this',
    getNode i (nodes (updatePulses_loop draws i dt k w)) = Some this'
    /\ pulses this'
       = filter alive (map (advance dt) (firstn k (pulses this)))
         ++ skipn k (pulses this).
Proof.
  revert w this. induction k as [| k IH]; intros w this Hget Hk Ht.
  - exists this. split; [exact Hget | reflexivity].
  - cbn [updatePulses_loop].
    destruct (nth_error (pulses this) k) as [p |] eqn:Hnth;
      [| apply nth_error_None in Hnth; lia].
    assert (Htp : target p <> i) by (apply Ht; now apply nth_error_In in Hnth).
    destruct (@pulseStep_owner i dt k w this p Hget Hnth Htp)
      as (this1 & Hget1 & Hp1).
    assert (Hlen : length (firstn k (pulses this)) = k)
      by (rewrite length_firstn; lia).
    assert (Hf1 : firstn k (pulses this1) = firstn k (pulses this)).
    { rewrite Hp1. rewrite firstn_app, Hlen, Nat.sub_diag. simpl.
      rewrite app_nil_r. rewrite <- Hlen at 1. apply firstn_all. }
    assert (Hs1 : skipn k (pulses this1)
                  = (if alive (advance dt p) then [advance dt p] else [])
                    ++ skipn (S k) (pulses this)).
    { rewrite Hp1. rewrite skipn_app, Hlen, Nat.sub_diag. simpl.
      rewrite <- Hlen at 1. now rewrite skipn_all. }
    destruct (IH _ this1 Hget1) as (this' & Hget' & Hp').
    + rewrite Hp1, length_app, Hlen. lia.
    + intros q Hq. rewrite Hp1 in Hq.
      apply in_app_iff in Hq. destruct Hq as [Hq | Hq].
      * apply Ht. rewrite <- (firstn_skipn k (pulses this)).
        apply in_or_app. now left.
      * apply in_app_iff in Hq. destruct Hq as [Hq | Hq].
        -- destruct (alive (advance dt p)); [| destruct Hq].
           destruct Hq as [<- | []]. exact Htp.
        -- apply Ht. rewrite <- (firstn_skipn (S k) (pulses this)).
           apply in_or_app. now right.
    + exists this'. split; [exact Hget' |].
      rewrite Hp', Hf1, Hs1, (firstn_S_nth _ _ Hnth).
      rewrite map_app, filter_app, <- app_assoc. simpl.
      destruct (alive (advance dt p)); reflexivity.
Qed.

End PulseStep.

Lemma fresh_advance dt p :
  0 <= dt -> 0 < speed p -> fresh p -> alive (advance dt p) = true ->
  fresh (advance dt p).
Proof.
  intros Hdt Hs [H0 H1] Ha. pose proof (advance_progress p Hdt Hs) as Hadv.
  unfold alive in Ha. apply JSFacts.ltb_lt in Ha.
  unfold fresh in *. simpl in *. lra.
Qed.

(** C4, as amended.  (1) In every state of a session every pulse a node
    holds has progress in [0,1), a positive speed and a target other than
    the node.  (2) One [updatePulses(deltaTime)] of such a node, with
    [deltaTime >= 0], never lowers a progress, and leaves the node holding
    exactly its pulses, advanced, that are still below 1, in their order: a
    pulse that reaches 1 is removed in that very step.  (3) The arrival of
    a pulse adds exactly 1 to the target's [processingPulses], unless the
    target is a process that forwards at once ([Math.random() > 0.7] and
    [sendRandomImpulse] emits), which takes the 1 off again within the same
    step: after the step either the target holds the pulses it held and its
    counter is one more, or it is a process, the draw exceeded 0.7, it
    holds one pulse more and its counter is what it was. *)
Theorem updatePulses_spec :
  forall (draws : nat -> Q) (Math_sqrt : Q -> Q),
    ((forall n, 0 <= draws n < 1) ->
     forall w, reachable draws Math_sqrt w ->
     forall n, In n (nodes w) ->
       getNode (oid n) (nodes w) = Some n
       /\ forall p, In p (pulses n) ->
            target p <> oid n /\ 0 < speed p /\ fresh p)
    /\ (forall (i : nat) (dt : Q) (w : World) (this : Node),
          getNode i (nodes w) = Some this ->
          0 <= dt ->
          (forall p, In p (pulses this) ->
             target p <> i /\ 0 < speed p /\ fresh p) ->
          (forall p, In p (pulses this) ->
             progress p <= progress (advance dt p))
          /\ (exists this',
                getNode i (nodes (updatePulses draws i dt w)) = Some this'
                /\ pulses this'
                   = filter alive (map (advance dt) (pulses this))
                /\ Forall fresh (pulses this'))
          /\ (forall k p tn,
                nth_error (pulses this) k = Some p ->
                1 <= progress (advance dt p) ->
                getNode (target p) (nodes w) = Some tn ->
                (0 <= processingPulses tn)%Z ->
                exists tn',
                  getNode (target p) (nodes (pulseStep draws i dt k w))
                  = Some tn'
                  /\ ((pulses tn' = pulses tn
                       /\ processingPulses tn' = (processingPulses tn + 1)%Z)
                      \/ (type tn = Process /\ 7 # 10 < draws (drawn w)
                          /\ (exists q, pulses tn' = pulses tn ++ [q])
                          /\ processingPulses tn' = processingPulses tn))
                  /\ (type tn <> Process \/ draws (drawn w) <= 7 # 10 ->
                      pulses tn' = pulses tn
                      /\ processingPulses tn' = (processingPulses tn + 1)%Z))).
Proof.
  intros draws Math_sqrt. split.
  - intros Hd w Hw n Hn.
    destruct (reachable_ok Hd Hw) as [kindOf (Hnd & Hall & _)].
    split; [now apply getNode_unique |].
    rewrite Forall_forall in Hall. destruct (Hall n Hn).
    intros p Hp. destruct (ok_pulses0 p Hp) as [Hs Ht]. repeat split.
    + intro E. rewrite E in Ht. contradiction.
    + exact Hs.
    + apply In_nth_error in Hp. destruct Hp as [k Hk].
      destruct (ok_fresh0 k p Hk) as [[] | Hf]; apply Hf.
    + apply In_nth_error in Hp. destruct Hp as [k Hk].
      destruct (ok_fresh0 k p Hk) as [[] | Hf]; apply Hf.
  - intros i dt w this Hget Hdt Hps. repeat split.
    + intros p Hp. apply advance_progress; [exact Hdt | now apply Hps].
    + destruct (@updatePulses_loop_owner draws i dt (length (pulses this)) w
                  this Hget (le_n _)) as (this' & Hget' & Hp').
      { intros p Hp. now apply Hps. }
      exists this'. unfold updatePulses. rewrite Hget.
      rewrite firstn_all, skipn_all, app_nil_r in Hp'.
      split; [exact Hget' |]. split; [exact Hp' |].
      rewrite Hp'. apply Forall_forall. intros q Hq.
      apply filter_In in Hq. destruct Hq as [Hq Ha].
      apply in_map_iff in Hq. destruct Hq as [p [<- Hp]].
      destruct (Hps p Hp) as (_ & Hs & Hf). now apply fresh_advance.
    + intros k p tn Hnth Hge Htn Hpp.
      apply (@pulseStep_arrival draws i dt k w this p tn); auto.
      apply Hps. now apply nth_error_In in Hnth.
Qed.

Lemma updatePulses_spec_witness :
  (exists this',
     getNode 0 (nodes (updatePulses steady_draws 0 (16667 # 1000) arriving_world))
     = Some this'
     /\ pulses this' = []
     /\ Forall fresh (pulses this'))
  /\ (exists tn',
        getNode 1 (nodes (pulseStep steady_draws 0 (16667 # 1000) 0 arriving_world))
        = Some tn'
        /\ (exists q, pulses tn' = [q])
        /\ processingPulses tn' = 0%Z).
Proof.
  assert (Hdt : 0 <= 16667 # 1000) by lra.
  assert (Hps : forall p,
            In p [mkPulse 0 0 1 (99 # 100) (2 # 100)] ->
            target p <> 0%nat /\ 0 < speed p /\ fresh p).
  { intros p [<- | []]. unfold fresh. simpl.
    repeat split; try lra. discriminate. }
  destruct (proj2 (updatePulses_spec steady_draws (sqrt_bits 20))
              0%nat (16667 # 1000) arriving_world _ eq_refl Hdt Hps)
    as (_ & Hrem & Harr).
  split; [exact Hrem |].
  assert (Hge : 1 <= progress (advance (16667 # 1000)
                                 (mkPulse 0 0 1 (99 # 100) (2 # 100))))
    by (vm_compute; discriminate).
  assert (Hpp : (0 <= 0)%Z) by lia.
  destruct (Harr 0%nat (mkPulse 0 0 1 (99 # 100) (2 # 100))
              (mkNode 1 200 100 10 Process [2%nat] [] 0 true 1 1 0 0 1000
                 false false 0 0)
              eq_refl Hge eq_refl Hpp)
    as (tn' & Hget & [[Hp _] | (_ & _ & Hq & Hc)] & _).
  - exfalso. vm_compute in Hget. injection Hget as <-. discriminate Hp.
  - exists tn'. split; [exact Hget |]. split; [exact Hq | exact Hc].
Defined.

(** C4, counterexample.  In [arriving_world] the pulse of node 0 reaches
    its target, process 1, and is removed; the process forwards at once, and
    its counter is 0 before the step and 0 after it. *)
Lemma arrival_counter_counterexample :
  option_map processingPulses (getNode 1 (nodes arriving_world)) = Some 0%Z
  /\ option_map (fun n => length (pulses n)) (getNode 0 (nodes arriving_world))
     = Some 1%nat
  /\ option_map (fun n => length (pulses n))
       (getNode 0
          (nodes (updatePulses steady_draws 0 (16667 # 1000) arriving_world)))
     = Some 0%nat
  /\ option_map processingPulses
       (getNode 1
          (nodes (updatePulses steady_draws 0 (16667 # 1000) arriving_world)))
     = Some 0%Z
  /\ option_map (fun n => map target (pulses n))
       (getNode 1
          (nodes (updatePulses steady_draws 0 (16667 # 1000) arriving_world)))
     = Some [2%nat].
Proof. repeat split; vm_compute; reflexivity. Qed.

(** ** The layout pass on a dragged node *)

(** C1, the code at the failing input.  A gentle layout pass over a dragged
    node multiplies its velocity by 0.3 (the snapshot, the zeroing and the
    blend run for every node), and [enforceBoundaries] moves a node dragged
    to [x = radius] back to [x = 2 * radius], halving its speed. *)
Theorem layout_pass_writes_dragged_node :
  kinematics [dragged_mid] = [(true, (400, 300), (10, -(5)))]
  /\ kinematics (applyForceLayout (sqrt_bits 20) [dragged_mid] 800 600 None (1 # 2))
     = [(true, (400, 300), (3, -(3 # 2)))]
  /\ kinematics [dragged_left] = [(true, (10, 300), (10, -(5)))]
  /\ kinematics (applyForceLayout (sqrt_bits 20) [dragged_left] 800 600 None (1 # 2))
     = [(true, (20, 300), (3 # 2, -(3 # 2)))].
Proof. repeat split; vm_compute; reflexivity. Qed.

(** ** The older copy at strength zero *)

(** The older copy of [applyForceLayout] is no no-op at [strength = 0]: all
    forces vanish, and the blend leaves 0.3 times the old velocity, while
    the copy [main.js] imports returns the array untouched. *)
Lemma legacy_zero_strength_blends :
  kinematics [drifting] = [(false, (400, 300), (10, -(5)))]
  /\ kinematics (Legacy.applyForceLayout (sqrt_bits 20) [drifting] 800 600 None 0)
     = [(false, (400, 300), (3, -(3 # 2)))]
  /\ kinematics (applyForceLayout (sqrt_bits 20) [drifting] 800 600 None 0)
     = [(false, (400, 300), (10, -(5)))].
Proof. repeat split; vm_compute; reflexivity. Qed.

(** ** What the layout pass does to a dragged node, in general *)

Lemma Forall2_nth_error {A B} (R : A -> B -> Prop) l l' k a :
  Forall2 R l l' -> nth_error l k = Some a ->
  exists b, nth_error l' k = Some b /\ R a b.
Proof.
  intro H. revert k. induction H as [| a0 b0 l l' Hab _ IH]; intros k Hk.
  - destruct k; discriminate.
  - destruct k as [| k]; simpl in *.
    + injection Hk as <-. eauto.
    + apply IH. exact Hk.
Qed.

Lemma Forall2_In_r {A B} (R : A -> B -> Prop) l l' b :
  Forall2 R l l' -> In b l' -> exists a, In a l /\ R a b.
Proof.
  induction 1 as [| a0 b0 l l' Hab _ IH]; intros Hb.
  - destruct Hb.
  - destruct Hb as [<- | Hb].
    + exists a0. split; [now left | exact Hab].
    + destruct (IH Hb) as [a [Ha HR]]. exists a. split; [now right | exact HR].
Qed.

Lemma sameBody_refl n : sameBody n n.
Proof. repeat split. Qed.

Lemma sameBody_trans a b c : sameBody a b -> sameBody b c -> sameBody a c.
Proof.
  unfold sameBody. intros (?&?&?&?&?&?) (?&?&?&?&?&?). repeat split; congruence.
Qed.

Lemma quiet_refl n : quiet n n.
Proof. split; [apply sameBody_refl | auto]. Qed.

Lemma quiet_trans a b c : quiet a b -> quiet b c -> quiet a c.
Proof.
  intros [H1 H2] [H3 H4]. split; [eapply sameBody_trans; eassumption | auto].
Qed.

Lemma quiets_refl ns : Forall2 quiet ns ns.
Proof. induction ns; constructor; auto using quiet_refl. Qed.

Lemma quiets_trans a b c :
  Forall2 quiet a b -> Forall2 quiet b c -> Forall2 quiet a c.
Proof.
  intro H. revert c. induction H; intros c Hc; inversion Hc; subst;
    constructor; eauto using quiet_trans.
Qed.

Lemma quiets_map_oid ns ns' : Forall2 quiet ns ns' -> map oid ns' = map oid ns.
Proof.
  induction 1 as [| a b ns ns' [(Ho & _) _] _ IH]; simpl; [reflexivity |].
  now rewrite Ho, IH.
Qed.

(** A write to a node that is not dragged is quiet. *)
Lemma quiet_free f n :
  sameBody n (f n) -> isDragged n = false -> quiet n (f n).
Proof.
  intros Hb Hd. split; [exact Hb |]. intros _ Hd'.
  destruct Hb as (_ & _ & _ & _ & E & _). congruence.
Qed.

Lemma quiets_modifyAt a f ns :
  (forall n, sameBody n (f n)) ->
  free_at ns a ->
  Forall2 quiet ns (modifyAt a f ns).
Proof.
  intros Hf. revert a. induction ns as [| n ns IH]; intros a Ha.
  - destruct a; constructor.
  - destruct a as [| a]; simpl.
    + constructor; [| apply quiets_refl].
      apply quiet_free; [apply Hf | now apply Ha].
    + constructor; [apply quiet_refl | apply IH; exact Ha].
Qed.

Lemma quiets_modifyNode c f ns :
  (forall n, sameBody n (f n)) ->
  (forall n, In n ns -> oid n = c -> isDragged n = false) ->
  Forall2 quiet ns (modifyNode c f ns).
Proof.
  intros Hf. induction ns as [| n ns IH]; intros Hc; simpl.
  - constructor.
  - constructor.
    + destruct (Nat.eqb (oid n) c) eqn:E; [| apply quiet_refl].
      apply Nat.eqb_eq in E. apply quiet_free; [apply Hf |].
      apply Hc; [now left | exact E].
    + apply IH. intros m Hm. apply Hc. now right.
Qed.

Lemma body_add_v a b n : sameBody n (add_v a b n).
Proof. repeat split. Qed.

Lemma body_sub_v a b n : sameBody n (sub_v a b n).
Proof. repeat split. Qed.

(** Decides [sameBody n (f n)] for a function that writes velocities only. *)
Ltac body_node :=
  intro; unfold sameBody; cbv zeta;
  repeat (match goal with
          | |- context [if ?c then _ else _] => destruct c
          end; cbn [oid x y radius isDragged connections set_vx set_vy]);
  repeat split; reflexivity.

Lemma body_applyContentRepulsion s r c :
  forall n, sameBody n (applyContentRepulsion s r c n).
Proof. unfold applyContentRepulsion, add_v. body_node. Qed.

Lemma body_applyEdgeForces w h c : forall n, sameBody n (applyEdgeForces w h c n).
Proof. unfold applyEdgeForces. body_node. Qed.

Lemma body_limitVelocity s c : forall n, sameBody n (limitVelocity s c n).
Proof. unfold limitVelocity. body_node. Qed.

Lemma quiet_limitVelocity s c n : quiet n (limitVelocity s c n).
Proof.
  split; [apply body_limitVelocity |].
  intros Hr Hd.
  assert (Hd0 : isDragged n = true).
  { destruct (body_limitVelocity s c n) as (_ & _ & _ & _ & E & _). congruence. }
  destruct (Hr Hd0) as [Hx Hy]. unfold limitVelocity. cbv zeta.
  destruct (JS.gtb _ _); cbn [vx vy set_vx set_vy].
  - generalize (maxDisplacement c / s (vx n * vx n + vy n * vy n)). intro k.
    rewrite Hx, Hy. split; ring.
  - rewrite Hx, Hy. split; ring.
Qed.

Lemma Forall2_nth_error_r {A B} (R : A -> B -> Prop) l l' k b :
  Forall2 R l l' -> nth_error l' k = Some b ->
  exists a, nth_error l k = Some a /\ R a b.
Proof.
  intro H. revert k. induction H as [| a0 b0 l l' Hab _ IH]; intros k Hk.
  - destruct k; discriminate.
  - destruct k as [| k]; simpl in *.
    + injection Hk as <-. eauto.
    + apply IH. exact Hk.
Qed.

Lemma free_at_quiets ns ns' a :
  Forall2 quiet ns ns' -> free_at ns a -> free_at ns' a.
Proof.
  intros H Ha n' Hn'. destruct (Forall2_nth_error_r _ H Hn') as [n [Hn [Hb _]]].
  destruct Hb as (_ & _ & _ & _ & E & _). rewrite E. now apply Ha.
Qed.

Lemma NoDup_quiets ns ns' :
  Forall2 quiet ns ns' -> NoDup (map oid ns) -> NoDup (map oid ns').
Proof. intro H. now rewrite (quiets_map_oid H). Qed.

(** A loop whose steps are quiet under an invariant that quiet steps keep. *)
Lemma quiets_fold {A} (Inv : list Node -> Prop)
  (step : list Node -> A -> list Node) (l : list A) ns :
  (forall ns ns', Forall2 quiet ns ns' -> Inv ns -> Inv ns') ->
  (forall ns a, Inv ns -> Forall2 quiet ns (step ns a)) ->
  Inv ns -> Forall2 quiet ns (fold_left step l ns).
Proof.
  intros Hinv Hstep. revert ns. induction l as [| a l IH]; intros ns H; simpl.
  - apply quiets_refl.
  - eapply quiets_trans; [apply (Hstep ns a H) |].
    apply IH. eapply Hinv; [apply (Hstep ns a H) | exact H].
Qed.

Section DraggedNodes.

Variable Math_sqrt : Q -> Q.
Variable config : Config.

Lemma quiets_repel a b ns :
  free_at ns a -> Forall2 quiet ns (repel Math_sqrt config a b ns).
Proof.
  intro Ha. unfold repel.
  destruct (nth_error ns a) as [nodeA |] eqn:EA; [| apply quiets_refl].
  destruct (nth_error ns b) as [nodeB |] eqn:EB; [| apply quiets_refl].
  destruct (isDragged nodeB) eqn:Hd; [apply quiets_refl |]. cbv zeta.
  destruct (JS.ltb _ _); [| apply quiets_refl].
  match goal with
  | |- Forall2 quiet ns (modifyAt b ?g (modifyAt a ?f ns)) =>
      assert (H1 : Forall2 quiet ns (modifyAt a f ns))
        by (apply quiets_modifyAt; [apply body_sub_v | exact Ha]);
      eapply quiets_trans; [exact H1 |];
      apply quiets_modifyAt; [apply body_add_v |]
  end.
  apply (free_at_quiets H1). intros n Hn. congruence.
Qed.

Lemma quiets_applyNodeRepulsion_loop a k b ns :
  free_at ns a ->
  Forall2 quiet ns (applyNodeRepulsion_loop Math_sqrt config a k b ns).
Proof.
  revert b ns. induction k as [| k IH]; intros b ns Ha; simpl.
  - apply quiets_refl.
  - pose proof (quiets_repel b Ha) as H1.
    eapply quiets_trans; [exact H1 |]. apply IH.
    now apply (free_at_quiets H1).
Qed.

Lemma quiets_forcesOn w h r ns a :
  Forall2 quiet ns (forcesOn Math_sqrt w h r config ns a).
Proof.
  unfold forcesOn.
  destruct (nth_error ns a) as [nodeA |] eqn:EA; [| apply quiets_refl].
  destruct (isDragged nodeA) eqn:Hd; [apply quiets_refl |]. cbv zeta.
  assert (Ha : free_at ns a) by (intros n Hn; congruence).
  match goal with
  | |- Forall2 quiet ns (applyNodeRepulsion _ _ _ (modifyAt a ?g (modifyAt a ?f ns))) =>
      assert (H1 : Forall2 quiet ns (modifyAt a f ns))
        by (apply quiets_modifyAt; [apply body_applyContentRepulsion | exact Ha]);
      assert (H2 : Forall2 quiet (modifyAt a f ns) (modifyAt a g (modifyAt a f ns)))
        by (apply quiets_modifyAt;
            [apply body_applyEdgeForces | apply (free_at_quiets H1 Ha)])
  end.
  eapply quiets_trans; [exact H1 |]. eapply quiets_trans; [exact H2 |].
  apply quiets_applyNodeRepulsion_loop.
  apply (free_at_quiets H2). apply (free_at_quiets H1 Ha).
Qed.

Lemma quiets_attract a ns connected :
  free_at ns a -> NoDup (map oid ns) ->
  Forall2 quiet ns (attract Math_sqrt config a ns connected).
Proof.
  intros Ha Hnd. unfold attract.
  destruct (nth_error ns a) as [node |] eqn:EA; [| apply quiets_refl].
  destruct (getNode connected ns) as [c |] eqn:EC; [| apply quiets_refl].
  destruct (isDragged c) eqn:Hd; [apply quiets_refl |]. cbv zeta.
  match goal with
  | |- Forall2 quiet ns (modifyNode connected ?g (modifyAt a ?f ns)) =>
      assert (H1 : Forall2 quiet ns (modifyAt a f ns))
        by (apply quiets_modifyAt; [apply body_add_v | exact Ha]);
      eapply quiets_trans; [exact H1 |];
      apply quiets_modifyNode; [apply body_sub_v |]
  end.
  intros n Hn Ho.
  destruct (Forall2_In_r _ H1 Hn) as [m [Hm [Hb _]]].
  destruct Hb as (Eo & _ & _ & _ & Ed & _).
  apply getNode_Some in EC. destruct EC as [Hc Hoc].
  assert (m = c) by (apply (NoDup_oid_eq ns); auto; congruence).
  subst m. congruence.
Qed.

Lemma quiets_attractAll ns a :
  NoDup (map oid ns) -> Forall2 quiet ns (attractAll Math_sqrt config ns a).
Proof.
  intro Hnd. unfold attractAll.
  destruct (nth_error ns a) as [node |] eqn:EA; [| apply quiets_refl].
  destruct (isDragged node) eqn:Hd; [apply quiets_refl |].
  apply (quiets_fold (fun ns => free_at ns a /\ NoDup (map oid ns))).
  - intros l l' H [H1 H2]. split;
      [now apply (free_at_quiets H) | now apply (NoDup_quiets H)].
  - intros l c [H1 H2]. now apply quiets_attract.
  - split; [intros n Hn; congruence | exact Hnd].
Qed.

Lemma quiets_applyForces w h r ns :
  NoDup (map oid ns) -> Forall2 quiet ns (applyForces Math_sqrt w h r config ns).
Proof.
  intro Hnd. unfold applyForces, applyConnectionAttractions. cbv zeta.
  assert (H1 : Forall2 quiet ns
                 (fold_left (forcesOn Math_sqrt w h r config)
                    (seq 0 (length ns)) ns)).
  { apply (quiets_fold (fun _ => True)); auto.
    intros l a _. apply quiets_forcesOn. }
  eapply quiets_trans; [exact H1 |].
  apply (quiets_fold (fun ns => NoDup (map oid ns))).
  - intros l l' H. now apply NoDup_quiets.
  - intros l a H. now apply quiets_attractAll.
  - now apply (NoDup_quiets H1).
Qed.

Lemma quiets_limitVelocities ns :
  Forall2 quiet ns (limitVelocities Math_sqrt config ns).
Proof.
  unfold limitVelocities. induction ns; simpl; constructor; auto.
  apply quiet_limitVelocity.
Qed.

Lemma quiets_simulate w h r k ns :
  NoDup (map oid ns) -> Forall2 quiet ns (simulate Math_sqrt w h r config k ns).
Proof.
  revert ns. induction k as [| k IH]; intros ns Hnd; simpl.
  - apply quiets_refl.
  - pose proof (@quiets_applyForces w h r ns Hnd) as H1.
    pose proof (quiets_limitVelocities (applyForces Math_sqrt w h r config ns))
      as H2.
    eapply quiets_trans; [exact H1 |]. eapply quiets_trans; [exact H2 |].
    apply IH. apply (NoDup_quiets H2). now apply (NoDup_quiets H1).
Qed.

End DraggedNodes.

Lemma find_original ns n0 :
  NoDup (map oid ns) -> In n0 ns ->
  find (fun e => Nat.eqb (fst e) (oid n0))
    (map (fun n => (oid n, (vx n, vy n))) ns)
  = Some (oid n0, (vx n0, vy n0)).
Proof.
  induction ns as [| a ns IH]; intros Hnd Hin.
  - destruct Hin.
  - simpl. destruct (Nat.eqb (oid a) (oid n0)) eqn:E.
    + apply Nat.eqb_eq in E.
      assert (a = n0) by (apply (NoDup_oid_eq (a :: ns)); simpl; auto).
      now subst.
    + apply Nat.eqb_neq in E. destruct Hin as [-> | Hin]; [congruence |].
      inversion Hnd; subst. now apply IH.
Qed.

Lemma enforceBoundaries_compat w h a b :
  x a = x b -> y a = y b -> radius a = radius b ->
  vx a == vx b -> vy a == vy b ->
  x (enforceBoundaries w h a) = x (enforceBoundaries w h b)
  /\ y (enforceBoundaries w h a) = y (enforceBoundaries w h b)
  /\ vx (enforceBoundaries w h a) == vx (enforceBoundaries w h b)
  /\ vy (enforceBoundaries w h a) == vy (enforceBoundaries w h b).
Proof.
  intros Hx Hy Hr Hvx Hvy. unfold enforceBoundaries. cbv zeta.
  rewrite Hr, Hx.
  destruct (JS.ltb (x b) (radius b * 2));
    cbn [x y radius vx vy set_x set_y set_vx set_vy]; rewrite ?Hx, ?Hy, ?Hr;
    destruct (JS.gtb _ (w - radius b * 2));
    cbn [x y radius vx vy set_x set_y set_vx set_vy]; rewrite ?Hx, ?Hy, ?Hr;
    destruct (JS.ltb (y b) (radius b * 2));
    cbn [x y radius vx vy set_x set_y set_vx set_vy]; rewrite ?Hx, ?Hy, ?Hr;
    destruct (JS.gtb _ (h - radius b * 2));
    cbn [x y radius vx vy set_x set_y set_vx set_vy];
    repeat split; try reflexivity; try assumption;
    rewrite ?Hvx, ?Hvy; reflexivity.
Qed.

Lemma enforceBoundaries_position w h a b :
  x a = x b -> y a = y b -> radius a = radius b ->
  x (enforceBoundaries w h a) = x (enforceBoundaries w h b)
  /\ y (enforceBoundaries w h a) = y (enforceBoundaries w h b).
Proof.
  intros Hx Hy Hr. unfold enforceBoundaries. cbv zeta.
  rewrite Hr, Hx.
  destruct (JS.ltb (x b) (radius b * 2));
    cbn [x y radius vx vy set_x set_y set_vx set_vy]; rewrite ?Hx, ?Hy, ?Hr;
    destruct (JS.gtb _ (w - radius b * 2));
    cbn [x y radius vx vy set_x set_y set_vx set_vy]; rewrite ?Hx, ?Hy, ?Hr;
    destruct (JS.ltb (y b) (radius b * 2));
    cbn [x y radius vx vy set_x set_y set_vx set_vy]; rewrite ?Hx, ?Hy, ?Hr;
    destruct (JS.gtb _ (h - radius b * 2));
    cbn [x y radius vx vy set_x set_y set_vx set_vy];
    split; try reflexivity; try assumption.
Qed.

Lemma enforceBoundaries_isDragged w h n :
  isDragged (enforceBoundaries w h n) = isDragged n.
Proof.
  unfold enforceBoundaries. cbv zeta.
  repeat (match goal with
          | |- context [if ?c then _ else _] => destruct c
          end; cbn [isDragged set_x set_y set_vx set_vy]);
  reflexivity.
Qed.

(** What a layout pass of positive strength does to a dragged node, for
    every array of distinct nodes: the node's velocity is replaced by 0.3
    times what it was, and [enforceBoundaries] is then applied to it. *)
Theorem layout_pass_on_dragged_node :
  forall (Math_sqrt : Q -> Q) (ns : list Node) (width height : Q)
         (contentRect : option Rect) (strength : Q) (k : nat) (n0 : Node),
    0 < strength ->
    NoDup (map oid ns) ->
    nth_error ns k = Some n0 ->
    isDragged n0 = true ->
    exists n',
      nth_error (applyForceLayout Math_sqrt ns width height contentRect strength) k
      = Some n'
      /\ isDragged n' = true
      /\ x n' = x (enforceBoundaries width height n0)
      /\ y n' = y (enforceBoundaries width height n0)
      /\ vx n' ==
         vx (enforceBoundaries width height
               (set_vy (vy n0 * (3 # 10)) (set_vx (vx n0 * (3 # 10)) n0)))
      /\ vy n' ==
         vy (enforceBoundaries width height
               (set_vy (vy n0 * (3 # 10)) (set_vx (vx n0 * (3 # 10)) n0))).
Proof.
  intros Math_sqrt ns width height contentRect strength k n0 Hs Hnd Hk Hd.
  unfold applyForceLayout.
  apply JSFacts.leb_gt in Hs. rewrite Hs. cbv zeta.
  set (zero := fun n => set_vy 0 (set_vx 0 n)).
  set (rect := match contentRect with Some r => r | None => _ end).
  set (config := layoutConfig width height strength).
  assert (Hnd1 : NoDup (map oid (map zero ns))) by (now rewrite map_map).
  pose proof (@quiets_simulate Math_sqrt config width height rect
                (iterations config) (map zero ns) Hnd1) as Hq.
  assert (Hk1 : nth_error (map zero ns) k = Some (zero n0))
    by (now apply map_nth_error).
  destruct (Forall2_nth_error _ Hq Hk1) as [n2 [Hk2 [Hb Hrest]]].
  destruct Hb as (Ho & Hx & Hy & Hr & Hdr & _). simpl in Ho, Hx, Hy, Hr, Hdr.
  assert (Hrest2 : vx n2 == 0 /\ vy n2 == 0).
  { apply Hrest; [| congruence]. intros _. simpl. split; reflexivity. }
  destruct Hrest2 as [Hvx Hvy].
  exists (blend (map (fun n => (oid n, (vx n, vy n))) ns) width height n2).
  split; [now apply map_nth_error |].
  unfold blend. cbv zeta. rewrite Ho.
  rewrite (find_original ns n0 Hnd (nth_error_In _ _ Hk)).
  split; [rewrite enforceBoundaries_isDragged; simpl; congruence |].
  match goal with
  | |- context [enforceBoundaries _ _ ?a] =>
      lazymatch a with
      | set_vy _ (set_vx _ n2) =>
          destruct (@enforceBoundaries_compat width height a
                      (set_vy (vy n0 * (3 # 10)) (set_vx (vx n0 * (3 # 10)) n0)))
            as (E1 & E2 & E3 & E4); simpl; auto
      end
  end.
  - rewrite Hvx. ring.
  - rewrite Hvy. ring.
  - repeat split; auto.
    + rewrite E1.
      apply (@enforceBoundaries_position width height _ n0); reflexivity.
    + rewrite E2.
      apply (@enforceBoundaries_position width height _ n0); reflexivity.
Qed.

Lemma layout_pass_on_dragged_node_witness :
  exists n',
    nth_error (applyForceLayout (sqrt_bits 20) [dragged_left] 800 600 None (1 # 2)) 0
    = Some n'
    /\ isDragged n' = true
    /\ x n' = x (enforceBoundaries 800 600 dragged_left)
    /\ y n' = y (enforceBoundaries 800 600 dragged_left)
    /\ vx n' ==
       vx (enforceBoundaries 800 600
             (set_vy (vy dragged_left * (3 # 10))
                (set_vx (vx dragged_left * (3 # 10)) dragged_left)))
    /\ vy n' ==
       vy (enforceBoundaries 800 600
             (set_vy (vy dragged_left * (3 # 10))
                (set_vx (vx dragged_left * (3 # 10)) dragged_left))).
Proof.
  apply (@layout_pass_on_dragged_node (sqrt_bits 20) [dragged_left] 800 600
           None (1 # 2) 0%nat dragged_left).
  - reflexivity.
  - repeat constructor. simpl. tauto.
  - reflexivity.
  - reflexivity.
Defined.

(** * Proofs of the further properties *)

(** ** The pulse pool, connections and the boundary clamp *)

(** X1.  A pulse recycled into a pool that has room (fewer than
    [MAX_PULSE_COUNT] objects) is the very object the next [createPulse]
    hands out, with its four fields overwritten ([progress] is 0 again),
    and the pool is then what it was before the recycling. *)
Theorem recycled_pulse_is_reused :
  forall (p : Pulse) (s t : nat) (v : Q) (w : World),
    (length (pulsePool w) < MAX_PULSE_COUNT)%nat ->
    createPulse s t v (recyclePulse p w) = (mkPulse (pid p) s t 0 v, w).
Proof.
  intros p s t v w H. unfold recyclePulse.
  apply Nat.ltb_lt in H. rewrite H.
  unfold createPulse. cbn [pulsePool set_pulsePool].
  rewrite JSFacts.pop_push. destruct w; reflexivity.
Qed.

Lemma recycled_pulse_is_reused_witness :
  createPulse 0 1 (1 # 100) (recyclePulse (mkPulse 7 3 4 1 (1 # 50)) boot)
  = (mkPulse 7 0 1 0 (1 # 100), boot).
Proof.
  apply recycled_pulse_is_reused. unfold MAX_PULSE_COUNT. simpl. lia.
Defined.

(** X2.  [connect] is idempotent: after it the target is connected, the
    earlier connections keep their places, at most one is appended, and
    connecting a target that is already connected changes nothing. *)
Theorem connect_idempotent :
  forall (t : nat) (n : Node),
    connect t (connect t n) = connect t n
    /\ In t (connections (connect t n))
    /\ (exists l, connections (connect t n) = connections n ++ l
                  /\ (length l <= 1)%nat)
    /\ (In t (connections n) -> connect t n = n).
Proof.
  intros t n. unfold connect.
  destruct (JS.includes (connections n) t) eqn:E; simpl.
  - rewrite E. simpl. apply JSFacts.includes_In in E.
    repeat split; auto. exists []. rewrite app_nil_r. split; [reflexivity | simpl; lia].
  - assert (E' : JS.includes (JS.push (connections n) t) t = true).
    { apply JSFacts.includes_In. unfold JS.push. apply in_or_app. right. now left. }
    rewrite E'. simpl. repeat split.
    + unfold JS.push. apply in_or_app. right. now left.
    + exists [t]. split; [reflexivity | simpl; lia].
    + intro H. apply JSFacts.includes_not_In in E. contradiction.
Qed.

Lemma Qabs_half a v :
  Qabs a <= Qabs v -> Qabs (Qabs a * (5 # 10)) <= Qabs v.
Proof.
  intro H. pose proof (Qabs_nonneg a).
  set (b := Qabs a) in *. set (c := Qabs v) in *.
  apply Qabs_case; intros; lra.
Qed.

Lemma Qabs_half_opp a v :
  Qabs a <= Qabs v -> Qabs (- Qabs a * (5 # 10)) <= Qabs v.
Proof.
  intro H. pose proof (Qabs_nonneg a).
  set (b := Qabs a) in *. set (c := Qabs v) in *.
  apply Qabs_case; intros; lra.
Qed.

Lemma enforceBoundaries_radius width height n :
  radius (enforceBoundaries width height n) = radius n.
Proof.
  unfold enforceBoundaries. cbv zeta.
  repeat (match goal with
          | |- context [if ?c then _ else _] => destruct c
          end; cbn [radius set_x set_y set_vx set_vy]);
  reflexivity.
Qed.

Lemma enforceBoundaries_within width height n :
  radius n * 4 <= width -> radius n * 4 <= height ->
  within_bounds width height (enforceBoundaries width height n).
Proof.
  intros Hw Hh.
  unfold within_bounds, enforceBoundaries. cbv zeta.
  destruct (JS.ltb (x n) (radius n * 2)) eqn:E1; simpl;
    repeat match goal with
    | |- context [if ?c then _ else _] => destruct c eqn:?; simpl
    end;
    js_prop; simpl in *; lra.
Qed.

Lemma enforceBoundaries_inside width height n :
  within_bounds width height n -> enforceBoundaries width height n = n.
Proof.
  intros [[H1 H2] [H3 H4]]. unfold enforceBoundaries. cbv zeta.
  apply JSFacts.ltb_ge in H1. apply JSFacts.gtb_le in H2.
  apply JSFacts.ltb_ge in H3. apply JSFacts.gtb_le in H4.
  now rewrite H1, H2, H3, H4.
Qed.

Lemma enforceBoundaries_slows width height n :
  Qabs (vx (enforceBoundaries width height n)) <= Qabs (vx n)
  /\ Qabs (vy (enforceBoundaries width height n)) <= Qabs (vy n).
Proof.
  unfold enforceBoundaries. cbv zeta.
  repeat (match goal with
          | |- context [if ?c then _ else _] => destruct c
          end; cbn [x y radius vx vy set_x set_y set_vx set_vy]);
    split;
    repeat first [apply Qle_refl | apply Qabs_half | apply Qabs_half_opp].
Qed.

(** X3.  On a canvas at least [4r] wide and high, [enforceBoundaries] puts
    the node inside [[2r, width - 2r] x [2r, height - 2r]]; a node already
    inside is returned unchanged; and no velocity component grows in
    magnitude. *)
Theorem enforceBoundaries_spec :
  forall (width height : Q) (n : Node),
    radius n * 4 <= width -> radius n * 4 <= height ->
    let n' := enforceBoundaries width height n in
    within_bounds width height n'
    /\ (within_bounds width height n -> n' = n)
    /\ Qabs (vx n') <= Qabs (vx n) /\ Qabs (vy n') <= Qabs (vy n).
Proof.
  intros width height n Hw Hh n'. subst n'.
  split; [now apply enforceBoundaries_within |].
  split; [apply enforceBoundaries_inside |].
  apply enforceBoundaries_slows.
Qed.

Lemma enforceBoundaries_spec_witness :
  within_bounds 800 600 (enforceBoundaries 800 600 dragged_left).
Proof.
  apply (@enforceBoundaries_spec 800 600 dragged_left).
  - vm_compute. discriminate.
  - vm_compute. discriminate.
Defined.

(** ** The opacity step and the content rectangle *)

(** X4.  The opacity part of [update]: a hovered or dragged node aims at
    opacity 1; the target is 1 or 0.3; the distance of the opacity to the
    target shrinks to 95 percent or less of what it was, and to nothing
    once it is at most 0.01; and [active] says whether the new opacity
    exceeds 0.7. *)
Theorem relax_approaches_target :
  forall (time : Q) (n : Node),
    let n' := relax time n in
    (isHovered n || isDragged n = true -> targetOpacity n' = 1)
    /\ (targetOpacity n' = 1 \/ targetOpacity n' = 3 # 10)
    /\ Qabs (opacity n' - targetOpacity n')
       <= (95 # 100) * Qabs (opacity n - targetOpacity n')
    /\ (Qabs (opacity n - targetOpacity n') <= 1 # 100 ->
        opacity n' = targetOpacity n')
    /\ (active n' = true <-> 7 # 10 < opacity n').
Proof.
  intros time n n'. subst n'. unfold relax.
  set (a := JS.ltb _ (7 # 10)). clearbody a.
  cbv zeta. cbn [isHovered isDragged set_targetOpacity].
  set (t := if isHovered n || isDragged n then _ else _).
  assert (Ht : exists q, (q = 1 \/ q = 3 # 10)
                 /\ (isHovered n || isDragged n = true -> q = 1)
                 /\ t = set_targetOpacity q n).
  { subst t. destruct (isHovered n || isDragged n).
    - exists 1. auto.
    - destruct a; [exists 1 | exists (3 # 10)]; repeat split; auto; discriminate. }
  destruct Ht as (q & Hq & Hh & ->). cbn [opacity targetOpacity set_targetOpacity].
  destruct (JS.gtb (Qabs (opacity n - q)) (1 # 100)) eqn:E;
    cbn [opacity targetOpacity set_opacity set_active active set_targetOpacity];
    js_prop.
  - repeat split; auto.
    + assert (Heq : opacity n + (q - opacity n) * (5 # 100) - q
                    == (95 # 100) * (opacity n - q)) by ring.
      rewrite Heq, Qabs_Qmult. 
      assert (Qabs (95 # 100) == 95 # 100) by reflexivity.
      rewrite H. apply Qle_refl.
    + intro H. cbn [targetOpacity set_targetOpacity] in H. exfalso. lra.
    + apply JSFacts.gtb_gt.
    + apply JSFacts.gtb_gt.
  - repeat split; auto.
    + assert (Heq : q - q == 0) by ring. rewrite Heq.
      pose proof (Qabs_nonneg (opacity n - q)). change (Qabs 0) with 0. lra.
    + apply JSFacts.gtb_gt.
    + apply JSFacts.gtb_gt.
Qed.

(** X5.  A node inside the padded content rectangle gets exactly one push of
    [3 * contentRepulsionForce], on one velocity component, out through the
    nearest edge of the padded rectangle (ties go to left, then right, then
    top, then bottom): one of the four branches is always taken. *)
Theorem applyContentRepulsion_inside :
  forall (Math_sqrt : Q -> Q) (contentRect : Rect) (config : Config) (n : Node),
    let distToLeft := x n - (r_left contentRect - contentPadding config) in
    let distToRight := r_right contentRect + contentPadding config - x n in
    let distToTop := y n - (r_top contentRect - contentPadding config) in
    let distToBottom := r_bottom contentRect + contentPadding config - y n in
    let force := contentRepulsionForce config * 3 in
    let n' := applyContentRepulsion Math_sqrt contentRect config n in
    0 <= distToLeft -> 0 <= distToRight -> 0 <= distToTop -> 0 <= distToBottom ->
    (distToLeft <= distToRight /\ distToLeft <= distToTop
     /\ distToLeft <= distToBottom /\ n' = set_vx (vx n - force) n)
    \/ (distToRight < distToLeft /\ distToRight <= distToTop
        /\ distToRight <= distToBottom /\ n' = set_vx (vx n + force) n)
    \/ (distToTop < distToLeft /\ distToTop < distToRight
        /\ distToTop <= distToBottom /\ n' = set_vy (vy n - force) n)
    \/ (distToBottom < distToLeft /\ distToBottom < distToRight
        /\ distToBottom < distToTop /\ n' = set_vy (vy n + force) n).
Proof.
  intros Math_sqrt contentRect config n dl dr dt db force n' Hl Hr Ht Hb.
  subst n'. unfold applyContentRepulsion. cbv zeta.
  assert (E1 : JS.geb (x n) (r_left contentRect - contentPadding config) = true).
  { apply JSFacts.geb_ge. subst dl. lra. }
  assert (E2 : JS.leb (x n) (r_right contentRect + contentPadding config) = true).
  { apply JSFacts.leb_le. subst dr. lra. }
  assert (E3 : JS.geb (y n) (r_top contentRect - contentPadding config) = true).
  { apply JSFacts.geb_ge. subst dt. lra. }
  assert (E4 : JS.leb (y n) (r_bottom contentRect + contentPadding config) = true).
  { apply JSFacts.leb_le. subst db. lra. }
  rewrite E1, E2, E3, E4. cbn [andb].
  fold dl dr dt db force.
  destruct (Q.min_spec dt db) as [[H1 M1] | [H1 M1]];
  destruct (Q.min_spec dr (Qmin dt db)) as [[H2 M2] | [H2 M2]];
  destruct (Q.min_spec dl (Qmin dr (Qmin dt db))) as [[H3 M3] | [H3 M3]];
  set (m1 := Qmin dt db) in *; set (m2 := Qmin dr m1) in *;
  set (m3 := Qmin dl m2) in *; clearbody m3 m2 m1; clearbody dl dr dt db; unfold JS.eqb;
  repeat match goal with
  | |- context [Qeq_bool ?a ?b] =>
      let E := fresh "E" in
      destruct (Qeq_bool a b) eqn:E;
      [apply Qeq_bool_iff in E | apply Qeq_bool_neq in E]
  end;
  try (exfalso; lra);
  solve [ left; repeat split; lra
        | right; left; repeat split; lra
        | right; right; left; repeat split; lra
        | right; right; right; repeat split; lra ].
Qed.

Lemma applyContentRepulsion_inside_witness :
  applyContentRepulsion (sqrt_bits 20) (defaultRect 800 600)
    (layoutConfig 800 600 (1 # 2)) drifting
  = set_vy (vy drifting - contentRepulsionForce (layoutConfig 800 600 (1 # 2)) * 3)
      drifting.
Proof.
  destruct (@applyContentRepulsion_inside (sqrt_bits 20) (defaultRect 800 600)
              (layoutConfig 800 600 (1 # 2)) drifting)
    as [H | [H | [H | H]]];
    try (vm_compute; discriminate).
  - exfalso. destruct H as (_ & H & _). vm_compute in H. now apply H.
  - exfalso. destruct H as (_ & H & _). vm_compute in H. now apply H.
  - exact (proj2 (proj2 (proj2 H))).
  - exfalso. destruct H as (_ & _ & H & _). vm_compute in H. discriminate.
Defined.

(** ** Velocity limits *)

(** X6.  The body of [limitVelocities], on a node where [Math.sqrt] returns
    the exact speed: the speed after it is at most [maxDisplacement *
    coolingFactor], the direction is kept, and a node that was not over
    the limit is only cooled. *)
Theorem limitVelocity_caps_speed :
  forall (Math_sqrt : Q -> Q) (config : Config) (n : Node),
    let s := Math_sqrt (vx n * vx n + vy n * vy n) in
    let n' := limitVelocity Math_sqrt config n in
    let cap := maxDisplacement config * coolingFactor config in
    s * s == vx n * vx n + vy n * vy n -> 0 <= s ->
    0 <= maxDisplacement config ->
    vx n' * vx n' + vy n' * vy n' <= cap * cap
    /\ vx n' * vy n == vy n' * vx n
    /\ (s <= maxDisplacement config ->
        vx n' = vx n * coolingFactor config
        /\ vy n' = vy n * coolingFactor config).
Proof.
  intros Math_sqrt config n s n' cap Hs Hs0 Hm. subst n' cap.
  unfold limitVelocity. fold s. cbv zeta.
  destruct (JS.gtb s (maxDisplacement config)) eqn:E; js_prop;
    cbn [vx vy set_vx set_vy].
  - assert (Hne : ~ s == 0) by lra.
    set (m := maxDisplacement config) in *.
    set (c := coolingFactor config) in *.
    repeat split.
    + assert (Heq : vx n * (m / s) * c * (vx n * (m / s) * c)
                    + vy n * (m / s) * c * (vy n * (m / s) * c)
                    == (vx n * vx n + vy n * vy n) * (m * c * (m * c)) / (s * s))
        by (field; exact Hne).
      rewrite Heq, <- Hs. 
      assert (Heq2 : s * s * (m * c * (m * c)) / (s * s) == m * c * (m * c))
        by (field; exact Hne).
      rewrite Heq2. apply Qle_refl.
    + ring.
    + exfalso. lra.
    + exfalso. lra.
  - set (m := maxDisplacement config) in *.
    set (c := coolingFactor config) in *.
    repeat split.
    + assert (Heq : vx n * c * (vx n * c) + vy n * c * (vy n * c)
                    == (s * s) * (c * c)) by (rewrite Hs; ring).
      rewrite Heq.
      assert (s * s <= m * m) by nra.
      assert (0 <= c * c) by nra.
      nra.
    + ring.
Qed.

Lemma limitVelocity_caps_speed_witness :
  let n := mkNode 0 400 300 10 Process [] [] 0 true 1 1 0 0 1000 false false 30 40 in
  let n' := limitVelocity (sqrt_bits 20) (layoutConfig 800 600 (1 # 2)) n in
  vx n' * vx n' + vy n' * vy n' <= ((15 * (1 # 2)) * (9 # 10)) * ((15 * (1 # 2)) * (9 # 10)).
Proof.
  intros n n'.
  apply (@limitVelocity_caps_speed (sqrt_bits 20) (layoutConfig 800 600 (1 # 2)) n).
  - vm_compute. reflexivity.
  - vm_compute. discriminate.
  - vm_compute. discriminate.
Defined.

(** X7.  The older [updatePositions] (the second [force-layout.js]) puts
    every node that is not dragged inside the margins of a canvas of at
    least [4r] and, unlike the newer one, leaves its velocity as it was. *)
Theorem legacy_updatePosition_clamps :
  forall (width height animationSpeed : Q) (n : Node),
    isDragged n = false ->
    radius n * 4 <= width -> radius n * 4 <= height ->
    let n' := Legacy.updatePosition width height animationSpeed n in
    within_bounds width height n' /\ vx n' = vx n /\ vy n' = vy n.
Proof.
  intros width height s n Hd Hw Hh n'. subst n'.
  unfold Legacy.updatePosition, within_bounds. rewrite Hd. cbv zeta.
  cbn [x y radius vx vy set_x set_y].
  set (px := x n + vx n * s). set (py := y n + vy n * s).
  destruct (Q.min_spec (width - radius n * 2) px) as [[? E1] | [? E1]];
  destruct (Q.min_spec (height - radius n * 2) py) as [[? E2] | [? E2]];
  destruct (Q.max_spec (radius n * 2) (Qmin (width - radius n * 2) px))
    as [[? E3] | [? E3]];
  destruct (Q.max_spec (radius n * 2) (Qmin (height - radius n * 2) py))
    as [[? E4] | [? E4]];
  repeat split; lra.
Qed.

Lemma legacy_updatePosition_clamps_witness :
  within_bounds 800 600 (Legacy.updatePosition 800 600 1 drifting)
  /\ vx (Legacy.updatePosition 800 600 1 drifting) = vx drifting
  /\ vy (Legacy.updatePosition 800 600 1 drifting) = vy drifting.
Proof.
  apply (@legacy_updatePosition_clamps 800 600 1 drifting).
  - reflexivity.
  - vm_compute. discriminate.
  - vm_compute. discriminate.
Defined.

(** ** Momentum *)

Lemma total_modifyAt a f dx dy ns n :
  nth_error ns a = Some n ->
  (forall m, vx (f m) == vx m + dx /\ vy (f m) == vy m + dy) ->
  total_vx (modifyAt a f ns) == total_vx ns + dx
  /\ total_vy (modifyAt a f ns) == total_vy ns + dy.
Proof.
  intros Hn Hf. revert a Hn. induction ns as [| m ns IH]; intros a Hn.
  - destruct a; discriminate.
  - destruct a as [| a]; simpl.
    + destruct (Hf m) as [H1 H2]. rewrite H1, H2. split; ring.
    + simpl in Hn. destruct (IH a Hn) as [H1 H2]. rewrite H1, H2. split; ring.
Qed.

Lemma length_modifyAt a f ns : length (modifyAt a f ns) = length ns.
Proof.
  revert a. induction ns as [| m ns IH]; intros [| a]; simpl; auto.
Qed.

Lemma nth_error_modifyAt_some a f ns b n :
  nth_error ns b = Some n -> exists n', nth_error (modifyAt a f ns) b = Some n'.
Proof.
  intro H.
  destruct (nth_error (modifyAt a f ns) b) as [n' |] eqn:E; [now exists n' |].
  apply nth_error_None in E. rewrite length_modifyAt in E.
  apply nth_error_None in E. congruence.
Qed.

Lemma add_v_effect a b m :
  vx (add_v a b m) == vx m + a /\ vy (add_v a b m) == vy m + b.
Proof. simpl. split; reflexivity. Qed.

Lemma sub_v_effect a b m :
  vx (sub_v a b m) == vx m + - a /\ vy (sub_v a b m) == vy m + - b.
Proof. simpl. split; ring. Qed.

Section Momentum.

Variable Math_sqrt : Q -> Q.
Variable config : Config.

Lemma total_repel a b ns :
  total_vx (repel Math_sqrt config a b ns) == total_vx ns
  /\ total_vy (repel Math_sqrt config a b ns) == total_vy ns.
Proof.
  unfold repel.
  destruct (nth_error ns a) as [nodeA |] eqn:Ea; [| split; reflexivity].
  destruct (nth_error ns b) as [nodeB |] eqn:Eb; [| split; reflexivity].
  destruct (isDragged nodeB); [split; reflexivity |]. cbv zeta.
  destruct (JS.ltb _ _); [| split; reflexivity].
  match goal with
  | |- context [modifyAt b (add_v ?fx ?fy) (modifyAt a (sub_v ?fx ?fy) ns)] =>
      set (forceX := fx); set (forceY := fy)
  end.
  destruct (total_modifyAt a (sub_v forceX forceY) ns Ea
              (sub_v_effect forceX forceY)) as [H1 H2].
  destruct (nth_error_modifyAt_some a (sub_v forceX forceY) ns b Eb) as [n' Hn'].
  destruct (total_modifyAt b (add_v forceX forceY) _ Hn'
              (add_v_effect forceX forceY)) as [H3 H4].
  rewrite H3, H4, H1, H2. split; ring.
Qed.

Lemma total_applyNodeRepulsion_loop a k b ns :
  total_vx (applyNodeRepulsion_loop Math_sqrt config a k b ns) == total_vx ns
  /\ total_vy (applyNodeRepulsion_loop Math_sqrt config a k b ns) == total_vy ns.
Proof.
  revert b ns. induction k as [| k IH]; intros b ns; simpl.
  - split; reflexivity.
  - destruct (IH (S b) (repel Math_sqrt config a b ns)) as [H1 H2].
    destruct (total_repel a b ns) as [H3 H4].
    rewrite H1, H2, H3, H4. split; reflexivity.
Qed.

End Momentum.

(** X8.  [applyNodeRepulsion] gives the two nodes of a pair opposite
    forces: it never changes the sum of the velocities of the array. *)
Theorem applyNodeRepulsion_conserves_momentum :
  forall (Math_sqrt : Q -> Q) (config : Config) (a : nat) (ns : list Node),
    total_vx (applyNodeRepulsion Math_sqrt config a ns) == total_vx ns
    /\ total_vy (applyNodeRepulsion Math_sqrt config a ns) == total_vy ns.
Proof.
  intros. unfold applyNodeRepulsion. apply total_applyNodeRepulsion_loop.
Qed.

Lemma total_modifyNode c f dx dy ns n :
  NoDup (map oid ns) ->
  getNode c ns = Some n ->
  (forall m, vx (f m) == vx m + dx /\ vy (f m) == vy m + dy) ->
  total_vx (modifyNode c f ns) == total_vx ns + dx
  /\ total_vy (modifyNode c f ns) == total_vy ns + dy.
Proof.
  intros Hnd Hget Hf. revert Hnd Hget.
  unfold getNode, modifyNode. induction ns as [| m ns IH]; simpl; intros Hnd Hget.
  - discriminate.
  - inversion Hnd as [| ? ? Hnot Hnd']; subst.
    destruct (Nat.eqb (oid m) c) eqn:E.
    + apply Nat.eqb_eq in E.
      assert (Hrest : map (fun n0 => if Nat.eqb (oid n0) c then f n0 else n0) ns = ns).
      { rewrite <- (map_id ns) at 2. apply map_ext_in. intros k Hk.
        destruct (Nat.eqb (oid k) c) eqn:E'; [| reflexivity].
        apply Nat.eqb_eq in E'. exfalso. apply Hnot. rewrite E, <- E'.
        now apply in_map. }
      rewrite Hrest. destruct (Hf m) as [H1 H2]. rewrite H1, H2. split; ring.
    + destruct (IH Hnd' Hget) as [H1 H2]. rewrite H1, H2. split; ring.
Qed.

Lemma map_oid_modifyAt a f ns :
  (forall n, oid (f n) = oid n) -> map oid (modifyAt a f ns) = map oid ns.
Proof.
  intro Hf. revert a. induction ns as [| m ns IH]; intros [| a]; simpl; auto.
  - now rewrite Hf.
  - now rewrite IH.
Qed.

Lemma getNode_map_oid c ns ns' n :
  map oid ns' = map oid ns -> getNode c ns = Some n ->
  exists n', getNode c ns' = Some n'.
Proof.
  intros Hm Hget.
  destruct (getNode c ns') as [n' |] eqn:E; [now exists n' |].
  exfalso. apply getNode_Some in Hget. destruct Hget as [Hin Ho].
  assert (Hc : In c (map oid ns')). { rewrite Hm, <- Ho. now apply in_map. }
  apply in_map_iff in Hc. destruct Hc as [k [Hk Hin']].
  unfold getNode in E. apply (find_none _ _ E) in Hin'.
  apply Nat.eqb_neq in Hin'. contradiction.
Qed.

Section Attraction.

Variable Math_sqrt : Q -> Q.
Variable config : Config.

Lemma total_attract a ns connected :
  NoDup (map oid ns) ->
  map oid (attract Math_sqrt config a ns connected) = map oid ns
  /\ total_vx (attract Math_sqrt config a ns connected) == total_vx ns
  /\ total_vy (attract Math_sqrt config a ns connected) == total_vy ns.
Proof.
  intro Hnd. unfold attract.
  destruct (nth_error ns a) as [node |] eqn:Ea; [| repeat split; reflexivity].
  destruct (getNode connected ns) as [c |] eqn:Ec; [| repeat split; reflexivity].
  destruct (isDragged c); [repeat split; reflexivity |]. cbv zeta.
  match goal with
  | |- context [modifyNode connected (sub_v ?fx ?fy) (modifyAt a (add_v ?fx ?fy) ns)] =>
      set (forceX := fx); set (forceY := fy)
  end.
  assert (Hm : map oid (modifyAt a (add_v forceX forceY) ns) = map oid ns)
    by (apply map_oid_modifyAt; reflexivity).
  destruct (total_modifyAt a (add_v forceX forceY) ns Ea
              (add_v_effect forceX forceY)) as [H1 H2].
  destruct (@getNode_map_oid connected ns _ c Hm Ec) as [c' Hc'].
  assert (Hnd' : NoDup (map oid (modifyAt a (add_v forceX forceY) ns)))
    by now rewrite Hm.
  destruct (@total_modifyNode connected (sub_v forceX forceY) _ _ _ c' Hnd' Hc'
              (sub_v_effect forceX forceY)) as [H3 H4].
  repeat split.
  - rewrite map_oid_modifyNode; [exact Hm | reflexivity].
  - rewrite H3, H1. ring.
  - rewrite H4, H2. ring.
Qed.

Lemma total_fold {A} (step : list Node -> A -> list Node) (l : list A) ns :
  (forall ns a, NoDup (map oid ns) ->
     map oid (step ns a) = map oid ns
     /\ total_vx (step ns a) == total_vx ns
     /\ total_vy (step ns a) == total_vy ns) ->
  NoDup (map oid ns) ->
  map oid (fold_left step l ns) = map oid ns
  /\ total_vx (fold_left step l ns) == total_vx ns
  /\ total_vy (fold_left step l ns) == total_vy ns.
Proof.
  intro Hstep. revert ns. induction l as [| a l IH]; intros ns Hnd; simpl.
  - repeat split; reflexivity.
  - destruct (Hstep ns a Hnd) as (Hm & H1 & H2).
    assert (Hnd' : NoDup (map oid (step ns a))) by now rewrite Hm.
    destruct (IH _ Hnd') as (Hm' & H3 & H4).
    repeat split.
    + now rewrite Hm'.
    + now rewrite H3.
    + now rewrite H4.
Qed.

Lemma total_attractAll ns a :
  NoDup (map oid ns) ->
  map oid (attractAll Math_sqrt config ns a) = map oid ns
  /\ total_vx (attractAll Math_sqrt config ns a) == total_vx ns
  /\ total_vy (attractAll Math_sqrt config ns a) == total_vy ns.
Proof.
  intro Hnd. unfold attractAll.
  destruct (nth_error ns a) as [node |]; [| repeat split; reflexivity].
  destruct (isDragged node); [repeat split; reflexivity |].
  apply total_fold; [| exact Hnd].
  intros. now apply total_attract.
Qed.

End Attraction.

(** X9.  [applyConnectionAttractions], on an array of distinct nodes
    whose connections all are to nodes of the array, pulls the two ends of a
    connection with opposite forces: the sum of the velocities of the array
    is unchanged.  (A connection to a node outside the array pulls its one
    end in the array only: the sum then changes.) *)
Theorem applyConnectionAttractions_conserves_momentum :
  forall (Math_sqrt : Q -> Q) (config : Config) (ns : list Node),
    NoDup (map oid ns) ->
    closed ns ->
    total_vx (applyConnectionAttractions Math_sqrt config ns) == total_vx ns
    /\ total_vy (applyConnectionAttractions Math_sqrt config ns) == total_vy ns.
Proof.
  intros Math_sqrt config ns Hnd _. unfold applyConnectionAttractions.
  apply (total_fold (attractAll Math_sqrt config)); [| exact Hnd].
  intros. now apply total_attractAll.
Qed.

Lemma applyConnectionAttractions_conserves_momentum_witness :
  total_vx (applyConnectionAttractions (sqrt_bits 20)
              (layoutConfig 800 600 (1 # 2)) (nodes sender_world))
  == total_vx (nodes sender_world)
  /\ total_vy (applyConnectionAttractions (sqrt_bits 20)
                 (layoutConfig 800 600 (1 # 2)) (nodes sender_world))
     == total_vy (nodes sender_world).
Proof.
  apply (@applyConnectionAttractions_conserves_momentum (sqrt_bits 20)
           (layoutConfig 800 600 (1 # 2)) (nodes sender_world)).
  - repeat constructor; simpl; intuition discriminate.
  - intros n c [<- | [<- | []]] Hc; simpl in Hc.
    + destruct Hc as [<- | []]. simpl. auto.
    + destruct Hc.
Defined.

(** ** Positions through a layout pass *)

Lemma blend_place o width height n2 n0 :
  oid n2 = oid n0 -> x n2 = x n0 -> y n2 = y n0 -> radius n2 = radius n0 ->
  isDragged n2 = isDragged n0 ->
  let n' := blend o width height n2 in
  oid n' = oid n0 /\ radius n' = radius n0 /\ isDragged n' = isDragged n0
  /\ x n' = x (enforceBoundaries width height n0)
  /\ y n' = y (enforceBoundaries width height n0).
Proof.
  intros Ho Hx Hy Hr Hd n'. subst n'. unfold blend. cbv zeta.
  set (m := match find _ o with Some _ => _ | None => n2 end).
  assert (Hm : oid m = oid n0 /\ x m = x n0 /\ y m = y n0
               /\ radius m = radius n0 /\ isDragged m = isDragged n0).
  { subst m. destruct (find _ o) as [[? [? ?]] |]; simpl; auto. }
  destruct Hm as (Ho' & Hx' & Hy' & Hr' & Hd').
  destruct (@enforceBoundaries_position width height m n0 Hx' Hy' Hr') as [E1 E2].
  repeat split; auto.
  - destruct (sim_enforceBoundaries width height m) as (E & _). congruence.
  - rewrite enforceBoundaries_radius. exact Hr'.
  - rewrite enforceBoundaries_isDragged. exact Hd'.
Qed.

Lemma applyForceLayout_places :
  forall (Math_sqrt : Q -> Q) (ns : list Node) (width height : Q)
         (contentRect : option Rect) (strength : Q) (k : nat) (n0 : Node),
    0 < strength ->
    NoDup (map oid ns) ->
    nth_error ns k = Some n0 ->
    exists n',
      nth_error (applyForceLayout Math_sqrt ns width height contentRect strength) k
      = Some n'
      /\ oid n' = oid n0 /\ radius n' = radius n0
      /\ isDragged n' = isDragged n0
      /\ x n' = x (enforceBoundaries width height n0)
      /\ y n' = y (enforceBoundaries width height n0).
Proof.
  intros Math_sqrt ns width height contentRect strength k n0 Hs Hnd Hk.
  unfold applyForceLayout.
  apply JSFacts.leb_gt in Hs. rewrite Hs. cbv zeta.
  set (zero := fun n => set_vy 0 (set_vx 0 n)).
  set (rect := match contentRect with Some r => r | None => _ end).
  set (config := layoutConfig width height strength).
  assert (Hnd1 : NoDup (map oid (map zero ns))) by (now rewrite map_map).
  pose proof (@quiets_simulate Math_sqrt config width height rect
                (iterations config) (map zero ns) Hnd1) as Hq.
  assert (Hk1 : nth_error (map zero ns) k = Some (zero n0))
    by (now apply map_nth_error).
  destruct (Forall2_nth_error _ Hq Hk1) as [n2 [Hk2 [Hb _]]].
  destruct Hb as (Ho & Hx & Hy & Hr & Hdr & _). simpl in Ho, Hx, Hy, Hr, Hdr.
  set (o := map (fun n => (oid n, (vx n, vy n))) ns).
  destruct (@blend_place o width height n2 n0 Ho Hx Hy Hr Hdr)
    as (B1 & B2 & B3 & B4 & B5).
  exists (blend o width height n2).
  split; [now apply map_nth_error |].
  repeat split; assumption.
Qed.

(** X10.  A layout pass of positive strength over an array of distinct nodes
    never moves a node except by the final [enforceBoundaries]: the node at
    each index keeps its identity, radius and dragged flag, its position is
    the clamp of the position it had, so a node inside the margins stays
    where it is, and on a canvas of at least [4r] it ends inside them. *)
Theorem layout_pass_only_clamps_positions :
  forall (Math_sqrt : Q -> Q) (ns : list Node) (width height : Q)
         (contentRect : option Rect) (strength : Q) (k : nat) (n0 : Node),
    0 < strength ->
    NoDup (map oid ns) ->
    nth_error ns k = Some n0 ->
    exists n',
      nth_error (applyForceLayout Math_sqrt ns width height contentRect strength) k
      = Some n'
      /\ oid n' = oid n0 /\ radius n' = radius n0
      /\ isDragged n' = isDragged n0
      /\ x n' = x (enforceBoundaries width height n0)
      /\ y n' = y (enforceBoundaries width height n0)
      /\ (within_bounds width height n0 -> x n' = x n0 /\ y n' = y n0)
      /\ (radius n0 * 4 <= width -> radius n0 * 4 <= height ->
          within_bounds width height n').
Proof.
  intros Math_sqrt ns width height contentRect strength k n0 Hs Hnd Hk.
  destruct (@applyForceLayout_places Math_sqrt ns width height contentRect
              strength k n0 Hs Hnd Hk) as (n' & Hk' & Ho & Hr & Hd & Hx & Hy).
  exists n'. split; [exact Hk' |].
  split; [exact Ho |]. split; [exact Hr |]. split; [exact Hd |].
  split; [exact Hx |]. split; [exact Hy |]. split.
  - intro Hin. rewrite Hx, Hy.
    now rewrite (@enforceBoundaries_inside width height n0 Hin).
  - intros Hw Hh.
    pose proof (@enforceBoundaries_within width height n0 Hw Hh) as Hb.
    unfold within_bounds in *. rewrite enforceBoundaries_radius in Hb.
    rewrite Hx, Hy, Hr. exact Hb.
Qed.

Lemma layout_pass_only_clamps_positions_witness :
  exists n',
    nth_error (applyForceLayout (sqrt_bits 20) [drifting] 800 600 None (1 # 2)) 0
    = Some n'
    /\ oid n' = oid drifting /\ radius n' = radius drifting
    /\ isDragged n' = isDragged drifting
    /\ x n' = x (enforceBoundaries 800 600 drifting)
    /\ y n' = y (enforceBoundaries 800 600 drifting)
    /\ (within_bounds 800 600 drifting -> x n' = x drifting /\ y n' = y drifting)
    /\ (radius drifting * 4 <= 800 -> radius drifting * 4 <= 600 ->
        within_bounds 800 600 n').
Proof.
  apply (@layout_pass_only_clamps_positions (sqrt_bits 20) [drifting] 800 600
           None (1 # 2) 0%nat drifting).
  - reflexivity.
  - repeat constructor. simpl. tauto.
  - reflexivity.
Defined.

Lemma applyForceLayout_within Math_sqrt ns width height contentRect strength :
  0 < strength -> NoDup (map oid ns) ->
  Forall (fun n => radius n * 4 <= width /\ radius n * 4 <= height) ns ->
  Forall (within_bounds width height)
    (applyForceLayout Math_sqrt ns width height contentRect strength).
Proof.
  intros Hs Hnd Hall. apply Forall_forall. intros n' Hn'.
  apply In_nth_error in Hn'. destruct Hn' as [k Hk].
  pose proof (sim_applyForceLayout Math_sqrt width height contentRect strength ns)
    as Hsim.
  destruct (Forall2_nth_error_r _ Hsim Hk) as (n0 & Hk0 & _).
  destruct (@applyForceLayout_places Math_sqrt ns width height contentRect
              strength k n0 Hs Hnd Hk0) as (n'' & Hk'' & _ & Hr & _ & Hx & Hy).
  assert (n'' = n') by congruence. subst n''.
  rewrite Forall_forall in Hall. apply nth_error_In in Hk0.
  destruct (Hall n0 Hk0) as [Hw Hh].
  pose proof (@enforceBoundaries_within width height n0 Hw Hh) as Hb.
  unfold within_bounds in *. rewrite enforceBoundaries_radius in Hb.
  rewrite Hx, Hy, Hr. exact Hb.
Qed.

(** ** Construction of the network *)

Lemma strip_absent d n : ~ In d (connections n) -> strip d n = n.
Proof.
  intro H. unfold strip.
  assert (E : filter (fun conn => negb (Nat.eqb conn d)) (connections n)
              = connections n).
  { induction (connections n) as [| c l IH]; simpl; [reflexivity |].
    destruct (Nat.eqb c d) eqn:Ec; simpl.
    - apply Nat.eqb_eq in Ec. exfalso. apply H. now left.
    - f_equal. apply IH. intro Hin. apply H. now right. }
  rewrite E. destruct n; reflexivity.
Qed.

Lemma map_strip_absent d ns :
  ~ In d (hasIncoming ns) -> map (strip d) ns = ns.
Proof.
  intro H. rewrite <- (map_id ns) at 2. apply map_ext_in.
  intros n Hn. apply strip_absent. intro Hc. apply H.
  unfold hasIncoming. apply in_flat_map. now exists n.
Qed.

Lemma firstn_splice1 {A} i (l : list A) :
  (i <= length l)%nat -> firstn i (JS.splice1 i l) = firstn i l.
Proof.
  intro H. unfold JS.splice1.
  rewrite firstn_app, length_firstn, Nat.min_l by exact H.
  rewrite Nat.sub_diag, firstn_O, app_nil_r.
  now rewrite firstn_firstn, Nat.min_id.
Qed.

Lemma skipn_splice1 {A} i (l : list A) :
  (i <= length l)%nat -> skipn i (JS.splice1 i l) = skipn (S i) l.
Proof.
  intro H. unfold JS.splice1.
  rewrite skipn_app, length_firstn, Nat.min_l by exact H.
  rewrite Nat.sub_diag, skipn_O.
  rewrite skipn_all2; [reflexivity | rewrite length_firstn; lia].
Qed.

(** The loop of [removeUnconnectedNodes] is a filter of the part of the
    array it has visited. *)
Lemma remove_loop_filter incoming k ns flag :
  (k <= length ns)%nat ->
  (forall c, In c (hasIncoming ns) -> In c incoming) ->
  let gone n :=
    negb (NodeType_eqb (type n) Source) && negb (JS.includes incoming (oid n)) in
  remove_loop incoming k ns flag
  = (filter (fun n => negb (gone n)) (firstn k ns) ++ skipn k ns,
     flag || existsb gone (firstn k ns)).
Proof.
  intros Hk Hin gone. revert ns flag Hk Hin.
  induction k as [| k IH]; intros ns flag Hk Hin.
  - simpl. now rewrite orb_false_r.
  - cbn [remove_loop].
    destruct (nth_error ns k) as [node |] eqn:E.
    2:{ apply nth_error_None in E. lia. }
    rewrite (firstn_S_nth _ _ E), filter_app, existsb_app.
    cbn [filter existsb]. fold (gone node).
    destruct (gone node) eqn:G; cbn [negb orb].
    + assert (Hd : ~ In (oid node) (hasIncoming ns)).
      { intro H. apply Hin in H. apply JSFacts.includes_In in H.
        unfold gone in G. rewrite H in G. simpl in G.
        now rewrite andb_false_r in G. }
      rewrite (map_strip_absent _ _ Hd).
      rewrite IH.
      * rewrite firstn_splice1, skipn_splice1 by lia.
        rewrite app_nil_r. f_equal.
        destruct flag, (existsb gone (firstn k ns)); reflexivity.
      * unfold JS.splice1. rewrite length_app, length_firstn, length_skipn. lia.
      * intros c Hc. apply Hin. unfold hasIncoming in *.
        apply in_flat_map in Hc. destruct Hc as [n [Hn Hc]].
        apply in_flat_map. exists n. split; [| exact Hc].
        now apply JSFacts.In_splice1 in Hn.
    + rewrite IH by (auto; lia).
      rewrite <- app_assoc. cbn [app].
      assert (Hs : skipn k ns = node :: skipn (S k) ns).
      { clear -E. revert ns E. induction k as [| k IHk]; intros [| a ns] E;
          simpl in *; try discriminate.
        - now injection E as ->.
        - now apply IHk. }
      rewrite Hs. f_equal.
      destruct flag, (existsb gone (firstn k ns)); reflexivity.
Qed.

Lemma removeUnconnectedNodes_filter ns :
  removeUnconnectedNodes ns
  = (filter (fun n => negb (orphan ns n)) ns, existsb (orphan ns) ns).
Proof.
  unfold removeUnconnectedNodes.
  rewrite remove_loop_filter by auto.
  rewrite firstn_all, skipn_all, app_nil_r. reflexivity.
Qed.

Lemma filter_none {A} (p : A -> bool) l :
  existsb p l = false -> filter (fun a => negb (p a)) l = l.
Proof.
  induction l as [| a l IH]; simpl; [reflexivity |].
  destruct (p a); simpl; [discriminate |]. intro H. now rewrite IH.
Qed.

Lemma filter_some {A} (p : A -> bool) l :
  existsb p l = true ->
  (length (filter (fun a => negb (p a)) l) < length l)%nat.
Proof.
  induction l as [| a l IH]; simpl; [discriminate |].
  pose proof (filter_length_le (fun a => negb (p a)) l).
  destruct (p a); simpl; intro H1; [lia |].
  apply IH in H1. lia.
Qed.

(** X11.  One pass of [removeUnconnectedNodes] is a filter: it keeps, in
    order and unchanged, the nodes that are sources or had an incoming
    connection when the pass started (the stripping of connections to a
    removed node never finds one, since a removed node has no incoming
    connection), and it returns [true] exactly when a node was removed; the
    array is then strictly shorter, and otherwise it is the same array. *)
Theorem removeUnconnectedNodes_is_filter :
  forall (ns : list Node),
    removeUnconnectedNodes ns
    = (filter (fun n => negb (orphan ns n)) ns, existsb (orphan ns) ns)
    /\ (snd (removeUnconnectedNodes ns) = false ->
        fst (removeUnconnectedNodes ns) = ns)
    /\ (snd (removeUnconnectedNodes ns) = true ->
        (length (fst (removeUnconnectedNodes ns)) < length ns)%nat).
Proof.
  intro ns. rewrite removeUnconnectedNodes_filter. cbn [fst snd].
  split; [reflexivity |]. split.
  - apply filter_none.
  - apply filter_some.
Qed.

Lemma orphan_Source ns n : type n = Source -> orphan ns n = false.
Proof. intro H. unfold orphan. now rewrite H. Qed.

Lemma filter_filter_sub {A} (p q : A -> bool) l :
  (forall a, p a = true -> q a = true) ->
  filter p (filter q l) = filter p l.
Proof.
  intro H. induction l as [| a l IH]; simpl; [reflexivity |].
  destruct (q a) eqn:Eq; simpl.
  - now rewrite IH.
  - destruct (p a) eqn:Ep; [| exact IH].
    apply H in Ep. congruence.
Qed.

Lemma pass_sources ns :
  filter (fun n => NodeType_eqb (type n) Source)
    (fst (removeUnconnectedNodes ns))
  = filter (fun n => NodeType_eqb (type n) Source) ns.
Proof.
  rewrite removeUnconnectedNodes_filter. cbn [fst].
  apply filter_filter_sub. intros a Ha.
  apply NodeType_eqb_eq in Ha. now rewrite orphan_Source.
Qed.

Lemma pass_sub ns n : In n (fst (removeUnconnectedNodes ns)) -> In n ns.
Proof.
  rewrite removeUnconnectedNodes_filter. cbn [fst].
  intro H. now apply filter_In in H.
Qed.

Lemma pass_closed ns : closed ns -> closed (fst (removeUnconnectedNodes ns)).
Proof.
  rewrite removeUnconnectedNodes_filter. cbn [fst].
  intros Hc n c Hn Hin. apply filter_In in Hn. destruct Hn as [Hn _].
  pose proof (Hc n c Hn Hin) as Ho. apply in_map_iff in Ho.
  destruct Ho as [m [Hm Hmin]]. apply in_map_iff. exists m. split; [exact Hm |].
  apply filter_In. split; [exact Hmin |].
  unfold orphan.
  assert (E : JS.includes (hasIncoming ns) (oid m) = true).
  { apply JSFacts.includes_In. unfold hasIncoming. apply in_flat_map.
    exists n. split; [exact Hn | now rewrite Hm]. }
  rewrite E. simpl. now rewrite andb_false_r.
Qed.

Lemma optimize_loop_keeps fuel iterations ns :
  let ns' := fst (optimize_loop fuel iterations ns) in
  (forall n, In n ns' -> In n ns)
  /\ filter (fun n => NodeType_eqb (type n) Source) ns'
     = filter (fun n => NodeType_eqb (type n) Source) ns
  /\ (closed ns -> closed ns').
Proof.
  revert iterations ns. induction fuel as [| fuel IH]; intros it ns; simpl.
  - auto.
  - pose proof (pass_sub ns) as H1. pose proof (pass_sources ns) as H2.
    pose proof (@pass_closed ns) as H3.
    destruct (removeUnconnectedNodes ns) as [ns' flag]. cbn [fst] in *.
    destruct flag; simpl.
    + destruct (IH (S it) ns') as (I1 & I2 & I3).
      repeat split; auto. congruence.
    + auto.
Qed.

Lemma optimize_loop_length fuel iterations ns :
  (length (fst (optimize_loop fuel iterations ns)) <= length ns)%nat.
Proof.
  revert iterations ns. induction fuel as [| fuel IH]; intros it ns; simpl.
  - lia.
  - rewrite removeUnconnectedNodes_filter.
    pose proof (filter_length_le (fun n => negb (orphan ns n)) ns) as H.
    destruct (existsb (orphan ns) ns); simpl; [| exact H].
    etransitivity; [apply IH | exact H].
Qed.

(** X12.  [optimizeNetwork] only removes nodes: every node it keeps is a
    node of the array it was given, unchanged; the sources are all kept,
    in order; the array never grows. *)
Theorem optimizeNetwork_keeps :
  forall (ns : list Node),
    (forall n, In n (optimizeNetwork ns) -> In n ns)
    /\ filter (fun n => NodeType_eqb (type n) Source) (optimizeNetwork ns)
       = filter (fun n => NodeType_eqb (type n) Source) ns
    /\ (length (optimizeNetwork ns) <= length ns)%nat.
Proof.
  intro ns. unfold optimizeNetwork.
  destruct (optimize_loop_keeps MAX_ITERATIONS 0 ns) as (H1 & H2 & _).
  repeat split; auto. apply optimize_loop_length.
Qed.

(** ** Wiring *)

Lemma Forall2_compose {A} (R1 R2 R3 : A -> A -> Prop) l1 l2 l3 :
  (forall a b c, R1 a b -> R2 b c -> R3 a c) ->
  Forall2 R1 l1 l2 -> Forall2 R2 l2 l3 -> Forall2 R3 l1 l3.
Proof.
  intros H H1. revert l3. induction H1 as [| a b l1 l2 Hab _ IH]; intros l3 H2.
  - inversion H2. constructor.
  - inversion H2; subst. constructor; eauto.
Qed.

Lemma Forall2_modifyNode (R : Node -> Node -> Prop) i f ns :
  (forall a, In a ns -> R a (if Nat.eqb (oid a) i then f a else a)) ->
  Forall2 R ns (modifyNode i f ns).
Proof.
  unfold modifyNode. induction ns as [| a ns IH]; intro H; simpl;
    constructor.
  - apply H. now left.
  - apply IH. intros b Hb. apply H. now right.
Qed.

Lemma Forall2_same {A} (R : A -> A -> Prop) l :
  (forall a, In a l -> R a a) -> Forall2 R l l.
Proof.
  induction l as [| a l IH]; intro H; constructor.
  - apply H. now left.
  - apply IH. intros b Hb. apply H. now right.
Qed.

Lemma connect_type t n : type (connect t n) = type n.
Proof. unfold connect. destruct (negb _); reflexivity. Qed.

Lemma connect_grows t n :
  exists l, connections (connect t n) = connections n ++ l
            /\ incl l [t] /\ (length l <= 1)%nat.
Proof.
  unfold connect. destruct (negb _); simpl.
  - exists [t]. repeat split; auto. apply incl_refl.
  - exists []. rewrite app_nil_r. repeat split; auto. intros ? [].
Qed.

Lemma connect_In t n : In t (connections (connect t n)).
Proof.
  unfold connect. destruct (JS.includes (connections n) t) eqn:E; simpl.
  - now apply JSFacts.includes_In.
  - unfold JS.push. apply in_or_app. right. now left.
Qed.

Section Wiring.

Variable draws : nat -> Q.
Hypothesis draws_unit : forall n, 0 <= draws n < 1.

Lemma connectRandom_grown this pool k w :
  Forall2 (grown this pool k) (nodes w) (nodes (connectRandom draws this pool k w)).
Proof.
  revert w. induction k as [| k IH]; intro w; cbn [connectRandom].
  - apply Forall2_same. intros a _. unfold grown. repeat split; auto.
    + exists []. rewrite app_nil_r. repeat split; auto. intros ? [].
    + intros _ H. lia.
  - wsimpl.
    destruct (JS.at_index pool _) as [t |] eqn:E.
    + match goal with
      | |- context [connectRandom _ _ _ _ ?W] => specialize (IH W)
      end.
      wsimpl_in IH. revert IH.
      apply Forall2_compose with (R1 := fun a b =>
        b = if Nat.eqb (oid a) this then connect t a else a).
      * intros a b c -> (Ho & Ht & Hne & (l & Hl & Hincl & Hlen) & _).
        apply at_index_In in E.
        destruct (Nat.eqb (oid a) this) eqn:Ea.
        -- apply Nat.eqb_eq in Ea.
           rewrite connect_oid in Ho. rewrite connect_type in Ht.
           destruct (connect_grows t a) as (l0 & Hl0 & Hi0 & Hlen0).
           repeat split; auto.
           ++ intro H. congruence.
           ++ exists (l0 ++ l). rewrite Hl, Hl0, app_assoc. repeat split.
              ** apply incl_app; [| exact Hincl].
                 intros u Hu. apply Hi0 in Hu. destruct Hu as [<- | []]. exact E.
              ** rewrite length_app. lia.
           ++ intros _ _ _. exists t. split; [exact E |].
              rewrite Hl. apply in_or_app. left. apply connect_In.
        -- apply Nat.eqb_neq in Ea. repeat split; auto.
           ++ exists l. repeat split; auto.
           ++ intro H. congruence.
      * apply Forall2_modifyNode. reflexivity.
    + match goal with
      | |- context [connectRandom _ _ _ _ ?W] => specialize (IH W)
      end.
      wsimpl_in IH. revert IH. apply Forall2_impl.
      intros a b (Ho & Ht & Hne & (l & Hl & Hincl & Hlen) & _).
      repeat split; auto.
      * exists l. repeat split; auto.
      * intros _ _ Hp. exfalso.
        assert (Hlen' : (0 < length pool)%nat).
        { destruct pool; [congruence | simpl; lia]. }
        destruct (at_index_random pool (draws_unit (drawn w)) Hlen')
          as (k0 & v & _ & _ & _ & Hat).
        congruence.
Qed.

Lemma floor_scaled r (m : Z) :
  0 <= r < 1 -> (0 < m)%Z -> (0 <= JS.floor (r * inject_Z m) < m)%Z.
Proof.
  intros [H0 H1] Hm.
  assert (Hq : 0 < inject_Z m).
  { change 0 with (inject_Z 0). rewrite <- Zlt_Qlt. exact Hm. }
  pose proof (Qfloor_le (r * inject_Z m)) as Hlo.
  assert (Ha : 0 <= r * inject_Z m) by nra.
  assert (Hb : r * inject_Z m < inject_Z m) by nra.
  unfold JS.floor. split.
  - apply Qfloor_resp_le in Ha. exact Ha.
  - rewrite Zlt_Qlt. lra.
Qed.

Lemma connectSource_stepped processes w s :
  Forall2 (stepped s (sourceWired processes))
    (nodes w) (nodes (connectSource draws processes w s)).
Proof.
  unfold connectSource. wsimpl.
  pose proof (@floor_scaled (draws (drawn w)) 3 (draws_unit _) eq_refl) as Hf.
  change (inject_Z 3) with 3 in Hf.
  set (f := JS.floor (draws (drawn w) * 3)) in *.
  match goal with
  | |- context [connectRandom _ ?a ?b ?c ?W] =>
      pose proof (connectRandom_grown a b c W) as H; wsimpl_in H
  end.
  revert H. apply Forall2_impl.
  intros a b (Ho & Ht & Hne & (l & Hl & Hincl & Hlen) & Hlow).
  split; [exact Ho |]. split; [exact Hne |].
  intros Ha. split; [exact Ht |].
  exists l. split; [exact Hl |]. split; [exact Hincl |]. split.
  - unfold bounded in Hlen. lia.
  - intro Hp. apply Hlow; auto.
    unfold bounded. destruct processes; [congruence | simpl length; lia].
Qed.

Lemma connectProcess_stepped processes destinations w p :
  Forall2 (stepped p (processWired processes destinations))
    (nodes w) (nodes (connectProcess draws processes destinations w p)).
Proof.
  unfold connectProcess. cbv zeta. wsimpl.
  pose proof (@floor_scaled (draws (drawn w)) 2 (draws_unit _) eq_refl) as Hf1.
  change (inject_Z 2) with 2 in Hf1.
  set (f1 := JS.floor (draws (drawn w) * 2)) in *.
  set (others := filter (fun q => negb (Nat.eqb q p)) processes).
  set (w1 := connectRandom draws p others _ _).
  pose proof (@floor_scaled (draws (drawn w1)) 2 (draws_unit _) eq_refl) as Hf2.
  change (inject_Z 2) with 2 in Hf2.
  set (f2 := JS.floor (draws (drawn w1) * 2)) in *.
  pose proof (connectRandom_grown p others (bounded f1 (length others))
                (set_drawn (S (drawn w)) w)) as H1.
  fold w1 in H1. wsimpl_in H1.
  pose proof (connectRandom_grown p destinations
                (bounded (1 + f2) (length destinations))
                (set_drawn (S (drawn w1)) w1)) as H2.
  wsimpl_in H2.
  revert H1 H2. apply Forall2_compose.
  intros a b c (Ho & Ht & Hne & (l1 & Hl1 & Hi1 & Hlen1) & _)
                (Ho' & Ht' & Hne' & (l2 & Hl2 & Hi2 & Hlen2) & Hlow).
  split; [congruence |]. split.
  - intro H. rewrite Hne', Hne; congruence.
  - intro Ha. split; [congruence |].
    exists l1, l2.
    split; [now rewrite Hl2, Hl1, app_assoc |]. split; [now rewrite Ha |]. split.
    { unfold bounded in Hlen1. lia. }
    split; [exact Hi2 |]. split.
    { unfold bounded in Hlen2. lia. }
    intro Hd. apply Hlow; [congruence | | exact Hd].
    unfold bounded. destruct destinations; [congruence | simpl length; lia].
Qed.

Lemma fold_stepped (P : Node -> Node -> Prop) (step : World -> nat -> World) l w :
  (forall w i, Forall2 (stepped i P) (nodes w) (nodes (step w i))) ->
  NoDup l ->
  Forall2 (fun a c => oid c = oid a
                      /\ (~ In (oid a) l -> c = a)
                      /\ (In (oid a) l -> P a c))
    (nodes w) (nodes (fold_left step l w)).
Proof.
  intros Hstep. revert w. induction l as [| i l IH]; intros w Hnd; simpl.
  - apply Forall2_same. intros a _.
    split; [reflexivity |]. split; [reflexivity | intros []].
  - inversion Hnd as [| ? ? Hnot Hnd']; subst.
    generalize (Hstep w i) (IH (step w i) Hnd'). apply Forall2_compose.
    intros a b c (Ho & Hne & Hi) (Ho' & Hne' & Hi').
    split; [congruence |]. split.
    + intro H. rewrite Hne', Hne; auto.
      * rewrite Ho. intro Hin. apply H. now right.
    + intros [Ha | Ha].
      * rewrite Hne'; [now apply Hi |]. rewrite Ho, <- Ha. exact Hnot.
      * destruct (Nat.eq_dec (oid a) i) as [E | E].
        -- rewrite Hne'; [now apply Hi |]. rewrite Ho, E. exact Hnot.
        -- rewrite <- (Hne E) at 1. apply Hi'. now rewrite Hne.
Qed.

Lemma Forall2_In_l {A B} (R : A -> B -> Prop) l1 l2 :
  Forall2 R l1 l2 -> Forall2 (fun a b => In a l1 /\ R a b) l1 l2.
Proof.
  induction 1 as [| a b l1 l2 Hab _ IH]; constructor.
  - split; [now left | exact Hab].
  - revert IH. apply Forall2_impl. intros a' b' [Hin HR].
    split; [now right | exact HR].
Qed.

Lemma NoDup_ofType t ns : NoDup (map oid ns) -> NoDup (ofType t ns).
Proof.
  unfold ofType. induction ns as [| a ns IH]; simpl; intro H.
  - constructor.
  - inversion H as [| ? ? Hnot Hnd]; subst.
    destruct (NodeType_eqb (type a) t); simpl; [| now apply IH].
    constructor; [| now apply IH].
    intro Hin. apply Hnot. apply in_map_iff in Hin.
    destruct Hin as [m [Hm Hin]]. apply filter_In in Hin.
    rewrite <- Hm. apply in_map. tauto.
Qed.

Lemma In_ofType t ns a :
  NoDup (map oid ns) -> In a ns -> (In (oid a) (ofType t ns) <-> type a = t).
Proof.
  intros Hnd Ha. unfold ofType. split.
  - intro H. apply in_map_iff in H. destruct H as [m [Hm Hin]].
    apply filter_In in Hin. destruct Hin as [Hin Ht].
    apply NodeType_eqb_eq in Ht.
    assert (m = a) by (apply (NoDup_oid_eq ns); auto). now subst.
  - intro Ht. apply in_map. apply filter_In. split; [exact Ha |].
    now apply NodeType_eqb_eq.
Qed.

Lemma initializeConnections_wired w :
  NoDup (map oid (nodes w)) ->
  Forall2 (wiredFrom (ofType Process (nodes w)) (ofType Destination (nodes w)))
    (nodes w) (nodes (initializeConnections draws w)).
Proof.
  intro Hnd. unfold initializeConnections. cbv zeta.
  set (sources := ofType Source (nodes w)).
  set (processes := ofType Process (nodes w)).
  set (destinations := ofType Destination (nodes w)).
  pose proof (@fold_stepped (sourceWired processes)
                (connectSource draws processes) sources w
                (connectSource_stepped processes)
                (@NoDup_ofType Source _ Hnd)) as H1.
  apply Forall2_In_l in H1.
  set (w1 := fold_left (connectSource draws processes) sources w) in *.
  pose proof (@fold_stepped (processWired processes destinations)
                (connectProcess draws processes destinations) processes w1
                (connectProcess_stepped processes destinations)
                (@NoDup_ofType Process _ Hnd)) as H2.
  revert H1 H2. apply Forall2_compose.
  intros a b c (Hin & Ho & Hne & Hi) (Ho' & Hne' & Hi').
  pose proof (@In_ofType Source (nodes w) a Hnd Hin) as Hs.
  pose proof (@In_ofType Process (nodes w) a Hnd Hin) as Hp.
  fold sources in Hs. fold processes in Hp.
  unfold wiredFrom. split; [congruence |].
  destruct (type a) eqn:Et.
  - assert (Hb : sourceWired processes a b) by (apply Hi, Hs; reflexivity).
    assert (c = b).
    { apply Hne'. rewrite Ho. intro H. apply Hp in H. discriminate. }
    subst c. split; [rewrite (proj1 Hb); exact Et | exact Hb].
  - assert (b = a).
    { apply Hne. intro H. apply Hs in H. discriminate. }
    subst b.
    assert (Hc : processWired processes destinations a c)
      by (apply Hi', Hp; reflexivity).
    split; [rewrite (proj1 Hc); exact Et | exact Hc].
  - assert (b = a).
    { apply Hne. intro H. apply Hs in H. discriminate. }
    subst b.
    assert (c = a).
    { apply Hne'. intro H. apply Hp in H. discriminate. }
    subst c. split; [exact Et | reflexivity].
Qed.

End Wiring.

Lemma typeFor_spec (N : Z) (i : nat) :
  typeFor N i
  = if (5 * Z.of_nat i <? N)%Z then Source
    else if (5 * Z.of_nat i <? 4 * N)%Z then Process else Destination.
Proof.
  unfold typeFor.
  destruct (5 * Z.of_nat i <? N)%Z eqn:F1;
    destruct (5 * Z.of_nat i <? 4 * N)%Z eqn:F2;
    try apply Z.ltb_lt in F1; try apply Z.ltb_ge in F1;
    try apply Z.ltb_lt in F2; try apply Z.ltb_ge in F2;
    destruct (JS.ltb (inject_Z (Z.of_nat i)) (inject_Z N * (2 # 10))) eqn:E1;
    try destruct (JS.ltb (inject_Z (Z.of_nat i)) (inject_Z N * (8 # 10))) eqn:E2;
    try reflexivity; exfalso;
    js_prop; unfold Qlt, Qle in *;
    cbn [Qnum Qden inject_Z Qmult] in *; lia.
Qed.

Lemma calculateOptimalNodeCount_bounds Math_sqrt width height :
  (15 <= calculateOptimalNodeCount Math_sqrt width height <= 50)%Z.
Proof. unfold calculateOptimalNodeCount. lia. Qed.

Section Network.

Variable draws : nat -> Q.
Variable Math_sqrt : Q -> Q.

Lemma createNodes_loop_fresh N width height k i w :
  Forall (fun n => connections n = []) (nodes w) ->
  Forall (fun n => connections n = [])
    (nodes (createNodes_loop draws N width height k i w)).
Proof.
  revert i w. induction k as [| k IH]; intros i w Hall; cbn [createNodes_loop].
  - exact Hall.
  - wsimpl.
    match goal with
    | |- context [newNode ?d ?a ?b ?c ?e ?t ?W] =>
        pose proof (newNode_spec d a b c e t W) as Hnew;
        destruct (newNode d a b c e t W) as [node w1]
    end.
    cbn [fst snd] in Hnew. wsimpl_in Hnew.
    destruct Hnew as (Ho & Ht & Hc & Hp & Hn & Hop & Hto & Hns & Hpool).
    apply IH. wsimpl. unfold JS.push. apply Forall_app. rewrite Hns.
    split; [exact Hall |]. constructor; [exact Hc | constructor].
Qed.

Hypothesis draws_unit : forall n, 0 <= draws n < 1.

Lemma wired_wellWired width height w :
  let N := calculateOptimalNodeCount Math_sqrt width height in
  let ns := nodes (wired draws Math_sqrt width height w) in
  map oid ns = seq 0 (Z.to_nat N)
  /\ closed ns
  /\ Forall (wellWiredK (typeFor N)) ns.
Proof.
  intros N ns. subst ns. unfold wired, createNodes. cbv zeta. fold N.
  destruct (@createNodes_loop_ok draws N width height (Z.to_nat N) 0
              (set_nodes [] w)) as (H1 & H2 & _); [reflexivity | constructor |].
  pose proof (@createNodes_loop_fresh N width height (Z.to_nat N) 0
                (set_nodes [] w) (Forall_nil _)) as H3.
  set (w0 := createNodes_loop draws N width height (Z.to_nat N) 0 (set_nodes [] w))
    in *.
  simpl in H1.
  assert (Hnd : NoDup (map oid (nodes w0))) by (rewrite H1; apply seq_NoDup).
  pose proof (@initializeConnections_wired draws draws_unit w0 Hnd) as Hw.
  pose proof (calculateOptimalNodeCount_bounds Math_sqrt width height) as HN.
  fold N in HN.
  set (processes := ofType Process (nodes w0)) in *.
  set (destinations := ofType Destination (nodes w0)) in *.
  assert (Hkind : forall k, (k < Z.to_nat N)%nat ->
            exists n, In n (nodes w0) /\ oid n = k /\ type n = typeFor N k).
  { intros k Hk. assert (Hin : In k (map oid (nodes w0))).
    { rewrite H1. apply in_seq. lia. }
    apply in_map_iff in Hin. destruct Hin as [n [Ho Hn]].
    exists n. repeat split; auto.
    rewrite Forall_forall in H2. destruct (H2 n Hn) as [Hb _].
    rewrite (ok_type Hb). congruence. }
  assert (Hp : processes <> []).
  { destruct (Hkind 10%nat) as (n & Hn & Ho & Ht); [lia |].
    rewrite typeFor_spec in Ht.
    destruct (5 * Z.of_nat 10 <? N)%Z eqn:F1; [apply Z.ltb_lt in F1; lia |].
    destruct (5 * Z.of_nat 10 <? 4 * N)%Z eqn:F2; [| apply Z.ltb_ge in F2; lia].
    assert (In (oid n) processes) by (now apply In_ofType).
    intro E. rewrite E in H. destruct H. }
  assert (Hd : destinations <> []).
  { destruct (Hkind (Z.to_nat (N - 1))) as (n & Hn & Ho & Ht); [lia |].
    rewrite typeFor_spec in Ht. rewrite Z2Nat.id in Ht by lia.
    destruct (5 * (N - 1) <? N)%Z eqn:F1; [apply Z.ltb_lt in F1; lia |].
    destruct (5 * (N - 1) <? 4 * N)%Z eqn:F2; [apply Z.ltb_lt in F2; lia |].
    assert (In (oid n) destinations) by (now apply In_ofType).
    intro E. rewrite E in H. destruct H. }
  assert (Hoids : map oid (nodes (initializeConnections draws w0))
                  = map oid (nodes w0)).
  { clear -Hw. induction Hw as [| a b l l' (Ho & _) _ IH]; simpl; congruence. }
  assert (Hpk : forall c, In c processes -> typeFor N c = Process
                                           /\ In c (map oid (nodes w0))).
  { intros c Hc. split; [now apply (@ofType_kind (typeFor N) Process (nodes w0) c H2) |].
    unfold processes, ofType in Hc. apply in_map_iff in Hc.
    destruct Hc as [m [<- Hm]]. apply filter_In in Hm. apply in_map. tauto. }
  assert (Hdk : forall c, In c destinations -> typeFor N c = Destination
                                              /\ In c (map oid (nodes w0))).
  { intros c Hc. split; [now apply (@ofType_kind (typeFor N) Destination (nodes w0) c H2) |].
    unfold destinations, ofType in Hc. apply in_map_iff in Hc.
    destruct Hc as [m [<- Hm]]. apply filter_In in Hm. apply in_map. tauto. }
  assert (Hall : forall b, In b (nodes (initializeConnections draws w0)) ->
            wellWiredK (typeFor N) b
            /\ forall c, In c (connections b) -> In c (map oid (nodes w0))).
  { intros b Hb. destruct (Forall2_In_r _ Hw Hb) as (a & Ha & Ho & Ht & Hk).
    rewrite Forall_forall in H3. pose proof (H3 a Ha) as Hc0.
    unfold wellWiredK. rewrite Ht.
    destruct (type a) eqn:Et.
    - destruct Hk as (_ & l & Hl & Hincl & Hlen & Hlow).
      rewrite Hc0 in Hl. simpl in Hl. rewrite Hl in *.
      split; [split; [exact Hlen |] |].
      + split.
        * destruct (Hlow Hp) as (t & _ & Hin). intro E. rewrite E in Hin.
          destruct Hin.
        * intros c Hc. now apply Hpk, Hincl.
      + intros c Hc. now apply Hpk, Hincl.
    - destruct Hk as (_ & l1 & l2 & Hl & Hi1 & Hlen1 & Hi2 & Hlen2 & Hlow).
      rewrite Hc0 in Hl. simpl in Hl.
      assert (Hi1' : forall c, In c l1 -> In c processes /\ c <> oid a).
      { intros c Hc. apply Hi1 in Hc. apply filter_In in Hc.
        destruct Hc as [Hc Hne]. apply negb_true_iff, Nat.eqb_neq in Hne. tauto. }
      split; [split |].
      + rewrite Hl, length_app. lia.
      + split.
        * destruct (Hlow Hd) as (t & Ht1 & Ht2). exists t.
          split; [exact Ht2 | now apply Hdk].
        * intros c Hc. rewrite Hl in Hc. apply in_app_iff in Hc.
          destruct Hc as [Hc | Hc].
          -- left. now apply Hpk, Hi1'.
          -- right. now apply Hdk, Hi2.
      + intros c Hc. rewrite Hl in Hc. apply in_app_iff in Hc.
        destruct Hc as [Hc | Hc].
        * now apply Hpk, Hi1'.
        * now apply Hdk, Hi2.
    - subst b. split; [split |].
      + rewrite Hc0. simpl. lia.
      + exact Hc0.
      + rewrite Hc0. intros c []. }
  split; [now rewrite Hoids |]. split.
  - intros b c Hb Hc. rewrite Hoids. now apply (Hall b Hb).
  - apply Forall_forall. intros b Hb. now apply Hall.
Qed.

End Network.

Lemma wellWiredK_nodes kindOf ns n :
  closed ns -> Forall (fun m => type m = kindOf (oid m)) ns ->
  In n ns -> wellWiredK kindOf n -> wellWired ns n.
Proof.
  intros Hc Hk Hn [Hlen Hw]. split; [exact Hlen |].
  assert (Ht : forall c t, In c (connections n) -> kindOf c = t -> targetOf ns c t).
  { intros c t Hin Hkc. pose proof (Hc n c Hn Hin) as Ho.
    apply in_map_iff in Ho. destruct Ho as [m [Ho Hm]].
    exists m. repeat split; auto.
    rewrite Forall_forall in Hk. rewrite (Hk m Hm). congruence. }
  destruct (type n).
  - destruct Hw as [H1 H2]. split; [exact H1 |]. intros c Hin. apply Ht; auto.
  - destruct Hw as [(d & Hd1 & Hd2) H2]. split.
    + exists d. split; [exact Hd1 | now apply Ht].
    + intros c Hin. destruct (H2 c Hin); [left | right]; now apply Ht.
  - exact Hw.
Qed.

Lemma createNetwork_wiring_nodes draws Math_sqrt width height w :
  (forall n, 0 <= draws n < 1) ->
  Forall (wellWired (nodes (createNetwork draws Math_sqrt width height w)))
    (nodes (createNetwork draws Math_sqrt width height w)).
Proof.
  intros Hd.
  set (ns := nodes (createNetwork draws Math_sqrt width height w)).
  destruct (@wired_wellWired draws Math_sqrt Hd width height w) as (_ & Hc & Hall).
  destruct (@createNetwork_built draws Math_sqrt width height w) as [[_ Hb] _].
  fold ns in Hb.
  assert (Hsub : forall n, In n ns -> In n (nodes (wired draws Math_sqrt width height w)))
    by apply optimize_loop_keeps.
  assert (Hcl : closed ns) by (apply optimize_loop_keeps; exact Hc).
  apply Forall_forall. intros n Hn.
  apply wellWiredK_nodes
    with (kindOf := typeFor (calculateOptimalNodeCount Math_sqrt width height));
    auto.
  - revert Hb. apply Forall_impl. intros m [[] _]. assumption.
  - rewrite Forall_forall in Hall. now apply Hall, Hsub.
Qed.

(** X13.  In the array [createNetwork] returns, for draws in [[0, 1)]: a
    node has at most 3 connections; a source has at least one, all to
    process nodes of the array; a process has at least one to a destination
    of the array, and its others go to process or destination nodes of the
    array; a destination has none.  No connection refers to a node that
    pruning removed. *)
Theorem createNetwork_wiring :
  forall (draws : nat -> Q) (Math_sqrt : Q -> Q) (width height : Q) (w : World),
    (forall n, 0 <= draws n < 1) ->
    let ns := nodes (createNetwork draws Math_sqrt width height w) in
    Forall (wellWired ns) ns.
Proof.
  intros draws Math_sqrt width height w Hd ns.
  now apply createNetwork_wiring_nodes.
Qed.

Lemma createNetwork_wiring_witness :
  Forall (wellWired (nodes (createNetwork steady_draws (sqrt_bits 20) 800 600 boot)))
    (nodes (createNetwork steady_draws (sqrt_bits 20) 800 600 boot)).
Proof.
  apply (@createNetwork_wiring steady_draws (sqrt_bits 20) 800 600 boot).
  apply steady_draws_unit.
Defined.

Section Created.

Variable draws : nat -> Q.
Hypothesis draws_unit : forall n, 0 <= draws n < 1.

Lemma newNode_created i x0 y0 r t w width height :
  0 <= x0 <= width -> 0 <= y0 <= height -> 5 <= r < 13 ->
  created width height (fst (newNode draws i x0 y0 r t w)).
Proof.
  intros Hx Hy Hr. unfold newNode. wsimpl. cbn [fst].
  pose proof (draws_unit (S (drawn w))) as H2.
  pose proof (draws_unit (S (S (drawn w)))) as H3.
  unfold created. cbn. repeat split; try tauto; try reflexivity; lra.
Qed.

Lemma createNodes_loop_created N width height k i w :
  0 <= width -> 0 <= height ->
  Forall (created width height) (nodes w) ->
  Forall (created width height)
    (nodes (createNodes_loop draws N width height k i w)).
Proof.
  intros Hw Hh. revert i w. induction k as [| k IH]; intros i w Hall;
    cbn [createNodes_loop].
  - exact Hall.
  - wsimpl.
    pose proof (draws_unit (drawn w)) as H1.
    pose proof (draws_unit (S (drawn w))) as H2.
    pose proof (draws_unit (S (S (drawn w)))) as H3.
    match goal with
    | |- context [newNode ?d ?a ?b ?c ?e ?t ?W] =>
        pose proof (newNode_spec d a b c e t W) as Hnew;
        pose proof (@newNode_created a b c e t W width height) as Hcr;
        destruct (newNode d a b c e t W) as [node w1]
    end.
    cbn [fst snd] in Hnew, Hcr. wsimpl_in Hnew.
    destruct Hnew as (Ho & Ht & Hc & Hp & Hn & Hop & Hto & Hns & Hpool).
    apply IH. wsimpl. unfold JS.push. apply Forall_app. rewrite Hns.
    split; [exact Hall |]. constructor; [| constructor].
    apply Hcr; split; nra.
Qed.

End Created.

(** X14.  [createNodes] on an empty array, with the count
    [calculateOptimalNodeCount] gives, on a canvas of non-negative size:
    between 15 and 50 nodes; the node of index [i] has identity [i], is a
    source when [5i < N], a process when [N <= 5i < 4N] and a destination
    otherwise; it has no connection, lies on the canvas, has a radius in
    [[5, 13)], no pulse, no velocity, and is neither dragged nor
    hovered. *)
Theorem createNodes_spec :
  forall (draws : nat -> Q) (Math_sqrt : Q -> Q) (width height : Q) (w : World),
    (forall n, 0 <= draws n < 1) ->
    0 <= width -> 0 <= height ->
    let N := calculateOptimalNodeCount Math_sqrt width height in
    let ns := nodes (createNodes draws N width height (set_nodes [] w)) in
    (15 <= N <= 50)%Z
    /\ length ns = Z.to_nat N
    /\ (forall i n, nth_error ns i = Some n ->
          oid n = i
          /\ type n = (if (5 * Z.of_nat i <? N)%Z then Source
                       else if (5 * Z.of_nat i <? 4 * N)%Z then Process
                       else Destination)
          /\ connections n = []
          /\ created width height n).
Proof.
  intros draws Math_sqrt width height w Hd Hw Hh N ns.
  split; [apply calculateOptimalNodeCount_bounds |].
  subst ns. unfold createNodes.
  destruct (@createNodes_loop_ok draws N width height (Z.to_nat N) 0
              (set_nodes [] w)) as (H1 & H2 & _); [reflexivity | constructor |].
  pose proof (@createNodes_loop_created draws Hd N width height (Z.to_nat N) 0
                (set_nodes [] w) Hw Hh (Forall_nil _)) as H3.
  pose proof (@createNodes_loop_fresh draws N width height (Z.to_nat N) 0
                (set_nodes [] w) (Forall_nil _)) as H4.
  set (ns := nodes (createNodes_loop draws N width height (Z.to_nat N) 0
                      (set_nodes [] w))) in *.
  simpl in H1. split.
  - rewrite <- (length_map oid), H1. apply length_seq.
  - intros i n Hi.
    assert (Ho : oid n = i).
    { pose proof (map_nth_error oid _ _ Hi) as Hm. rewrite H1 in Hm.
      assert (Hlt : (i < Z.to_nat N)%nat).
      { rewrite <- (length_seq (Z.to_nat N) 0). apply nth_error_Some. congruence. }
      apply (nth_error_nth _ _ 0%nat) in Hm. rewrite seq_nth in Hm by exact Hlt.
      simpl in Hm. congruence. }
    apply nth_error_In in Hi. rewrite Forall_forall in H2, H3, H4.
    split; [exact Ho |]. split; [| split; [now apply H4 | now apply H3]].
    destruct (H2 n Hi) as [Hb _]. rewrite (ok_type Hb), Ho. apply typeFor_spec.
Qed.

Lemma createNodes_spec_witness :
  let N := calculateOptimalNodeCount (sqrt_bits 20) 800 600 in
  let ns := nodes (createNodes steady_draws N 800 600 (set_nodes [] boot)) in
  (15 <= N <= 50)%Z /\ length ns = Z.to_nat N.
Proof.
  intros N ns.
  destruct (@createNodes_spec steady_draws (sqrt_bits 20) 800 600 boot
              steady_draws_unit) as (H1 & H2 & _).
  - vm_compute. discriminate.
  - vm_compute. discriminate.
  - split; [exact H1 | exact H2].
Defined.

(** ** Fields a function leaves alone *)

Section Projection.

Context {B : Type}.
Variable proj : Node -> B.

Lemma proj_map f ns :
  (forall n, proj (f n) = proj n) -> map proj (map f ns) = map proj ns.
Proof. intro H. rewrite map_map. apply map_ext. exact H. Qed.

Lemma proj_modifyNode i f ns :
  (forall n, proj (f n) = proj n) -> map proj (modifyNode i f ns) = map proj ns.
Proof.
  intro H. unfold modifyNode. rewrite map_map. apply map_ext.
  intro n. destruct (Nat.eqb (oid n) i); [apply H | reflexivity].
Qed.

Lemma proj_modifyAt a f ns :
  (forall n, proj (f n) = proj n) -> map proj (modifyAt a f ns) = map proj ns.
Proof.
  intro H. revert a. induction ns as [| n ns IH]; intros [| a]; simpl;
    try reflexivity.
  - now rewrite H.
  - now rewrite IH.
Qed.

Lemma proj_fold {A} (step : list Node -> A -> list Node) (l : list A) ns :
  (forall ns a, map proj (step ns a) = map proj ns) ->
  map proj (fold_left step l ns) = map proj ns.
Proof.
  intro H. revert ns. induction l as [| a l IH]; intro ns; simpl.
  - reflexivity.
  - now rewrite IH, H.
Qed.

Lemma proj_fold_world {A} (step : World -> A -> World) (l : list A) w :
  (forall w a, map proj (nodes (step w a)) = map proj (nodes w)) ->
  map proj (nodes (fold_left step l w)) = map proj (nodes w).
Proof.
  intro H. revert w. induction l as [| a l IH]; intro w; simpl.
  - reflexivity.
  - now rewrite IH, H.
Qed.

Lemma proj_In ns ns' n' :
  map proj ns' = map proj ns -> In n' ns' ->
  exists n, In n ns /\ proj n = proj n'.
Proof.
  intros H Hin. apply (in_map proj) in Hin. rewrite H in Hin.
  apply in_map_iff in Hin. destruct Hin as [n [Hn Hin]]. now exists n.
Qed.

(** *** The simulation *)

Section Simulation.

Variable draws : nat -> Q.

Hypothesis proj_set_pulses : forall v n, proj (set_pulses v n) = proj n.
Hypothesis proj_set_processingPulses :
  forall v n, proj (set_processingPulses v n) = proj n.
Hypothesis proj_set_active : forall v n, proj (set_active v n) = proj n.
Hypothesis proj_set_opacity : forall v n, proj (set_opacity v n) = proj n.
Hypothesis proj_set_targetOpacity :
  forall v n, proj (set_targetOpacity v n) = proj n.
Hypothesis proj_set_lastPulseTime :
  forall v n, proj (set_lastPulseTime v n) = proj n.

Lemma proj_emit p n : proj (emit p n) = proj n.
Proof.
  unfold emit. cbv zeta.
  destruct (0 <? _)%Z; now rewrite ?proj_set_processingPulses, ?proj_set_pulses.
Qed.

Lemma proj_arrive n : proj (arrive n) = proj n.
Proof.
  unfold arrive. cbv zeta.
  now rewrite proj_set_targetOpacity, proj_set_opacity, proj_set_active,
    proj_set_processingPulses.
Qed.

Lemma proj_relax time n : proj (relax time n) = proj n.
Proof.
  unfold relax. cbv zeta.
  repeat (match goal with
          | |- context [if ?c then _ else _] => destruct c
          end;
          rewrite ?proj_set_active, ?proj_set_opacity, ?proj_set_targetOpacity);
  reflexivity.
Qed.

Lemma proj_send t w :
  map proj (nodes (sendRandomImpulse draws t w)) = map proj (nodes w).
Proof.
  destruct (send_nodes draws t w) as [-> | [pulse ->]]; [reflexivity |].
  apply proj_modifyNode. apply proj_emit.
Qed.

Lemma proj_forward t w :
  map proj (nodes (forward draws t w)) = map proj (nodes w).
Proof.
  unfold forward.
  destruct (getNode t (nodes w)) as [tn |]; [| reflexivity].
  destruct (active tn); [| reflexivity].
  destruct (NodeType_eqb (type tn) Process); [| reflexivity].
  cbn [Math_random]. destruct (JS.gtb _ _); [| reflexivity].
  now rewrite proj_send.
Qed.

Lemma proj_pulseStep i dt j w :
  map proj (nodes (pulseStep draws i dt j w)) = map proj (nodes w).
Proof.
  unfold pulseStep.
  destruct (getNode i (nodes w)) as [this |]; [| reflexivity].
  destruct (nth_error (pulses this) j) as [pulse |]; [| reflexivity].
  cbv zeta. destruct (JS.geb _ _).
  - wsimpl. rewrite proj_modifyNode by (intro; apply proj_set_pulses).
    rewrite recyclePulse_nodes, proj_forward. wsimpl.
    rewrite proj_modifyNode by apply proj_arrive.
    apply proj_modifyNode. intro; apply proj_set_pulses.
  - wsimpl. apply proj_modifyNode. intro; apply proj_set_pulses.
Qed.

Lemma proj_updatePulses i dt w :
  map proj (nodes (updatePulses draws i dt w)) = map proj (nodes w).
Proof.
  unfold updatePulses. destruct (getNode i (nodes w)) as [this |]; [| reflexivity].
  generalize (length (pulses this)). intro k. revert w.
  induction k as [| k IH]; intro w; simpl; [reflexivity |].
  now rewrite IH, proj_pulseStep.
Qed.

Lemma proj_update i time dt w :
  map proj (nodes (update draws i time dt w)) = map proj (nodes w).
Proof.
  unfold update. cbv zeta. rewrite proj_updatePulses.
  set (w1 := withNode i (relax time) w).
  assert (H1 : map proj (nodes w1) = map proj (nodes w)).
  { subst w1. wsimpl. apply proj_modifyNode, proj_relax. }
  set (w2 := match getNode i (nodes w1) with Some _ => _ | None => w1 end).
  assert (H2 : map proj (nodes w2) = map proj (nodes w1)).
  { subst w2. destruct (getNode i (nodes w1)) as [this |]; [| reflexivity].
    destruct (_ && _); [| reflexivity].
    rewrite proj_send. wsimpl. apply proj_modifyNode.
    intro; apply proj_set_lastPulseTime. }
  rewrite <- H1, <- H2.
  destruct (getNode i (nodes w2)) as [this |]; [| reflexivity].
  destruct (_ && _); [| reflexivity].
  cbn [Math_random]. destruct (JS.gtb _ _); [| reflexivity].
  now rewrite proj_send.
Qed.

End Simulation.

(** *** Layout, integration and pointer handlers *)

Section Kinematics.

Variable draws : nat -> Q.
Variable Math_sqrt : Q -> Q.

Hypothesis proj_set_x : forall v n, proj (set_x v n) = proj n.
Hypothesis proj_set_y : forall v n, proj (set_y v n) = proj n.
Hypothesis proj_set_vx : forall v n, proj (set_vx v n) = proj n.
Hypothesis proj_set_vy : forall v n, proj (set_vy v n) = proj n.
Hypothesis proj_set_isDragged : forall v n, proj (set_isDragged v n) = proj n.
Hypothesis proj_set_isHovered : forall v n, proj (set_isHovered v n) = proj n.

Local Ltac proj_node :=
  intros; cbv zeta;
  repeat first
    [ progress rewrite ?proj_set_x, ?proj_set_y, ?proj_set_vx, ?proj_set_vy,
        ?proj_set_isDragged, ?proj_set_isHovered
    | match goal with
      | |- context [if ?c then _ else _] => destruct c
      | |- context [match ?c with Some _ => _ | None => _ end] => destruct c
      | |- context [let '(_, _) := ?c in _] => destruct c
      end ];
  reflexivity.

Lemma proj_add_v a b n : proj (add_v a b n) = proj n.
Proof. unfold add_v. proj_node. Qed.

Lemma proj_sub_v a b n : proj (sub_v a b n) = proj n.
Proof. unfold sub_v. proj_node. Qed.

Lemma proj_enforceBoundaries w h n : proj (enforceBoundaries w h n) = proj n.
Proof. unfold enforceBoundaries. proj_node. Qed.

Lemma proj_limitVelocity c n : proj (limitVelocity Math_sqrt c n) = proj n.
Proof. unfold limitVelocity. proj_node. Qed.

Lemma proj_applyContentRepulsion r c n :
  proj (applyContentRepulsion Math_sqrt r c n) = proj n.
Proof. unfold applyContentRepulsion, add_v. proj_node. Qed.

Lemma proj_applyEdgeForces w h c n : proj (applyEdgeForces w h c n) = proj n.
Proof. unfold applyEdgeForces. proj_node. Qed.

Lemma proj_updatePosition w h s n : proj (updatePosition w h s n) = proj n.
Proof. unfold updatePosition. proj_node. Qed.

Lemma proj_dampen n : proj (dampen n) = proj n.
Proof. unfold dampen. proj_node. Qed.

Lemma proj_blend o w h n : proj (blend o w h n) = proj n.
Proof.
  unfold blend. cbv zeta. rewrite proj_enforceBoundaries.
  destruct (find _ o) as [[? [? ?]] |]; [| reflexivity].
  now rewrite proj_set_vy, proj_set_vx.
Qed.

Lemma proj_dragTo mx my w n : proj (dragTo mx my w n) = proj n.
Proof. unfold dragTo. proj_node. Qed.

Lemma proj_repel c a b ns : map proj (repel Math_sqrt c a b ns) = map proj ns.
Proof.
  unfold repel.
  destruct (nth_error ns a), (nth_error ns b); try reflexivity.
  destruct (isDragged n0); [reflexivity |]. cbv zeta.
  destruct (JS.ltb _ _); [| reflexivity].
  rewrite !proj_modifyAt; auto using proj_add_v, proj_sub_v.
Qed.

Lemma proj_applyNodeRepulsion_loop c a k b ns :
  map proj (applyNodeRepulsion_loop Math_sqrt c a k b ns) = map proj ns.
Proof.
  revert b ns. induction k as [| k IH]; intros b ns; simpl; [reflexivity |].
  now rewrite IH, proj_repel.
Qed.

Lemma proj_attract c a ns connected :
  map proj (attract Math_sqrt c a ns connected) = map proj ns.
Proof.
  unfold attract.
  destruct (nth_error ns a), (getNode connected ns); try reflexivity.
  destruct (isDragged n0); [reflexivity |]. cbv zeta.
  rewrite proj_modifyNode, proj_modifyAt; auto using proj_add_v, proj_sub_v.
Qed.

Lemma proj_attractAll c ns a :
  map proj (attractAll Math_sqrt c ns a) = map proj ns.
Proof.
  unfold attractAll. destruct (nth_error ns a); [| reflexivity].
  destruct (isDragged n); [reflexivity |].
  apply proj_fold. intros. apply proj_attract.
Qed.

Lemma proj_forcesOn w h r c ns a :
  map proj (forcesOn Math_sqrt w h r c ns a) = map proj ns.
Proof.
  unfold forcesOn. destruct (nth_error ns a); [| reflexivity].
  destruct (isDragged n); [reflexivity |]. cbv zeta.
  unfold applyNodeRepulsion.
  rewrite proj_applyNodeRepulsion_loop, !proj_modifyAt;
    auto using proj_applyContentRepulsion, proj_applyEdgeForces.
Qed.

Lemma proj_applyForces w h r c ns :
  map proj (applyForces Math_sqrt w h r c ns) = map proj ns.
Proof.
  unfold applyForces, applyConnectionAttractions. cbv zeta.
  rewrite proj_fold by (intros; apply proj_attractAll).
  apply proj_fold. intros. apply proj_forcesOn.
Qed.

Lemma proj_simulate w h r c k ns :
  map proj (simulate Math_sqrt w h r c k ns) = map proj ns.
Proof.
  revert ns. induction k as [| k IH]; intro ns; simpl; [reflexivity |].
  rewrite IH. unfold limitVelocities.
  rewrite proj_map by apply proj_limitVelocity. apply proj_applyForces.
Qed.

Lemma proj_applyForceLayout ns w h r strength :
  map proj (applyForceLayout Math_sqrt ns w h r strength) = map proj ns.
Proof.
  unfold applyForceLayout. destruct (JS.leb strength 0); [reflexivity |].
  cbv zeta. rewrite proj_map by apply proj_blend.
  rewrite proj_simulate. apply proj_map.
  intro n. now rewrite proj_set_vy, proj_set_vx.
Qed.

Lemma proj_layout r strength w :
  map proj (nodes (layout Math_sqrt r strength w)) = map proj (nodes w).
Proof. unfold layout. wsimpl. apply proj_applyForceLayout. Qed.

Lemma proj_checkNodeSelection px py w :
  map proj (nodes (checkNodeSelection Math_sqrt px py w)) = map proj (nodes w).
Proof.
  unfold checkNodeSelection. destruct (find _ (nodes w)); [| reflexivity].
  wsimpl. apply proj_modifyNode. intro; apply proj_set_isDragged.
Qed.

Lemma proj_dragSelected mx my w :
  map proj (nodes (dragSelected mx my w)) = map proj (nodes w).
Proof.
  unfold dragSelected. destruct (selectedNode w); [| reflexivity].
  wsimpl. apply proj_modifyNode. intro; apply proj_dragTo.
Qed.

Lemma proj_handleMouseUp w :
  map proj (nodes (handleMouseUp w)) = map proj (nodes w).
Proof.
  unfold handleMouseUp. cbv zeta. wsimpl.
  destruct (selectedNode w); [| reflexivity].
  wsimpl. apply proj_modifyNode. intro; apply proj_set_isDragged.
Qed.

Lemma proj_handleMouseMove mx my w :
  map proj (nodes (handleMouseMove Math_sqrt mx my w)) = map proj (nodes w).
Proof.
  unfold handleMouseMove. cbv zeta.
  set (w1 := set_nodes (map (set_isHovered false) (nodes w)) w).
  assert (H1 : map proj (nodes w1) = map proj (nodes w)).
  { subst w1. wsimpl. apply proj_map. intro; apply proj_set_isHovered. }
  set (w2 := if negb (isDragging w1) then _ else w1).
  assert (H2 : map proj (nodes w2) = map proj (nodes w1)).
  { subst w2. destruct (negb (isDragging w1)); [| reflexivity].
    destruct (find _ (nodes w1)); [| reflexivity].
    wsimpl. apply proj_modifyNode. intro; apply proj_set_isHovered. }
  rewrite <- H1, <- H2.
  destruct (isDragging w2); [apply proj_dragSelected | reflexivity].
Qed.

Hypothesis proj_set_pulses : forall v n, proj (set_pulses v n) = proj n.
Hypothesis proj_set_processingPulses :
  forall v n, proj (set_processingPulses v n) = proj n.
Hypothesis proj_set_active : forall v n, proj (set_active v n) = proj n.
Hypothesis proj_set_opacity : forall v n, proj (set_opacity v n) = proj n.
Hypothesis proj_set_targetOpacity :
  forall v n, proj (set_targetOpacity v n) = proj n.
Hypothesis proj_set_lastPulseTime :
  forall v n, proj (set_lastPulseTime v n) = proj n.

Lemma proj_renderNodes time dt r w :
  map proj (nodes (renderNodes draws Math_sqrt time dt r w)) = map proj (nodes w).
Proof.
  unfold renderNodes. cbv zeta.
  rewrite proj_fold_world
    by (intros; apply proj_update; assumption).
  wsimpl. rewrite proj_map by apply proj_dampen.
  unfold updatePositions. rewrite proj_map by apply proj_updatePosition.
  destruct (JS.gtb _ _); [| reflexivity].
  now rewrite proj_layout.
Qed.

Lemma proj_handle e w :
  map proj (nodes (handle draws Math_sqrt e w)) = map proj (nodes w).
Proof.
  destruct e as [t r | cw ch r | mx my | mx my | | ts | ts |]; cbn [handle].
  - unfold animate. cbv zeta. destruct (JS.geb _ _); [| reflexivity].
    now rewrite proj_renderNodes.
  - unfold resize. now rewrite proj_layout.
  - apply proj_checkNodeSelection.
  - apply proj_handleMouseMove.
  - apply proj_handleMouseUp.
  - unfold handleTouchStart. destruct ts as [| [mx my] [| ? ?]]; try reflexivity.
    apply proj_checkNodeSelection.
  - unfold handleTouchMove. destruct ts as [| [mx my] [| ? ?]]; try reflexivity.
    destruct (isDragging w); [apply proj_dragSelected | reflexivity].
  - apply proj_handleMouseUp.
Qed.

End Kinematics.

End Projection.

(** X15.  [Node.update] (with [sendRandomImpulse] and [updatePulses])
    never moves a node: identity, position, radius, velocity and the
    dragged and hovered flags of every node are what they were. *)
Theorem update_keeps_place :
  forall (draws : nat -> Q) (i : nat) (time deltaTime : Q) (w : World),
    map place (nodes (update draws i time deltaTime w)) = map place (nodes w).
Proof. intros. now apply proj_update. Qed.

(** X16.  No event changes the network: after any frame, resize or pointer
    event the array holds the same nodes in the same order, each with the
    type, connections, radius, activation time and pulse interval it
    had. *)
Theorem network_is_static :
  forall (draws : nat -> Q) (Math_sqrt : Q -> Q) (e : Event) (w : World),
    map frame (nodes (handle draws Math_sqrt e w)) = map frame (nodes w).
Proof. intros. now apply proj_handle. Qed.

(** ** Frames *)

Lemma dampen_place n :
  x (dampen n) = x n /\ y (dampen n) = y n /\ radius (dampen n) = radius n
  /\ isDragged (dampen n) = isDragged n.
Proof. unfold dampen. destruct (negb (isDragged n)); repeat split. Qed.

Lemma place_fields a b :
  place a = place b ->
  x a = x b /\ y a = y b /\ radius a = radius b /\ isDragged a = isDragged b.
Proof. unfold place. intro H. injection H as ? ? ? ? ? ? ? ?. auto. Qed.

Lemma layout_canvas s r strength w :
  canvasWidth (layout s r strength w) = canvasWidth w
  /\ canvasHeight (layout s r strength w) = canvasHeight w.
Proof. split; reflexivity. Qed.

(** X17.  After [renderNodes], every node that is not dragged lies inside
    the margins of the canvas, provided the canvas is at least [4r] wide
    and high: what follows the integration of positions in a frame does
    not move nodes. *)
Theorem rendered_frame_within_bounds :
  forall (draws : nat -> Q) (Math_sqrt : Q -> Q) (time deltaTime : Q)
         (contentRect : option Rect) (w : World) (n : Node),
    In n (nodes (renderNodes draws Math_sqrt time deltaTime contentRect w)) ->
    isDragged n = false ->
    radius n * 4 <= canvasWidth w -> radius n * 4 <= canvasHeight w ->
    within_bounds (canvasWidth w) (canvasHeight w) n.
Proof.
  intros draws Math_sqrt time dt r w n Hin Hd Hw Hh.
  unfold renderNodes in Hin. cbv zeta in Hin.
  match type of Hin with
  | In _ (nodes (fold_left _ _ ?W)) => set (w3 := W) in *
  end.
  assert (Hp : map place (nodes (fold_left (fun w i => update draws i time dt w)
                                   (map oid (nodes w3)) w3))
               = map place (nodes w3)).
  { apply proj_fold_world. intros. now apply proj_update. }
  destruct (@proj_In _ place _ _ n Hp Hin) as (m & Hm & Hpm).
  apply place_fields in Hpm. destruct Hpm as (Hx & Hy & Hr & Hdm).
  subst w3. wsimpl_in Hm.
  apply in_map_iff in Hm. destruct Hm as (m1 & <- & Hm1).
  destruct (dampen_place m1) as (Dx & Dy & Dr & Dd).
  rewrite Dx in Hx. rewrite Dy in Hy. rewrite Dr in Hr. rewrite Dd in Hdm.
  unfold updatePositions in Hm1. apply in_map_iff in Hm1.
  destruct Hm1 as (m0 & <- & _).
  match type of Hx with
  | x (updatePosition ?cw ?ch ?s m0) = _ =>
      assert (Ecw : cw = canvasWidth w)
        by (destruct (JS.gtb _ _); reflexivity);
      assert (Ech : ch = canvasHeight w)
        by (destruct (JS.gtb _ _); reflexivity);
      rewrite Ecw, Ech in *;
      pose proof (@updatePosition_within_bounds (canvasWidth w) (canvasHeight w)
                    s m0) as Hb
  end.
  rewrite updatePosition_isDragged in Hdm.
  rewrite updatePosition_radius in Hr.
  unfold within_bounds in *. rewrite <- Hx, <- Hy, <- Hr.
  rewrite updatePosition_radius in Hb.
  apply Hb; congruence.
Qed.

Lemma rendered_frame_within_bounds_witness :
  within_bounds 800 600
    (nth 0 (nodes (renderNodes steady_draws (sqrt_bits 20) 100 (16667 # 1000)
                     None drifting_world)) drifting).
Proof.
  apply (@rendered_frame_within_bounds steady_draws (sqrt_bits 20) 100
           (16667 # 1000) None drifting_world).
  - vm_compute. left. reflexivity.
  - vm_compute. reflexivity.
  - vm_compute. discriminate.
  - vm_compute. discriminate.
Defined.

Lemma last_default {A} (l : list A) a d d' :
  last (a :: l) d = last (a :: l) d'.
Proof.
  revert a. induction l as [| b l IH]; intro a; [reflexivity |].
  exact (IH b).
Qed.

Lemma last_cons_default {A} (a : A) l d : last (a :: l) d = last l a.
Proof.
  destruct l as [| b l]; [reflexivity |].
  exact (last_default l b d a).
Qed.

Lemma skipped_frame draws Math_sqrt t r w :
  t - JS.or_else (lastFrameTime w) t < frameInterval ->
  animate draws Math_sqrt t r w = set_lastFrameTime t w.
Proof.
  intro H. unfold animate. cbv zeta.
  apply JSFacts.geb_lt in H. now rewrite H.
Qed.

(** X18.  [animate] records the time of every frame, rendered or not: a
    run of frames each less than [frameInterval] (1000/60 ms) after the one
    before (the first frame of a session is one) renders nothing and leaves
    the world as it was but for [lastFrameTime]. *)
Theorem fast_frames_are_never_rendered :
  forall (draws : nat -> Q) (Math_sqrt : Q -> Q) (contentRect : option Rect)
         (ts : list Q) (w : World),
    skipped (lastFrameTime w) ts ->
    run draws Math_sqrt (map (fun t => Frame t contentRect) ts) w
    = set_lastFrameTime (last ts (lastFrameTime w)) w.
Proof.
  intros draws Math_sqrt r ts. induction ts as [| t ts IH]; intros w H.
  - simpl. destruct w; reflexivity.
  - destruct H as [H1 H2]. cbn [map run fold_left handle].
    rewrite skipped_frame by exact H1.
    change (fold_left (fun w e => handle draws Math_sqrt e w)
              (map (fun t => Frame t r) ts) (set_lastFrameTime t w))
      with (run draws Math_sqrt (map (fun t => Frame t r) ts)
              (set_lastFrameTime t w)).
    rewrite IH by exact H2.
    rewrite (last_cons_default t ts (lastFrameTime w)).
    destruct w; reflexivity.
Qed.

Lemma fast_frames_are_never_rendered_witness :
  run steady_draws (sqrt_bits 20)
    (map (fun t => Frame t None) [1000; 1008; 1017; 1025; 1033])
    (initApp steady_draws (sqrt_bits 20) 800 600 None)
  = set_lastFrameTime 1033 (initApp steady_draws (sqrt_bits 20) 800 600 None).
Proof.
  assert (H : skipped (lastFrameTime (initApp steady_draws (sqrt_bits 20)
                                        800 600 None))
                [1000; 1008; 1017; 1025; 1033])
    by (vm_compute; repeat split; reflexivity).
  exact (@fast_frames_are_never_rendered steady_draws (sqrt_bits 20) None
           [1000; 1008; 1017; 1025; 1033]
           (initApp steady_draws (sqrt_bits 20) 800 600 None) H).
Defined.

(** ** Wiring through a session *)

Lemma frame_fields a b :
  frame a = frame b ->
  oid a = oid b /\ type a = type b /\ connections a = connections b
  /\ radius a = radius b.
Proof. unfold frame. intro H. injection H as ? ? ? ? ? ?. auto. Qed.

Lemma targetOf_frame ns ns' c t :
  map frame ns' = map frame ns -> targetOf ns c t -> targetOf ns' c t.
Proof.
  intros H (m & Hm & Ho & Ht).
  destruct (@proj_In _ frame ns' ns m (eq_sym H) Hm) as (m' & Hm' & E).
  apply frame_fields in E. destruct E as (E1 & E2 & _).
  exists m'. repeat split; congruence.
Qed.

Lemma wellWired_frame ns ns' :
  map frame ns' = map frame ns ->
  Forall (wellWired ns) ns -> Forall (wellWired ns') ns'.
Proof.
  intros H Hall. rewrite Forall_forall in *. intros n' Hn'.
  destruct (@proj_In _ frame ns ns' n' H Hn') as (n & Hn & E).
  apply frame_fields in E. destruct E as (_ & Et & Ec & _).
  destruct (Hall n Hn) as [Hlen Hw]. unfold wellWired.
  rewrite <- Et, <- Ec. split; [exact Hlen |].
  destruct (type n).
  - destruct Hw as [H1 H2]. split; [exact H1 |].
    intros c Hc. eapply targetOf_frame; eauto.
  - destruct Hw as [(d & Hd1 & Hd2) H2]. split.
    + exists d. split; [exact Hd1 | eapply targetOf_frame; eauto].
    + intros c Hc. destruct (H2 c Hc); [left | right];
        eapply targetOf_frame; eauto.
  - exact Hw.
Qed.

Section Unwired.

Variable draws : nat -> Q.

Lemma unwired_connect t n : unwired (connect t n) = unwired n.
Proof. unfold connect. destruct (negb _); reflexivity. Qed.

Lemma unwired_connectRandom this pool k w :
  map unwired (nodes (connectRandom draws this pool k w)) = map unwired (nodes w).
Proof.
  revert w. induction k as [| k IH]; intro w; cbn [connectRandom];
    [reflexivity |].
  wsimpl. rewrite IH.
  destruct (JS.at_index pool _); [| reflexivity].
  wsimpl. apply proj_modifyNode. intro. apply unwired_connect.
Qed.

Lemma unwired_initializeConnections w :
  map unwired (nodes (initializeConnections draws w)) = map unwired (nodes w).
Proof.
  unfold initializeConnections. cbv zeta.
  rewrite proj_fold_world.
  - apply proj_fold_world. intros w0 s. unfold connectSource. wsimpl.
    rewrite unwired_connectRandom. reflexivity.
  - intros w0 p. unfold connectProcess. cbv zeta. wsimpl.
    rewrite unwired_connectRandom. wsimpl. rewrite unwired_connectRandom.
    reflexivity.
Qed.

Lemma createNodes_loop_sized N width height k i w :
  (forall n, 0 <= draws n < 1) ->
  Forall (fun n => 5 <= radius n < 13) (nodes w) ->
  Forall (fun n => 5 <= radius n < 13)
    (nodes (createNodes_loop draws N width height k i w)).
Proof.
  intro Hd. revert i w. induction k as [| k IH]; intros i w Hall;
    cbn [createNodes_loop].
  - exact Hall.
  - wsimpl. pose proof (Hd (S (S (drawn w)))) as H3.
    apply IH. unfold newNode. wsimpl. unfold JS.push.
    apply Forall_app. split; [exact Hall |].
    constructor; [| constructor]. cbn [radius]. lra.
Qed.

End Unwired.

Section Sessions.

Variable draws : nat -> Q.
Variable Math_sqrt : Q -> Q.
Hypothesis draws_unit : forall n, 0 <= draws n < 1.

Lemma createNetwork_sized width height w :
  Forall (fun n => 5 <= radius n < 13)
    (nodes (createNetwork draws Math_sqrt width height w)).
Proof.
  apply Forall_forall. intros n Hn.
  unfold createNetwork in Hn. cbv zeta in Hn. wsimpl_in Hn.
  apply optimize_loop_keeps in Hn.
  unfold wired in Hn. cbv zeta in Hn.
  destruct (@proj_In _ unwired _ _ n (unwired_initializeConnections draws _) Hn)
    as (m & Hm & E).
  assert (Hr : radius n = radius m).
  { change (radius n) with (radius (unwired n)). rewrite <- E. reflexivity. }
  rewrite Hr.
  pose proof (@createNodes_loop_sized draws
                (calculateOptimalNodeCount Math_sqrt width height) width height
                (Z.to_nat (calculateOptimalNodeCount Math_sqrt width height)) 0
                (set_nodes [] w) draws_unit (Forall_nil _)) as Hall.
  rewrite Forall_forall in Hall. now apply Hall.
Qed.

Lemma reachable_frame w :
  reachable draws Math_sqrt w ->
  exists cw ch w0,
    map frame (nodes w)
    = map frame (nodes (createNetwork draws Math_sqrt cw ch w0)).
Proof.
  induction 1 as [cw ch r | e w Hw (cw & ch & w0 & IH)].
  - exists cw, ch, (set_canvas cw ch boot). unfold initApp. cbv zeta.
    now apply proj_layout.
  - exists cw, ch, w0. rewrite <- IH. now apply proj_handle.
Qed.

End Sessions.

Lemma reachable_structure draws Math_sqrt w :
  (forall n, 0 <= draws n < 1) ->
  reachable draws Math_sqrt w ->
  NoDup (map oid (nodes w))
  /\ Forall (wellWired (nodes w)) (nodes w)
  /\ Forall (fun n => 5 <= radius n < 13) (nodes w).
Proof.
  intros Hd Hw.
  destruct (@reachable_frame draws Math_sqrt w Hw) as (cw & ch & w0 & Hf).
  destruct (@reachable_ok draws Math_sqrt Hd w Hw) as [kindOf (Hnd & _ & _)].
  split; [exact Hnd |]. split.
  - pose proof (@createNetwork_wiring_nodes draws Math_sqrt cw ch w0 Hd) as Hall.
    exact (@wellWired_frame _ _ Hf Hall).
  - apply Forall_forall. intros n Hn.
    destruct (@proj_In _ frame _ _ n Hf Hn) as (m & Hm & E).
    apply frame_fields in E. destruct E as (_ & _ & _ & Er). rewrite <- Er.
    pose proof (@createNetwork_sized draws Math_sqrt Hd cw ch w0) as Hs.
    rewrite Forall_forall in Hs. now apply Hs.
Qed.

(** X19.  In every state of a session (draws in [[0, 1)]): every node is
    wired as [createNetwork] left it ([wellWired]); every radius is in
    [[5, 13)]; a destination owns no pulse; and the target of every pulse
    in flight is a connection of its owner and a node of the array that is
    not a source. *)
Theorem session_wiring :
  forall (draws : nat -> Q) (Math_sqrt : Q -> Q),
    (forall n, 0 <= draws n < 1) ->
    forall w, reachable draws Math_sqrt w ->
    forall n, In n (nodes w) ->
      wellWired (nodes w) n
      /\ 5 <= radius n < 13
      /\ (type n = Destination -> pulses n = [])
      /\ forall p, In p (pulses n) ->
           In (target p) (connections n)
           /\ exists m, getNode (target p) (nodes w) = Some m /\ type m <> Source.
Proof.
  intros draws Math_sqrt Hd w Hw n Hn.
  destruct (@reachable_structure draws Math_sqrt w Hd Hw) as (Hnd & Hall & Hsz).
  rewrite Forall_forall in Hall, Hsz. pose proof (Hall n Hn) as Hwn.
  destruct (@reachable_ok draws Math_sqrt Hd w Hw) as [kindOf (_ & Hok & _)].
  rewrite Forall_forall in Hok. pose proof (Hok n Hn) as Hokn.
  split; [exact Hwn |]. split; [now apply Hsz |]. split.
  - intro Ht. destruct Hwn as [_ Hwn]. rewrite Ht in Hwn.
    destruct (pulses n) as [| p ps] eqn:Ep; [reflexivity |].
    destruct (ok_pulses Hokn p) as [_ Hin]; [rewrite Ep; now left |].
    rewrite Hwn in Hin. destruct Hin.
  - intros p Hp.
    destruct (ok_pulses Hokn p Hp) as [_ Ht]. split; [exact Ht |].
    destruct Hwn as [_ Hwn].
    assert (Hex : exists t, targetOf (nodes w) (target p) t /\ t <> Source).
    { destruct (type n).
      - destruct Hwn as [_ H2]. exists Process. split; [now apply H2 | discriminate].
      - destruct Hwn as [_ H2]. destruct (H2 _ Ht);
          [exists Process | exists Destination]; split; auto; discriminate.
      - rewrite Hwn in Ht. destruct Ht. }
    destruct Hex as (t & (m & Hm & Ho & Hty) & Hne).
    exists m. split; [now apply getNode_unique | congruence].
Qed.

Lemma session_wiring_witness :
  Forall (fun n => wellWired (nodes session) n /\ 5 <= radius n < 13)
    (nodes session).
Proof.
  apply Forall_forall. intros n Hn.
  destruct (@session_wiring steady_draws (sqrt_bits 20) steady_draws_unit
              session session_reachable n Hn) as (H1 & H2 & _).
  split; [exact H1 | exact H2].
Defined.

(** ** Pointer handlers *)

Lemma getNode_map i f ns :
  (forall n, oid (f n) = oid n) ->
  getNode i (map f ns) = option_map f (getNode i ns).
Proof.
  intro H. unfold getNode. induction ns as [| n ns IH]; simpl; [reflexivity |].
  rewrite H. destruct (Nat.eqb (oid n) i); [reflexivity | exact IH].
Qed.

Lemma find_map_hit s px py f ns :
  (forall n, hit s px py (f n) = hit s px py n) ->
  find (hit s px py) (map f ns) = option_map f (find (hit s px py) ns).
Proof.
  intro H. induction ns as [| n ns IH]; simpl; [reflexivity |].
  rewrite H. destruct (hit s px py n); [reflexivity | exact IH].
Qed.

Lemma set_isDragged_same n : set_isDragged (isDragged n) n = n.
Proof. destruct n; reflexivity. Qed.

Lemma modifyNode_id i f ns :
  (forall n, In n ns -> f n = n) -> modifyNode i f ns = ns.
Proof.
  intro H. unfold modifyNode. rewrite <- (map_id ns) at 2.
  apply map_ext_in. intros n Hn.
  destruct (Nat.eqb (oid n) i); [now apply H | reflexivity].
Qed.

(** X20.  A press followed by a release, when no node was dragged
    before, leaves every node as it was, and nothing is selected
    afterwards. *)
Theorem click_leaves_nodes_unchanged :
  forall (Math_sqrt : Q -> Q) (px py : Q) (w : World),
    (forall n, In n (nodes w) -> isDragged n = false) ->
    let w' := handleMouseUp (handleMouseDown Math_sqrt px py w) in
    nodes w' = nodes w /\ isDragging w' = false /\ selectedNode w' = None.
Proof.
  intros Math_sqrt px py w Hfree w'. subst w'.
  unfold handleMouseDown, checkNodeSelection.
  destruct (find (hit Math_sqrt px py) (nodes w)) as [node |] eqn:E.
  - unfold handleMouseUp. cbv zeta. wsimpl. repeat split.
    rewrite modifyNode_modifyNode by reflexivity.
    apply modifyNode_id. intros n Hn. cbn.
    rewrite <- (Hfree n Hn). destruct n; reflexivity.
  - unfold handleMouseUp. cbv zeta. wsimpl. repeat split.
    destruct (selectedNode w) as [sel |]; [| reflexivity].
    wsimpl. apply modifyNode_id. intros n Hn.
    rewrite <- (Hfree n Hn). apply set_isDragged_same.
Qed.

Lemma click_leaves_nodes_unchanged_witness :
  nodes (handleMouseUp (handleMouseDown (sqrt_bits 20) 400 300
           (mkWorld [drifting] [] 0 0 false None 0 0 0 0 800 600)))
  = [drifting].
Proof.
  apply (@click_leaves_nodes_unchanged (sqrt_bits 20) 400 300
           (mkWorld [drifting] [] 0 0 false None 0 0 0 0 800 600)).
  intros n [<- | []]. reflexivity.
Defined.

(** X21.  After a press that hits the node [n] and a move of the pointer
    to [(mx, my)], [n] is selected and dragged and sits at the pointer minus
    the offset of the press, clamped to [[r, width - r]] and
    [[r, height - r]]: at least [r] always, and at most the dimension
    minus [r] when the canvas is at least [2r]. *)
Theorem drag_follows_pointer :
  forall (Math_sqrt : Q -> Q) (px py mx my : Q) (w : World) (n : Node),
    NoDup (map oid (nodes w)) ->
    find (hit Math_sqrt px py) (nodes w) = Some n ->
    let w' :=
      handleMouseMove Math_sqrt mx my (handleMouseDown Math_sqrt px py w) in
    isDragging w' = true /\ selectedNode w' = Some (oid n)
    /\ exists n',
         getNode (oid n) (nodes w') = Some n'
         /\ isDragged n' = true /\ radius n' = radius n
         /\ x n'
            = Qmax (radius n) (Qmin (canvasWidth w - radius n) (mx - (px - x n)))
         /\ y n'
            = Qmax (radius n) (Qmin (canvasHeight w - radius n) (my - (py - y n)))
         /\ radius n <= x n' /\ radius n <= y n'
         /\ (radius n * 2 <= canvasWidth w -> x n' <= canvasWidth w - radius n)
         /\ (radius n * 2 <= canvasHeight w -> y n' <= canvasHeight w - radius n).
Proof.
  intros Math_sqrt px py mx my w n Hnd Hfind w'. subst w'.
  pose proof (find_some _ _ Hfind) as [Hin _].
  pose proof (@getNode_unique (nodes w) n (oid n) Hnd Hin eq_refl) as Hget.
  unfold handleMouseDown, checkNodeSelection. rewrite Hfind.
  unfold handleMouseMove. cbv zeta. wsimpl. cbn [negb].
  unfold dragSelected. wsimpl.
  split; [reflexivity |]. split; [reflexivity |].
  rewrite getNode_modifyNode_same by reflexivity.
  rewrite getNode_map by reflexivity.
  rewrite getNode_modifyNode_same by reflexivity.
  rewrite Hget. cbn [option_map].
  eexists. split; [reflexivity |].
  cbn [dragTo x y radius isDragged set_x set_y set_isHovered set_isDragged
       offsetX offsetY canvasWidth canvasHeight set_drag set_nodes].
  split; [reflexivity |]. split; [reflexivity |].
  split; [reflexivity |]. split; [reflexivity |].
  split; [apply Q.le_max_l |]. split; [apply Q.le_max_l |].
  split; intro H.
  - apply Q.max_lub; [lra | apply Q.le_min_l].
  - apply Q.max_lub; [lra | apply Q.le_min_l].
Qed.

Lemma drag_follows_pointer_witness :
  exists n',
    getNode 0
      (nodes (handleMouseMove (sqrt_bits 20) 0 310
                (handleMouseDown (sqrt_bits 20) 400 300
                   (mkWorld [drifting] [] 0 0 false None 0 0 0 0 800 600))))
    = Some n'
    /\ x n' = Qmax 10 (Qmin (800 - 10) (0 - (400 - 400)))
    /\ y n' = Qmax 10 (Qmin (600 - 10) (310 - (300 - 300))).
Proof.
  destruct (@drag_follows_pointer (sqrt_bits 20) 400 300 0 310
              (mkWorld [drifting] [] 0 0 false None 0 0 0 0 800 600) drifting)
    as (_ & _ & n' & H1 & _ & _ & H2 & H3 & _).
  - repeat constructor. simpl. tauto.
  - vm_compute. reflexivity.
  - exists n'. split; [exact H1 |]. split; [exact H2 | exact H3].
Defined.

Lemma filter_isHovered_none ns :
  (forall n, In n ns -> isHovered n = false) -> filter isHovered ns = [].
Proof.
  induction ns as [| a ns IH]; intro H; simpl; [reflexivity |].
  rewrite (H a (or_introl eq_refl)). apply IH. intros n Hn. apply H. now right.
Qed.

Lemma hover_absent i ns :
  ~ In i (map oid ns) ->
  filter isHovered (modifyNode i (set_isHovered true) (map (set_isHovered false) ns))
  = [].
Proof.
  intro H. apply filter_isHovered_none. intros n Hn.
  unfold modifyNode in Hn. rewrite map_map in Hn. apply in_map_iff in Hn.
  destruct Hn as (m & <- & Hm). cbn [oid set_isHovered].
  destruct (Nat.eqb (oid m) i) eqn:E; [| reflexivity].
  apply Nat.eqb_eq in E. exfalso. apply H. rewrite <- E. now apply in_map.
Qed.

Lemma hover_present n ns :
  NoDup (map oid ns) -> In n ns ->
  map oid
    (filter isHovered
       (modifyNode (oid n) (set_isHovered true) (map (set_isHovered false) ns)))
  = [oid n].
Proof.
  induction ns as [| a ns IH]; intros Hnd Hin; [destruct Hin |].
  inversion Hnd as [| ? ? Hnot Hnd']; subst.
  cbn [map modifyNode]. cbn [oid set_isHovered].
  destruct (Nat.eqb (oid a) (oid n)) eqn:E.
  - apply Nat.eqb_eq in E. cbn [filter isHovered set_isHovered map oid].
    fold (modifyNode (oid n) (set_isHovered true) (map (set_isHovered false) ns)).
    rewrite hover_absent by (rewrite <- E; exact Hnot).
    now rewrite E.
  - cbn [filter isHovered set_isHovered].
    fold (modifyNode (oid n) (set_isHovered true) (map (set_isHovered false) ns)).
    apply Nat.eqb_neq in E. destruct Hin as [-> | Hin]; [congruence |].
    now apply IH.
Qed.

Lemma hit_set_isHovered s px py b n :
  hit s px py (set_isHovered b n) = hit s px py n.
Proof. reflexivity. Qed.

(** X22.  After [handleMouseMove] on an array of distinct nodes, no node
    is hovered while a drag is going on; otherwise exactly the first node
    of the array under the pointer is hovered, and none if there is
    none. *)
Theorem hover_marks_first_hit :
  forall (Math_sqrt : Q -> Q) (mx my : Q) (w : World),
    NoDup (map oid (nodes w)) ->
    let w' := handleMouseMove Math_sqrt mx my w in
    map oid (filter isHovered (nodes w'))
    = if isDragging w then []
      else match find (hit Math_sqrt mx my) (nodes w) with
           | Some n => [oid n]
           | None => []
           end.
Proof.
  intros Math_sqrt mx my w Hnd w'. subst w'.
  unfold handleMouseMove. cbv zeta. wsimpl.
  destruct (isDragging w) eqn:Ed; cbn [negb].
  - wsimpl. rewrite Ed. unfold dragSelected. wsimpl.
    destruct (selectedNode w) as [sel |]; wsimpl.
    + rewrite filter_isHovered_none; [reflexivity |].
      intros n Hn. unfold modifyNode in Hn. rewrite map_map in Hn.
      apply in_map_iff in Hn. destruct Hn as (m & <- & Hm).
      destruct (Nat.eqb _ _); reflexivity.
    + rewrite filter_isHovered_none; [reflexivity |].
      intros n Hn. apply in_map_iff in Hn. now destruct Hn as (m & <- & Hm).
  - rewrite find_map_hit by (intro; apply hit_set_isHovered).
    destruct (find (hit Math_sqrt mx my) (nodes w)) as [n |] eqn:E;
      cbn [option_map]; wsimpl; rewrite Ed.
    + cbn [oid set_isHovered]. apply hover_present; [exact Hnd |].
      now apply find_some in E.
    + rewrite filter_isHovered_none; [reflexivity |].
      intros n Hn. apply in_map_iff in Hn. now destruct Hn as (m & <- & Hm).
Qed.

Lemma hover_marks_first_hit_witness :
  map oid
    (filter isHovered
       (nodes (handleMouseMove (sqrt_bits 20) 405 300
                 (mkWorld [drifting] [] 0 0 false None 0 0 0 0 800 600))))
  = [0%nat].
Proof.
  apply (@hover_marks_first_hit (sqrt_bits 20) 405 300
           (mkWorld [drifting] [] 0 0 false None 0 0 0 0 800 600)).
  repeat constructor. simpl. tauto.
Defined.

(** ** Convergence of the opacity *)

Lemma relax_flags time n :
  isHovered (relax time n) = isHovered n
  /\ isDragged (relax time n) = isDragged n.
Proof.
  unfold relax. cbv zeta.
  repeat (match goal with
          | |- context [if ?c then _ else _] => destruct c
          end;
          cbn [isHovered isDragged set_targetOpacity set_opacity set_active]);
  split; reflexivity.
Qed.

Lemma relax_isHovered time n :
  isHovered (relax time n) || isDragged (relax time n)
  = isHovered n || isDragged n.
Proof. destruct (relax_flags time n) as [-> ->]. reflexivity. Qed.

Lemma relax_active time n :
  active (relax time n) = JS.gtb (opacity (relax time n)) (7 # 10).
Proof.
  unfold relax. cbv zeta.
  repeat (match goal with
          | |- context [if ?c then _ else _] => destruct c
          end; cbn [active opacity set_targetOpacity set_opacity set_active]);
  reflexivity.
Qed.

(** One [update] of a hovered node: the distance of its opacity to 1 shrinks
    by a twentieth, and a distance of at most 0.01 becomes none. *)
Lemma relax_hovered time n b :
  isHovered n || isDragged n = true ->
  opacity n = 1 \/ 0 <= 1 - opacity n <= b ->
  (opacity (relax time n) = 1
   \/ 0 <= 1 - opacity (relax time n) <= (95 # 100) * b)
  /\ (opacity n = 1 \/ b <= 1 # 100 -> opacity (relax time n) = 1).
Proof.
  intros Hh Hb. unfold relax.
  set (a := JS.ltb _ (7 # 10)). clearbody a.
  cbv zeta. cbn [isHovered isDragged set_targetOpacity]. rewrite Hh.
  cbn [opacity targetOpacity set_targetOpacity].
  destruct (JS.gtb (Qabs (opacity n - 1)) (1 # 100)) eqn:E;
    cbn [opacity set_opacity set_active]; js_prop.
  - assert (Hne : opacity n <> 1).
    { intro H. rewrite H in E. vm_compute in E. discriminate. }
    destruct Hb as [Hb | Hb]; [contradiction |].
    assert (Ha : Qabs (opacity n - 1) == 1 - opacity n).
    { rewrite Qabs_neg by lra. ring. }
    rewrite Ha in E. split.
    + right. lra.
    + intros [H | H]; [contradiction | exfalso; lra].
  - split; [now left | reflexivity].
Qed.

Lemma relaxed_hovered times n b :
  isHovered n || isDragged n = true ->
  opacity n = 1 \/ 0 <= 1 - opacity n <= b ->
  opacity (relaxed times n) = 1
  \/ 0 <= 1 - opacity (relaxed times n)
     <= Nat.iter (length times) (Qmult (95 # 100)) b.
Proof.
  unfold relaxed. revert n b. induction times as [| t ts IH]; intros n b Hh Hb.
  - exact Hb.
  - cbn [fold_left length].
    rewrite Nat.iter_succ_r.
    apply IH; [now rewrite relax_isHovered |].
    now apply relax_hovered.
Qed.

Lemma relaxed_stays times n :
  isHovered n || isDragged n = true -> opacity n = 1 -> opacity (relaxed times n) = 1.
Proof.
  unfold relaxed. revert n. induction times as [| t ts IH]; intros n Hh Ho.
  - exact Ho.
  - cbn [fold_left]. apply IH; [now rewrite relax_isHovered |].
    apply (@relax_hovered t n 0 Hh); now left.
Qed.

(** X23.  A node that stays hovered or dragged, with an opacity in
    [[0.3, 1]], has opacity exactly 1 and is active after 84 runs of the
    opacity part of [update], whatever the times of the updates. *)
Theorem hovered_node_becomes_opaque :
  forall (times : list Q) (n : Node),
    isHovered n || isDragged n = true ->
    3 # 10 <= opacity n <= 1 ->
    (84 <= length times)%nat ->
    opacity (relaxed times n) = 1 /\ active (relaxed times n) = true.
Proof.
  intros times n Hh Ho Hlen.
  assert (Hop : opacity (relaxed times n) = 1).
  { rewrite <- (firstn_skipn 83 times). unfold relaxed. rewrite fold_left_app.
    fold (relaxed (firstn 83 times) n).
    set (m := relaxed (firstn 83 times) n).
    assert (Hm : isHovered m || isDragged m = true).
    { subst m. unfold relaxed. clear -Hh. revert n Hh.
      induction (firstn 83 times) as [| t ts IH]; intros n Hh; [exact Hh |].
      simpl. apply IH. now rewrite relax_isHovered. }
    assert (Hb : opacity m = 1 \/ 0 <= 1 - opacity m <= 1 # 100).
    { destruct (@relaxed_hovered (firstn 83 times) n (7 # 10) Hh) as [H | H].
      - right. lra.
      - now left.
      - right. rewrite length_firstn, Nat.min_l in H by lia.
        assert (Hd : Nat.iter 83 (Qmult (95 # 100)) (7 # 10) <= 1 # 100)
          by (vm_compute; discriminate).
        set (c := Nat.iter 83 (Qmult (95 # 100)) (7 # 10)) in *. clearbody c.
        unfold m. lra. }
    destruct (skipn 83 times) as [| t ts] eqn:Es.
    - apply (f_equal (@length Q)) in Es. rewrite length_skipn in Es.
      simpl in Es. lia.
    - cbn [fold_left]. fold (relaxed ts (relax t m)).
      apply relaxed_stays; [now rewrite relax_isHovered |].
      destruct Hb as [Hb | Hb].
      + apply (@relax_hovered t m 0 Hm); now left.
      + apply (@relax_hovered t m (1 # 100) Hm); [now right | right; lra]. }
  split; [exact Hop |].
  assert (Hne : times <> []) by (intro E; rewrite E in Hlen; simpl in Hlen; lia).
  destruct (exists_last Hne) as (ts & t & E). rewrite E in *.
  unfold relaxed in *. rewrite fold_left_app in *. cbn [fold_left] in *.
  rewrite relax_active, Hop. reflexivity.
Qed.

Lemma hovered_node_becomes_opaque_witness :
  opacity (relaxed (repeat 0 84) (set_isHovered true (set_opacity (3 # 10) drifting)))
  = 1.
Proof.
  apply (@hovered_node_becomes_opaque (repeat 0 84)
           (set_isHovered true (set_opacity (3 # 10) drifting))).
  - reflexivity.
  - split; vm_compute; discriminate.
  - rewrite repeat_length. lia.
Defined.

(** ** Containment after layout events *)

Lemma sized_fits cw ch ns :
  52 <= cw -> 52 <= ch ->
  Forall (fun n => 5 <= radius n < 13) ns ->
  Forall (fun n => radius n * 4 <= cw /\ radius n * 4 <= ch) ns.
Proof.
  intros Hw Hh. apply Forall_impl. intros n Hr. split; lra.
Qed.

Section Canvas.

Variable draws : nat -> Q.
Variable Math_sqrt : Q -> Q.

Lemma canvas_connectRandom this pool k w :
  canvasWidth (connectRandom draws this pool k w) = canvasWidth w
  /\ canvasHeight (connectRandom draws this pool k w) = canvasHeight w.
Proof.
  revert w. induction k as [| k IH]; intro w; cbn [connectRandom];
    [split; reflexivity |].
  wsimpl.
  match goal with
  | |- context [connectRandom _ _ _ _ ?W] => destruct (IH W) as [-> ->]
  end.
  destruct (JS.at_index pool _); split; reflexivity.
Qed.

Lemma canvas_fold {A} (step : World -> A -> World) (l : list A) w :
  (forall w a, canvasWidth (step w a) = canvasWidth w
               /\ canvasHeight (step w a) = canvasHeight w) ->
  canvasWidth (fold_left step l w) = canvasWidth w
  /\ canvasHeight (fold_left step l w) = canvasHeight w.
Proof.
  intro H. revert w. induction l as [| a l IH]; intro w; simpl.
  - split; reflexivity.
  - destruct (IH (step w a)) as [-> ->]. apply H.
Qed.

Lemma canvas_createNodes_loop N width height k i w :
  canvasWidth (createNodes_loop draws N width height k i w) = canvasWidth w
  /\ canvasHeight (createNodes_loop draws N width height k i w) = canvasHeight w.
Proof.
  revert i w. induction k as [| k IH]; intros i w; cbn [createNodes_loop];
    [split; reflexivity |].
  wsimpl. unfold newNode. wsimpl.
  match goal with
  | |- context [createNodes_loop _ _ _ _ _ _ ?W] => destruct (IH (S i) W) as [-> ->]
  end.
  split; reflexivity.
Qed.

Lemma canvas_createNetwork width height w :
  canvasWidth (createNetwork draws Math_sqrt width height w) = canvasWidth w
  /\ canvasHeight (createNetwork draws Math_sqrt width height w) = canvasHeight w.
Proof.
  unfold createNetwork, wired, initializeConnections, createNodes. cbv zeta. wsimpl.
  match goal with
  | |- canvasWidth (fold_left ?f ?l ?W) = _ /\ _ =>
      destruct (@canvas_fold _ f l W) as [-> ->]
  end.
  { intros w0 p. unfold connectProcess. cbv zeta. wsimpl.
    match goal with
    | |- canvasWidth (connectRandom _ ?a ?b ?c ?W) = _ /\ _ =>
        destruct (canvas_connectRandom a b c W) as [-> ->]
    end.
    wsimpl.
    match goal with
    | |- canvasWidth (connectRandom _ ?a ?b ?c ?W) = _ /\ _ =>
        destruct (canvas_connectRandom a b c W) as [-> ->]
    end.
    split; reflexivity. }
  match goal with
  | |- canvasWidth (fold_left ?f ?l ?W) = _ /\ _ =>
      destruct (@canvas_fold _ f l W) as [-> ->]
  end.
  { intros w0 p. unfold connectSource. wsimpl.
    match goal with
    | |- canvasWidth (connectRandom _ ?a ?b ?c ?W) = _ /\ _ =>
        destruct (canvas_connectRandom a b c W) as [-> ->]
    end.
    split; reflexivity. }
  destruct (canvas_createNodes_loop
              (calculateOptimalNodeCount Math_sqrt width height) width height
              (Z.to_nat (calculateOptimalNodeCount Math_sqrt width height)) 0
              (set_nodes [] w)) as [-> ->].
  split; reflexivity.
Qed.

End Canvas.

(** X24.  On a canvas at least 52 wide and high, every node, dragged or
    not, lies inside the margins after [initApp] and after every resize of
    a session. *)
Theorem layout_events_put_nodes_within_bounds :
  forall (draws : nat -> Q) (Math_sqrt : Q -> Q) (cw ch : Q)
         (contentRect : option Rect),
    (forall n, 0 <= draws n < 1) ->
    52 <= cw -> 52 <= ch ->
    Forall (within_bounds cw ch)
      (nodes (initApp draws Math_sqrt cw ch contentRect))
    /\ forall w, reachable draws Math_sqrt w ->
         Forall (within_bounds cw ch)
           (nodes (handle draws Math_sqrt (Resize cw ch contentRect) w)).
Proof.
  intros draws Math_sqrt cw ch r Hd Hw Hh. split.
  - unfold initApp, layout. cbv zeta. wsimpl.
    destruct (@createNetwork_built draws Math_sqrt cw ch (set_canvas cw ch boot))
      as [[Hnd _] _].
    destruct (canvas_createNetwork draws Math_sqrt cw ch (set_canvas cw ch boot))
      as [-> ->]. wsimpl.
    apply applyForceLayout_within; [reflexivity | exact Hnd |].
    apply sized_fits; auto. now apply createNetwork_sized.
  - intros w Hreach. cbn [handle]. unfold resize, layout. wsimpl.
    destruct (@reachable_structure draws Math_sqrt w Hd Hreach) as (Hnd & _ & Hsz).
    apply applyForceLayout_within; [reflexivity | exact Hnd |].
    now apply sized_fits.
Qed.

Lemma layout_events_put_nodes_within_bounds_witness :
  Forall (within_bounds 800 600)
    (nodes (initApp steady_draws (sqrt_bits 20) 800 600 None)).
Proof.
  assert (H1 : 52 <= 800) by (vm_compute; discriminate).
  assert (H2 : 52 <= 600) by (vm_compute; discriminate).
  destruct (@layout_events_put_nodes_within_bounds steady_draws (sqrt_bits 20)
              800 600 None steady_draws_unit H1 H2) as [H _].
  exact H.
Defined.

(** ** Touch input and frames without a layout pass *)

Lemma set_isHovered_same n : set_isHovered (isHovered n) n = n.
Proof. destruct n; reflexivity. Qed.

(** X25.  With one touch, a drag going on and no node hovered,
    [handleTouchMove] does what [handleMouseMove] does. *)
Theorem touch_move_is_mouse_move :
  forall (Math_sqrt : Q -> Q) (mx my : Q) (w : World),
    isDragging w = true ->
    (forall n, In n (nodes w) -> isHovered n = false) ->
    handleTouchMove [(mx, my)] w = handleMouseMove Math_sqrt mx my w.
Proof.
  intros Math_sqrt mx my w Hd Hh.
  unfold handleTouchMove, handleMouseMove. cbv zeta. rewrite Hd.
  assert (E : set_nodes (map (set_isHovered false) (nodes w)) w = w).
  { assert (E' : map (set_isHovered false) (nodes w) = nodes w).
    { rewrite <- (map_id (nodes w)) at 2. apply map_ext_in. intros n Hn.
      rewrite <- (Hh n Hn). apply set_isHovered_same. }
    rewrite E'. destruct w; reflexivity. }
  rewrite E, Hd. cbn [negb]. rewrite Hd. reflexivity.
Qed.

Lemma touch_move_is_mouse_move_witness :
  handleTouchMove [(0, 310)] pressed_world
  = handleMouseMove (sqrt_bits 20) 0 310 pressed_world.
Proof.
  apply (@touch_move_is_mouse_move (sqrt_bits 20) 0 310 pressed_world).
  - reflexivity.
  - intros n [<- | []]. reflexivity.
Defined.

Lemma updatePosition_slows width height s n :
  Qabs (vx (updatePosition width height s n)) <= Qabs (vx n)
  /\ Qabs (vy (updatePosition width height s n)) <= Qabs (vy n).
Proof.
  unfold updatePosition. cbv zeta.
  repeat (match goal with
          | |- context [if ?c then _ else _] => destruct c
          end; cbn [x y radius vx vy set_x set_y set_vx set_vy]);
    split;
    repeat first [apply Qle_refl | apply Qabs_half | apply Qabs_half_opp].
Qed.

Lemma Qabs_damp v : Qabs (v * (999 # 1000)) <= Qabs v.
Proof.
  rewrite Qabs_Qmult. pose proof (Qabs_nonneg v).
  assert (E : Qabs (999 # 1000) == 999 # 1000) by reflexivity.
  rewrite E. lra.
Qed.

Lemma dampen_slows n :
  Qabs (vx (dampen n)) <= Qabs (vx n) /\ Qabs (vy (dampen n)) <= Qabs (vy n).
Proof.
  unfold dampen. destruct (negb (isDragged n)); cbn [vx vy set_vx set_vy];
    split; try apply Qle_refl; apply Qabs_damp.
Qed.

Lemma Forall2_map_r {A B} (R : A -> B -> Prop) (f : A -> B) l :
  (forall a, R a (f a)) -> Forall2 R l (map f l).
Proof. intro H. induction l; simpl; constructor; auto. Qed.

Lemma Forall2_proj {B} (proj : Node -> B) ns ns' :
  map proj ns' = map proj ns -> Forall2 (fun a b => proj b = proj a) ns ns'.
Proof.
  revert ns'. induction ns as [| a ns IH]; intros [| b ns'] H;
    try discriminate; constructor.
  - simpl in H. congruence.
  - apply IH. simpl in H. congruence.
Qed.

(** X26.  A rendered frame in which no layout pass is due never increases
    the magnitude of a velocity component of any node. *)
Theorem frame_without_layout_never_speeds_up :
  forall (draws : nat -> Q) (Math_sqrt : Q -> Q) (time deltaTime : Q)
         (contentRect : option Rect) (w : World),
    time - lastForceLayoutTime w <= forceLayoutInterval ->
    Forall2
      (fun a b => oid b = oid a
                  /\ Qabs (vx b) <= Qabs (vx a) /\ Qabs (vy b) <= Qabs (vy a))
      (nodes w)
      (nodes (renderNodes draws Math_sqrt time deltaTime contentRect w)).
Proof.
  intros draws Math_sqrt time dt r w Hdue.
  unfold renderNodes. cbv zeta.
  apply JSFacts.gtb_le in Hdue. rewrite Hdue.
  match goal with
  | |- Forall2 _ _ (nodes (fold_left _ _ ?W)) => set (w3 := W)
  end.
  assert (Hp : map place (nodes (fold_left (fun w i => update draws i time dt w)
                                   (map oid (nodes w3)) w3))
               = map place (nodes w3)).
  { apply proj_fold_world. intros. now apply proj_update. }
  apply Forall2_proj in Hp.
  assert (H1 : Forall2
                 (fun a b => oid b = oid a
                             /\ Qabs (vx b) <= Qabs (vx a)
                             /\ Qabs (vy b) <= Qabs (vy a))
                 (nodes w) (nodes w3)).
  { subst w3. wsimpl. unfold updatePositions. rewrite map_map.
    apply Forall2_map_r. intro a.
    destruct (dampen_slows
                (updatePosition (canvasWidth w) (canvasHeight w)
                   (animationSpeed * (dt / (16667 # 1000))) a)) as [D1 D2].
    destruct (updatePosition_slows (canvasWidth w) (canvasHeight w)
                (animationSpeed * (dt / (16667 # 1000))) a) as [U1 U2].
    split.
    - destruct (sim_dampen (updatePosition (canvasWidth w) (canvasHeight w)
                   (animationSpeed * (dt / (16667 # 1000))) a)) as [E _].
      destruct (sim_updatePosition (canvasWidth w) (canvasHeight w)
                   (animationSpeed * (dt / (16667 # 1000))) a) as [E' _].
      congruence.
    - split; eapply Qle_trans; eassumption. }
  revert H1 Hp. apply Forall2_compose.
  intros a b c (Ho & Hx & Hy) Hpl. unfold place in Hpl.
  injection Hpl as E1 _ _ _ E5 E6 _ _. rewrite E5, E6.
  split; [congruence | split; assumption].
Qed.

Lemma frame_without_layout_never_speeds_up_witness :
  Forall2
    (fun a b => oid b = oid a
                /\ Qabs (vx b) <= Qabs (vx a) /\ Qabs (vy b) <= Qabs (vy a))
    (nodes drifting_world)
    (nodes (renderNodes steady_draws (sqrt_bits 20) 100 (16667 # 1000) None
              drifting_world)).
Proof.
  apply (@frame_without_layout_never_speeds_up steady_draws (sqrt_bits 20) 100
           (16667 # 1000) None drifting_world).
  vm_compute. discriminate.
Defined.

(** ** The pulse pool never shares an object *)

Lemma held_app k l1 l2 : held k (l1 ++ l2) = (held k l1 + held k l2)%nat.
Proof. unfold held. now rewrite map_app, count_occ_app. Qed.

Lemma held_pid k p q : pid p = pid q -> held k [p] = held k [q].
Proof. unfold held. simpl. now intros ->. Qed.

Lemma nth_error_split_at {A} (l : list A) j a :
  nth_error l j = Some a -> l = firstn j l ++ a :: skipn (S j) l.
Proof.
  revert j. induction l as [| b l IH]; intros [| j] H; try discriminate.
  - injection H as ->. reflexivity.
  - simpl. f_equal. now apply IH.
Qed.

Lemma held_set_at k l j p q :
  nth_error l j = Some p -> pid q = pid p ->
  held k (JS.set_at j q l) = held k l.
Proof.
  intros H E. rewrite (set_at_split l j q H).
  rewrite (nth_error_split_at l j H) at 3.
  rewrite !held_app.
  change (q :: skipn (S j) l) with ([q] ++ skipn (S j) l).
  change (p :: skipn (S j) l) with ([p] ++ skipn (S j) l).
  rewrite !held_app. now rewrite (@held_pid k q p E).
Qed.

Lemma held_splice1 k l j p :
  nth_error l j = Some p ->
  held k l = (held k (JS.splice1 j l) + held k [p])%nat.
Proof.
  intro H. rewrite (nth_error_split_at l j H) at 1. unfold JS.splice1.
  change (p :: skipn (S j) l) with ([p] ++ skipn (S j) l).
  rewrite !held_app. lia.
Qed.

Lemma nth_error_set_at_same {A} (l : list A) j v a :
  nth_error l j = Some a -> nth_error (JS.set_at j v l) j = Some v.
Proof.
  revert j. induction l as [| b l IH]; intros [| j] H; try discriminate.
  - reflexivity.
  - simpl. now apply IH.
Qed.

Lemma in_flight_cons k n ns :
  count_occ Nat.eq_dec (in_flight (n :: ns)) k
  = (held k (pulses n) + count_occ Nat.eq_dec (in_flight ns) k)%nat.
Proof. unfold in_flight, held. simpl. now rewrite count_occ_app. Qed.

Lemma modifyNode_absent i f ns :
  ~ In i (map oid ns) -> modifyNode i f ns = ns.
Proof.
  intro H. unfold modifyNode. rewrite <- (map_id ns) at 2. apply map_ext_in.
  intros n Hn. destruct (Nat.eqb (oid n) i) eqn:E; [| reflexivity].
  apply Nat.eqb_eq in E. exfalso. apply H. rewrite <- E. now apply in_map.
Qed.

Lemma getNode_absent i ns : getNode i ns = None -> ~ In i (map oid ns).
Proof.
  intros H Hin. apply in_map_iff in Hin. destruct Hin as [n [E Hn]].
  unfold getNode in H. apply (find_none _ _ H) in Hn.
  rewrite E, Nat.eqb_refl in Hn. discriminate.
Qed.

Lemma in_flight_modifyNode k i f ns n :
  NoDup (map oid ns) -> getNode i ns = Some n ->
  (count_occ Nat.eq_dec (in_flight (modifyNode i f ns)) k + held k (pulses n)
   = count_occ Nat.eq_dec (in_flight ns) k + held k (pulses (f n)))%nat.
Proof.
  induction ns as [| a ns IH]; intros Hnd Hget; [discriminate |].
  inversion Hnd as [| ? ? Hnot Hnd']; subst.
  unfold getNode in Hget. simpl in Hget. simpl modifyNode.
  destruct (Nat.eqb (oid a) i) eqn:E.
  - injection Hget as <-. apply Nat.eqb_eq in E. subst i.
    fold (modifyNode (oid a) f ns). rewrite (@modifyNode_absent (oid a) f ns Hnot).
    rewrite !in_flight_cons. lia.
  - fold (modifyNode i f ns). rewrite !in_flight_cons.
    specialize (IH Hnd' Hget). lia.
Qed.

Lemma references_split k w :
  references k w
  = (held k (pulsePool w) + count_occ Nat.eq_dec (in_flight (nodes w)) k)%nat.
Proof. unfold references, pulse_objects, held. now rewrite count_occ_app. Qed.

Lemma in_flight_holding ns ns' :
  map holding ns' = map holding ns -> in_flight ns' = in_flight ns.
Proof.
  revert ns'. induction ns as [| a ns IH]; intros [| b ns'] H;
    try discriminate; [reflexivity |].
  simpl in H. injection H as Ho Hp H. unfold in_flight. simpl.
  rewrite Hp. f_equal. now apply IH.
Qed.

Lemma oid_holding ns ns' :
  map holding ns' = map holding ns -> map oid ns' = map oid ns.
Proof.
  intro H. apply (f_equal (map fst)) in H. rewrite !map_map in H. exact H.
Qed.

(** A step that leaves the pulses, the pool and the allocations alone. *)
Lemma ledger_neutral w w' :
  map holding (nodes w') = map holding (nodes w) ->
  pulsePool w' = pulsePool w -> nextPulse w' = nextPulse w ->
  ledger w -> ledger w'.
Proof.
  intros Hn Hp Hx [Hnd Hk]. split.
  - now rewrite (oid_holding _ _ Hn).
  - intro k. specialize (Hk k). rewrite references_split in *.
    now rewrite (in_flight_holding _ _ Hn), Hp, Hx.
Qed.

Lemma ledger_withNode i f w :
  (forall n, holding (f n) = holding n) -> ledger w -> ledger (withNode i f w).
Proof.
  intros H. apply ledger_neutral; try reflexivity.
  wsimpl. now apply proj_modifyNode.
Qed.

Lemma ledger_set_nodes F w :
  (forall ns, map holding (F ns) = map holding ns) ->
  ledger w -> ledger (set_nodes (F (nodes w)) w).
Proof. intro H. apply ledger_neutral; try reflexivity. wsimpl. apply H. Qed.

(** What [createPulse] hands out is referred to by nothing else. *)
Lemma ledger_createPulse s t v w :
  ledger w ->
  nodes (snd (createPulse s t v w)) = nodes w
  /\ forall k,
       (references k (snd (createPulse s t v w))
        + held k [fst (createPulse s t v w)]
        <= if (k <? nextPulse (snd (createPulse s t v w)))%nat then 1 else 0)%nat.
Proof.
  intros [Hnd Hk]. split; [apply createPulse_nodes |].
  intro k. specialize (Hk k). rewrite references_split in *.
  unfold createPulse. destruct (JS.pop (pulsePool w)) as [[p rest] |] eqn:E.
  - apply JSFacts.pop_some in E. wsimpl. rewrite E, held_app in Hk.
    rewrite (@held_pid k (mkPulse (pid p) s t 0 v) p eq_refl). lia.
  - apply JSFacts.pop_nil in E. wsimpl. rewrite E in *.
    unfold held at 2. simpl count_occ.
    destruct (Nat.eq_dec (nextPulse w) k) as [<- | Hne].
    + rewrite Nat.ltb_irrefl in Hk.
      assert (Hlt : (nextPulse w <? S (nextPulse w))%nat = true)
        by (apply Nat.ltb_lt; lia).
      rewrite Hlt. lia.
    + destruct (k <? nextPulse w)%nat eqn:E1.
      * assert (Hlt : (k <? S (nextPulse w))%nat = true)
          by (apply Nat.ltb_lt; apply Nat.ltb_lt in E1; lia).
        rewrite Hlt. lia.
      * destruct (k <? S (nextPulse w))%nat; lia.
Qed.

(** [this.pulses.push(pulse)] with the pulse [createPulse] handed out. *)
Lemma ledger_emit i p w k0 :
  NoDup (map oid (nodes w)) ->
  (forall k, (references k w + held k [p] <= if (k <? k0)%nat then 1 else 0)%nat) ->
  nextPulse w = k0 ->
  ledger (withNode i (emit p) w).
Proof.
  intros Hnd Hk Hx. split.
  - wsimpl. rewrite map_oid_modifyNode; [exact Hnd | intro; apply emit_oid].
  - intro k. specialize (Hk k). rewrite references_split in *. wsimpl.
    rewrite Hx.
    destruct (getNode i (nodes w)) as [n |] eqn:G.
    + pose proof (@in_flight_modifyNode k i (emit p) (nodes w) n Hnd G) as H.
      rewrite emit_pulses, held_app in H. lia.
    + rewrite (@modifyNode_absent i (emit p) (nodes w) (getNode_absent _ _ G)).
      lia.
Qed.

Section Ledger.

Variable draws : nat -> Q.

Lemma ledger_drawn d w : ledger w -> ledger (set_drawn d w).
Proof. now apply ledger_neutral. Qed.

Lemma ledger_send i w : ledger w -> ledger (sendRandomImpulse draws i w).
Proof.
  intro H. unfold sendRandomImpulse.
  destruct (getNode i (nodes w)) as [this |]; [| exact H].
  destruct (0 <? length (connections this))%nat; [| exact H].
  cbn [Math_random]. destruct (JS.gtb _ _); [| now apply ledger_drawn].
  destruct (JS.at_index _ _) as [tid |]; [| now repeat apply ledger_drawn].
  wsimpl. destruct (getNode tid (nodes w)) as [rc |];
    [| now repeat apply ledger_drawn].
  destruct (JS.gtb (opacity rc) (1 # 2)); [| now repeat apply ledger_drawn].
  match goal with
  | |- ledger (let '(pulse, w0) := createPulse ?s ?t ?v ?W in _) =>
      assert (HW : ledger W) by (now repeat apply ledger_drawn);
      destruct (@ledger_createPulse s t v W HW) as [Hn Hk];
      destruct (createPulse s t v W) as [pulse w1] eqn:E
  end.
  cbn [fst snd] in Hn, Hk.
  apply (@ledger_emit i pulse w1 (nextPulse w1)); [| exact Hk | reflexivity].
  rewrite Hn. wsimpl. exact (proj1 H).
Qed.

Lemma ledger_forward t w : ledger w -> ledger (forward draws t w).
Proof.
  intro H. unfold forward.
  destruct (getNode t (nodes w)) as [tn |]; [| exact H].
  destruct (active tn); [| exact H].
  destruct (NodeType_eqb (type tn) Process); [| exact H].
  cbn [Math_random]. destruct (JS.gtb _ _); [| now apply ledger_drawn].
  apply ledger_send. now apply ledger_drawn.
Qed.

Lemma slot_modifyNode i j q t f ns :
  (forall n, oid (f n) = oid n) ->
  (forall n, exists l, pulses (f n) = pulses n ++ l) ->
  slot i j q ns -> slot i j q (modifyNode t f ns).
Proof.
  intros Ho Hp (n & p & G & Hj & Hq).
  destruct (Nat.eq_dec i t) as [-> | Hne].
  - exists (f n), p. rewrite (getNode_modifyNode_same t f Ho), G.
    split; [reflexivity |]. split; [| exact Hq].
    destruct (Hp n) as [l ->]. rewrite nth_error_app1; [exact Hj |].
    apply nth_error_Some. congruence.
  - exists n, p. rewrite (@getNode_modifyNode_other t f Ho i ns Hne). auto.
Qed.

Lemma slot_send i j q t w :
  slot i j q (nodes w) -> slot i j q (nodes (sendRandomImpulse draws t w)).
Proof.
  intro H. destruct (send_nodes draws t w) as [-> | [pulse ->]]; [exact H |].
  apply slot_modifyNode; [intro; apply emit_oid | | exact H].
  intro n. exists [pulse]. apply emit_pulses.
Qed.

Lemma slot_forward i j q t w :
  slot i j q (nodes w) -> slot i j q (nodes (forward draws t w)).
Proof.
  intro H. unfold forward.
  destruct (getNode t (nodes w)) as [tn |]; [| exact H].
  destruct (active tn); [| exact H].
  destruct (NodeType_eqb (type tn) Process); [| exact H].
  cbn [Math_random]. destruct (JS.gtb _ _); [| exact H].
  now apply slot_send.
Qed.

(** The pulse that arrived goes to the pool and leaves the array. *)
Lemma ledger_retire i j p w :
  ledger w -> slot i j (pid p) (nodes w) ->
  ledger (withNode i (fun n => set_pulses (JS.splice1 j (pulses n)) n)
            (recyclePulse p w)).
Proof.
  intros [Hnd Hk] (n & q & G & Hj & Hq). split.
  - wsimpl. rewrite recyclePulse_nodes.
    rewrite map_oid_modifyNode; [exact Hnd | reflexivity].
  - intro k. specialize (Hk k). rewrite references_split in *. wsimpl.
    rewrite recyclePulse_nodes.
    pose proof (@in_flight_modifyNode k i
                  (fun n => set_pulses (JS.splice1 j (pulses n)) n)
                  (nodes w) n Hnd G) as H.
    cbn [pulses set_pulses] in H.
    rewrite (@held_splice1 k (pulses n) j q Hj) in H.
    rewrite (@held_pid k q p Hq) in H.
    unfold recyclePulse.
    destruct (length (pulsePool w) <? MAX_PULSE_COUNT)%nat; wsimpl.
    + unfold JS.push. rewrite held_app. lia.
    + lia.
Qed.

Lemma ledger_pulseStep i dt j w :
  ledger w -> ledger (pulseStep draws i dt j w).
Proof.
  intro H. unfold pulseStep.
  destruct (getNode i (nodes w)) as [this |] eqn:G; [| exact H].
  destruct (nth_error (pulses this) j) as [pulse |] eqn:Hj; [| exact H].
  cbv zeta.
  set (p' := advance dt pulse).
  set (w1 := withNode i (fun n => set_pulses (JS.set_at j p' (pulses n)) n) w).
  assert (H1 : ledger w1).
  { destruct H as [Hnd Hk]. split.
    - subst w1. wsimpl. rewrite map_oid_modifyNode; [exact Hnd | reflexivity].
    - intro k. specialize (Hk k). rewrite references_split in *.
      subst w1. wsimpl.
      pose proof (@in_flight_modifyNode k i
                    (fun n => set_pulses (JS.set_at j p' (pulses n)) n)
                    (nodes w) this Hnd G) as E.
      cbn [pulses set_pulses] in E.
      rewrite (@held_set_at k (pulses this) j pulse p' Hj eq_refl) in E. lia. }
  assert (S1 : slot i j (pid p') (nodes w1)).
  { exists (set_pulses (JS.set_at j p' (pulses this)) this), p'.
    subst w1. wsimpl.
    rewrite (getNode_modifyNode_same i
               (fun n => set_pulses (JS.set_at j p' (pulses n)) n)
               (fun n => eq_refl)), G.
    split; [reflexivity |]. split; [| reflexivity].
    cbn [pulses set_pulses].
    exact (@nth_error_set_at_same _ (pulses this) j p' pulse Hj). }
  destruct (JS.geb (progress p') 1); [| exact H1].
  apply ledger_retire.
  - apply ledger_forward. apply ledger_withNode; [reflexivity | exact H1].
  - apply slot_forward. wsimpl.
    apply slot_modifyNode; [reflexivity | | exact S1].
    intro n. exists []. now rewrite app_nil_r.
Qed.

Lemma ledger_updatePulses i dt w :
  ledger w -> ledger (updatePulses draws i dt w).
Proof.
  intro H. unfold updatePulses.
  destruct (getNode i (nodes w)) as [this |]; [| exact H].
  generalize (length (pulses this)). intro k. revert w H.
  induction k as [| k IH]; intros w H; simpl; [exact H |].
  apply IH. now apply ledger_pulseStep.
Qed.

Lemma holding_relax time n : holding (relax time n) = holding n.
Proof.
  unfold relax. cbv zeta.
  repeat match goal with
  | |- context [if ?c then _ else _] => destruct c
  end; reflexivity.
Qed.

Lemma ledger_update i time dt w :
  ledger w -> ledger (update draws i time dt w).
Proof.
  intro H. unfold update. cbv zeta. apply ledger_updatePulses.
  set (w1 := withNode i (relax time) w).
  assert (H1 : ledger w1)
    by (apply ledger_withNode; [apply holding_relax | exact H]).
  set (w2 := match getNode i (nodes w1) with Some _ => _ | None => w1 end).
  assert (H2 : ledger w2).
  { subst w2. destruct (getNode i (nodes w1)) as [this |]; [| exact H1].
    destruct (_ && _); [| exact H1].
    apply ledger_send. apply ledger_withNode; [reflexivity | exact H1]. }
  destruct (getNode i (nodes w2)) as [this |]; [| exact H2].
  destruct (_ && _); [| exact H2].
  cbn [Math_random]. destruct (JS.gtb _ _).
  - apply ledger_send. now apply ledger_drawn.
  - now apply ledger_drawn.
Qed.

End Ledger.

Section LedgerSession.

Variable draws : nat -> Q.
Variable Math_sqrt : Q -> Q.

Local Ltac neutral_step :=
  apply ledger_neutral;
  [ first [ apply proj_checkNodeSelection | apply proj_dragSelected
          | apply proj_handleMouseUp | apply proj_handleMouseMove
          | apply proj_layout ]; intros; reflexivity
  | | ];
  cbv delta [checkNodeSelection dragSelected handleMouseUp handleMouseMove
             layout]; cbv beta zeta; wsimpl;
  repeat match goal with
  | |- context [match ?c with _ => _ end] => destruct c; wsimpl
  end; reflexivity.

Lemma ledger_layout r strength w :
  ledger w -> ledger (layout Math_sqrt r strength w).
Proof. neutral_step. Qed.

Lemma ledger_checkNodeSelection px py w :
  ledger w -> ledger (checkNodeSelection Math_sqrt px py w).
Proof. neutral_step. Qed.

Lemma ledger_dragSelected mx my w :
  ledger w -> ledger (dragSelected mx my w).
Proof. neutral_step. Qed.

Lemma ledger_handleMouseUp w : ledger w -> ledger (handleMouseUp w).
Proof. neutral_step. Qed.

Lemma ledger_handleMouseMove mx my w :
  ledger w -> ledger (handleMouseMove Math_sqrt mx my w).
Proof. neutral_step. Qed.

Lemma ledger_updates time dt l w :
  ledger w -> ledger (fold_left (fun w i => update draws i time dt w) l w).
Proof.
  revert w. induction l as [| i l IH]; intros w H; simpl; [exact H |].
  apply IH. now apply ledger_update.
Qed.

Lemma ledger_renderNodes time dt r w :
  ledger w -> ledger (renderNodes draws Math_sqrt time dt r w).
Proof.
  intro H. unfold renderNodes. cbv zeta. apply ledger_updates.
  apply (ledger_set_nodes (map dampen)).
  { intro ns. apply proj_map. intro n. unfold dampen.
    destruct (negb (isDragged n)); reflexivity. }
  match goal with
  | |- ledger (set_nodes (updatePositions (nodes ?W) ?a ?b ?c) ?W) =>
      apply (ledger_set_nodes (fun ns => updatePositions ns a b c))
  end.
  { intro ns. unfold updatePositions. apply proj_map. intro n.
    apply proj_updatePosition; intros; reflexivity. }
  destruct (JS.gtb _ _); [| exact H].
  apply ledger_layout. exact H.
Qed.

Lemma ledger_handle e w :
  ledger w -> ledger (handle draws Math_sqrt e w).
Proof.
  intro H.
  destruct e as [t r | cw ch r | mx my | mx my | | ts | ts |]; cbn [handle].
  - unfold animate. cbv zeta. destruct (JS.geb _ _).
    + apply ledger_renderNodes. exact H.
    + exact H.
  - unfold resize. apply ledger_layout. exact H.
  - now apply ledger_checkNodeSelection.
  - now apply ledger_handleMouseMove.
  - now apply ledger_handleMouseUp.
  - unfold handleTouchStart. destruct ts as [| [mx my] [| ? ?]]; try exact H.
    now apply ledger_checkNodeSelection.
  - unfold handleTouchMove. destruct ts as [| [mx my] [| ? ?]]; try exact H.
    destruct (isDragging w); [now apply ledger_dragSelected | exact H].
  - now apply ledger_handleMouseUp.
Qed.

Lemma ledger_initApp cw ch r : ledger (initApp draws Math_sqrt cw ch r).
Proof.
  unfold initApp. cbv zeta. apply ledger_layout.
  destruct (@createNetwork_built draws Math_sqrt cw ch
              (set_canvas cw ch boot)) as [[Hnd Hall] Hpool].
  split; [exact Hnd |].
  intro k. rewrite references_split, Hpool.
  assert (E : in_flight (nodes (createNetwork draws Math_sqrt cw ch
                                  (set_canvas cw ch boot))) = []).
  { revert Hall. generalize (nodes (createNetwork draws Math_sqrt cw ch
                                      (set_canvas cw ch boot))).
    intros ns Hall. induction Hall as [| n ns [_ Hp] _ IH]; [reflexivity |].
    unfold in_flight in *. simpl. now rewrite Hp, IH. }
  rewrite E. simpl. destruct (k <? _)%nat; lia.
Qed.

Lemma ledger_reachable w : reachable draws Math_sqrt w -> ledger w.
Proof.
  induction 1 as [cw ch r | e w Hw IH].
  - apply ledger_initApp.
  - now apply ledger_handle.
Qed.

End LedgerSession.

(** X27.  In every state of a session no pulse object is referred to
    twice: the objects in the pool and those in the [pulses] arrays of the
    nodes are pairwise distinct, so that the object [createPulse] takes
    from the pool and overwrites is in flight nowhere; and each of them
    was allocated by the object literal of [createPulse]. *)
Theorem pulse_objects_are_never_shared :
  forall (draws : nat -> Q) (Math_sqrt : Q -> Q) (w : World),
    reachable draws Math_sqrt w ->
    NoDup (pulse_objects w)
    /\ Forall (fun k => (k < nextPulse w)%nat) (pulse_objects w).
Proof.
  intros draws Math_sqrt w Hw.
  destruct (@ledger_reachable draws Math_sqrt w Hw) as [_ Hk]. split.
  - apply (NoDup_count_occ Nat.eq_dec). intro k. specialize (Hk k).
    unfold references in Hk. destruct (k <? nextPulse w)%nat; lia.
  - apply Forall_forall. intros k Hin.
    apply (count_occ_In Nat.eq_dec) in Hin. specialize (Hk k).
    unfold references in Hk.
    destruct (k <? nextPulse w)%nat eqn:E; [now apply Nat.ltb_lt | lia].
Qed.

Lemma pulse_objects_are_never_shared_witness :
  NoDup (pulse_objects session)
  /\ Forall (fun k => (k < nextPulse session)%nat) (pulse_objects session).
Proof.
  exact (@pulse_objects_are_never_shared steady_draws (sqrt_bits 20)
           session session_reachable).
Defined.

(** ** Dragged nodes in the force accumulation *)

Lemma spared_refl n : spared n n.
Proof. split; [apply sameBody_refl | auto]. Qed.

Lemma spared_trans a b c : spared a b -> spared b c -> spared a c.
Proof.
  intros [H1 H2] [H3 H4]. split; [eapply sameBody_trans; eassumption |].
  intro Hd. rewrite <- (H2 Hd). apply H4.
  destruct H1 as (_ & _ & _ & _ & E & _). congruence.
Qed.

Lemma spareds_refl ns : Forall2 spared ns ns.
Proof. apply Forall2_same. intros. apply spared_refl. Qed.

Lemma spareds_trans a b c :
  Forall2 spared a b -> Forall2 spared b c -> Forall2 spared a c.
Proof. apply Forall2_compose. apply spared_trans. Qed.

Lemma spareds_map_oid ns ns' : Forall2 spared ns ns' -> map oid ns' = map oid ns.
Proof.
  induction 1 as [| a b ns ns' [(Ho & _) _] _ IH]; simpl; [reflexivity |].
  now rewrite Ho, IH.
Qed.

Lemma spareds_modifyAt a f ns :
  (forall n, sameBody n (f n)) -> free_at ns a ->
  Forall2 spared ns (modifyAt a f ns).
Proof.
  intros Hf. revert a. induction ns as [| n ns IH]; intros a Ha.
  - destruct a; constructor.
  - destruct a as [| a]; simpl.
    + constructor; [| apply spareds_refl].
      split; [apply Hf |]. intro Hd. rewrite (Ha n eq_refl) in Hd. discriminate.
    + constructor; [apply spared_refl | apply IH; exact Ha].
Qed.

Lemma spareds_modifyNode c f ns :
  (forall n, sameBody n (f n)) ->
  (forall n, In n ns -> oid n = c -> isDragged n = false) ->
  Forall2 spared ns (modifyNode c f ns).
Proof.
  intros Hf. induction ns as [| n ns IH]; intros Hc; simpl.
  - constructor.
  - constructor.
    + destruct (Nat.eqb (oid n) c) eqn:E; [| apply spared_refl].
      apply Nat.eqb_eq in E. split; [apply Hf |]. intro Hd.
      rewrite (Hc n (or_introl eq_refl) E) in Hd. discriminate.
    + apply IH. intros m Hm. apply Hc. now right.
Qed.

Lemma free_at_spareds ns ns' a :
  Forall2 spared ns ns' -> free_at ns a -> free_at ns' a.
Proof.
  intros H Ha n' Hn'. destruct (Forall2_nth_error_r _ H Hn') as [n [Hn [Hb _]]].
  destruct Hb as (_ & _ & _ & _ & E & _). rewrite E. now apply Ha.
Qed.

Lemma spareds_fold {A} (Inv : list Node -> Prop)
  (step : list Node -> A -> list Node) (l : list A) ns :
  (forall ns ns', Forall2 spared ns ns' -> Inv ns -> Inv ns') ->
  (forall ns a, Inv ns -> Forall2 spared ns (step ns a)) ->
  Inv ns -> Forall2 spared ns (fold_left step l ns).
Proof.
  intros Hinv Hstep. revert ns. induction l as [| a l IH]; intros ns H; simpl.
  - apply spareds_refl.
  - eapply spareds_trans; [apply (Hstep ns a H) |].
    apply IH. eapply Hinv; [apply (Hstep ns a H) | exact H].
Qed.

Section SparedNodes.

Variable Math_sqrt : Q -> Q.
Variable config : Config.

Lemma spareds_repel a b ns :
  free_at ns a -> Forall2 spared ns (repel Math_sqrt config a b ns).
Proof.
  intro Ha. unfold repel.
  destruct (nth_error ns a) as [nodeA |] eqn:EA; [| apply spareds_refl].
  destruct (nth_error ns b) as [nodeB |] eqn:EB; [| apply spareds_refl].
  destruct (isDragged nodeB) eqn:Hd; [apply spareds_refl |]. cbv zeta.
  destruct (JS.ltb _ _); [| apply spareds_refl].
  match goal with
  | |- Forall2 spared ns (modifyAt b ?g (modifyAt a ?f ns)) =>
      assert (H1 : Forall2 spared ns (modifyAt a f ns))
        by (apply spareds_modifyAt; [apply body_sub_v | exact Ha]);
      eapply spareds_trans; [exact H1 |];
      apply spareds_modifyAt; [apply body_add_v |]
  end.
  apply (free_at_spareds H1). intros n Hn. congruence.
Qed.

Lemma spareds_applyNodeRepulsion_loop a k b ns :
  free_at ns a ->
  Forall2 spared ns (applyNodeRepulsion_loop Math_sqrt config a k b ns).
Proof.
  revert b ns. induction k as [| k IH]; intros b ns Ha; simpl.
  - apply spareds_refl.
  - pose proof (spareds_repel b Ha) as H1.
    eapply spareds_trans; [exact H1 |]. apply IH.
    now apply (free_at_spareds H1).
Qed.

Lemma spareds_forcesOn w h r ns a :
  Forall2 spared ns (forcesOn Math_sqrt w h r config ns a).
Proof.
  unfold forcesOn.
  destruct (nth_error ns a) as [nodeA |] eqn:EA; [| apply spareds_refl].
  destruct (isDragged nodeA) eqn:Hd; [apply spareds_refl |]. cbv zeta.
  assert (Ha : free_at ns a) by (intros n Hn; congruence).
  match goal with
  | |- Forall2 spared ns
         (applyNodeRepulsion _ _ _ (modifyAt a ?g (modifyAt a ?f ns))) =>
      assert (H1 : Forall2 spared ns (modifyAt a f ns))
        by (apply spareds_modifyAt;
            [apply body_applyContentRepulsion | exact Ha]);
      assert (H2 : Forall2 spared (modifyAt a f ns)
                     (modifyAt a g (modifyAt a f ns)))
        by (apply spareds_modifyAt;
            [apply body_applyEdgeForces | apply (free_at_spareds H1 Ha)])
  end.
  eapply spareds_trans; [exact H1 |]. eapply spareds_trans; [exact H2 |].
  apply spareds_applyNodeRepulsion_loop.
  apply (free_at_spareds H2). apply (free_at_spareds H1 Ha).
Qed.

Lemma spareds_attract a ns connected :
  free_at ns a -> NoDup (map oid ns) ->
  Forall2 spared ns (attract Math_sqrt config a ns connected).
Proof.
  intros Ha Hnd. unfold attract.
  destruct (nth_error ns a) as [node |] eqn:EA; [| apply spareds_refl].
  destruct (getNode connected ns) as [c |] eqn:EC; [| apply spareds_refl].
  destruct (isDragged c) eqn:Hd; [apply spareds_refl |]. cbv zeta.
  match goal with
  | |- Forall2 spared ns (modifyNode connected ?g (modifyAt a ?f ns)) =>
      assert (H1 : Forall2 spared ns (modifyAt a f ns))
        by (apply spareds_modifyAt; [apply body_add_v | exact Ha]);
      eapply spareds_trans; [exact H1 |];
      apply spareds_modifyNode; [apply body_sub_v |]
  end.
  intros n Hn Ho.
  destruct (Forall2_In_r _ H1 Hn) as [m [Hm [Hb _]]].
  destruct Hb as (Eo & _ & _ & _ & Ed & _).
  apply getNode_Some in EC. destruct EC as [Hc Hoc].
  assert (m = c) by (apply (NoDup_oid_eq ns); auto; congruence).
  subst m. congruence.
Qed.

Lemma spareds_attractAll ns a :
  NoDup (map oid ns) -> Forall2 spared ns (attractAll Math_sqrt config ns a).
Proof.
  intro Hnd. unfold attractAll.
  destruct (nth_error ns a) as [node |] eqn:EA; [| apply spareds_refl].
  destruct (isDragged node) eqn:Hd; [apply spareds_refl |].
  apply (spareds_fold (fun ns => free_at ns a /\ NoDup (map oid ns))).
  - intros l l' H [H1 H2]. split; [now apply (free_at_spareds H) |].
    now rewrite (spareds_map_oid H).
  - intros l c [H1 H2]. now apply spareds_attract.
  - split; [intros n Hn; congruence | exact Hnd].
Qed.

Lemma spareds_applyForces w h r ns :
  NoDup (map oid ns) ->
  Forall2 spared ns (applyForces Math_sqrt w h r config ns).
Proof.
  intro Hnd. unfold applyForces, applyConnectionAttractions. cbv zeta.
  assert (H1 : Forall2 spared ns
                 (fold_left (forcesOn Math_sqrt w h r config)
                    (seq 0 (length ns)) ns)).
  { apply (spareds_fold (fun _ => True)); auto.
    intros l a _. apply spareds_forcesOn. }
  eapply spareds_trans; [exact H1 |].
  apply (spareds_fold (fun ns => NoDup (map oid ns))).
  - intros l l' H. now rewrite (spareds_map_oid H).
  - intros l a H. now apply spareds_attractAll.
  - now rewrite (spareds_map_oid H1).
Qed.

End SparedNodes.

(** X28.  [applyForces] writes no dragged node: on an array of distinct
    nodes, every force it accumulates (content, edges, repulsion,
    attraction) skips the dragged nodes, at both ends of a pair; every
    node keeps its place in the array, its identity, its position and its
    dragged flag. *)
Theorem applyForces_spares_dragged_nodes :
  forall (Math_sqrt : Q -> Q) (width height : Q) (contentRect : Rect)
         (config : Config) (ns : list Node) (k : nat) (n : Node),
    NoDup (map oid ns) ->
    nth_error ns k = Some n ->
    exists n',
      nth_error (applyForces Math_sqrt width height contentRect config ns) k
      = Some n'
      /\ oid n' = oid n /\ x n' = x n /\ y n' = y n
      /\ isDragged n' = isDragged n
      /\ (isDragged n = true -> n' = n).
Proof.
  intros Math_sqrt width height r config ns k n Hnd Hk.
  pose proof (@spareds_applyForces Math_sqrt config width height r ns Hnd) as H.
  destruct (Forall2_nth_error _ H Hk) as [n' [Hk' [Hb Hd]]].
  exists n'. split; [exact Hk' |].
  destruct Hb as (Ho & Hx & Hy & _ & Hdr & _). auto.
Qed.

Lemma applyForces_spares_dragged_nodes_witness :
  exists n',
    nth_error (applyForces (sqrt_bits 20) 800 600 (defaultRect 800 600)
                 (layoutConfig 800 600 (1 # 2)) [drifting; dragged_near]) 1
    = Some n'
    /\ oid n' = oid dragged_near /\ x n' = x dragged_near
    /\ y n' = y dragged_near
    /\ isDragged n' = isDragged dragged_near
    /\ (isDragged dragged_near = true -> n' = dragged_near).
Proof.
  apply (@applyForces_spares_dragged_nodes (sqrt_bits 20) 800 600
           (defaultRect 800 600) (layoutConfig 800 600 (1 # 2))
           [drifting; dragged_near] 1%nat dragged_near).
  - repeat constructor; simpl; intuition discriminate.
  - reflexivity.
Defined.

(** ** Edge forces *)

Lemma square_nonneg (q : Q) : 0 <= q ^ 2.
Proof.
  change (q ^ 2) with (q * q).
  destruct (Qlt_le_dec q 0) as [H | H]; nra.
Qed.

Lemma scaled_force_nonneg (f width height : Q) :
  0 <= f -> 0 < width -> 0 < height -> 0 <= f * (1 + 1000 / Qmin width height).
Proof.
  intros Hf Hw Hh.
  assert (Hm : 0 < Qmin width height)
    by (destruct (Q.min_spec width height) as [[_ E] | [_ E]]; rewrite E; assumption).
  assert (Hd : 0 <= 1000 / Qmin width height).
  { apply Qle_shift_div_l; [exact Hm | lra]. }
  nra.
Qed.

(** X29.  [applyEdgeForces], for a non-negative [edgeForce], a positive
    [edgePadding] and a canvas of positive size, writes velocities only,
    leaves the velocity of a node at least [edgePadding] from the edges as
    it is, and otherwise only pushes inwards: a node that is not near the
    right edge is never pushed to the left, one that is not near the left
    edge never to the right, and likewise for top and bottom. *)
Theorem applyEdgeForces_pushes_inwards :
  forall (width height : Q) (config : Config) (n : Node),
    0 <= edgeForce config -> 0 < edgePadding config ->
    0 < width -> 0 < height ->
    let p := edgePadding config in
    let n' := applyEdgeForces width height config n in
    x n' = x n /\ y n' = y n
    /\ (p <= x n <= width - p -> vx n' = vx n)
    /\ (p <= y n <= height - p -> vy n' = vy n)
    /\ (x n <= width - p -> vx n <= vx n')
    /\ (p <= x n -> vx n' <= vx n)
    /\ (y n <= height - p -> vy n <= vy n')
    /\ (p <= y n -> vy n' <= vy n).
Proof.
  intros width height config n Hf Hp Hw Hh p n'. subst p n'.
  unfold applyEdgeForces. cbv zeta.
  pose proof (scaled_force_nonneg Hf Hw Hh) as Hs.
  set (s := edgeForce config * (1 + 1000 / Qmin width height)) in *.
  clearbody s.
  destruct (JS.ltb (x n) (edgePadding config)) eqn:E1;
    cbn [x y vx vy set_vx set_vy];
    destruct (JS.gtb (x n) (width - edgePadding config)) eqn:E2;
    cbn [x y vx vy set_vx set_vy];
    destruct (JS.ltb (y n) (edgePadding config)) eqn:E3;
    cbn [x y vx vy set_vx set_vy];
    destruct (JS.gtb (y n) (height - edgePadding config)) eqn:E4;
    cbn [x y vx vy set_vx set_vy];
    js_prop;
    repeat match goal with
    | |- context [(?q) ^ 2] =>
        let H := fresh "Hq" in
        let f := fresh "f" in
        pose proof (square_nonneg q) as H; set (f := q ^ 2) in *; clearbody f
    end;
    repeat split; intros; try reflexivity; try lra; try nra.
Qed.

Lemma applyEdgeForces_pushes_inwards_witness :
  let config := layoutConfig 800 600 (1 # 2) in
  let p := edgePadding config in
  let n' := applyEdgeForces 800 600 config dragged_left in
  x n' = x dragged_left /\ y n' = y dragged_left
  /\ (p <= x dragged_left <= 800 - p -> vx n' = vx dragged_left)
  /\ (p <= y dragged_left <= 600 - p -> vy n' = vy dragged_left)
  /\ (x dragged_left <= 800 - p -> vx dragged_left <= vx n')
  /\ (p <= x dragged_left -> vx n' <= vx dragged_left)
  /\ (y dragged_left <= 600 - p -> vy dragged_left <= vy n')
  /\ (p <= y dragged_left -> vy n' <= vy dragged_left).
Proof.
  apply (@applyEdgeForces_pushes_inwards 800 600 (layoutConfig 800 600 (1 # 2))
           dragged_left).
  - vm_compute. discriminate.
  - vm_compute. reflexivity.
  - reflexivity.
  - reflexivity.
Defined.
